(** * EcoLens image resizer: dimension resolution, savings estimate,
      rasterization promise and debounced resize scheduler

    A shallow embedding of [src/App.tsx] (the handlers [updateDimensions]
    and [updatePercentage], the derived savings figures and the live
    resize effect, and the handlers [handleFileChange] and
    [handleEcoScan]), of [resizeImage], [getImageDimensions] and
    [fileToDataString] from the image utilities and of [analyzeImage] from
    the analysis service.

    JavaScript numbers are IEEE-754 binary64 values.  They are modelled by
    the specification floats of the standard library at precision 53 and
    maximal exponent 1024, so that [NaN], the infinities, the signed zeros
    and every rounding of the source are those of the running program. *)

From Stdlib Require Import ZArith QArith Qabs Bool List String Ascii Lia Floats.SpecFloat.
Import ListNotations.

Local Open Scope Z_scope.

(** ** JavaScript numbers *)

Module JS.

Definition number := spec_float.

Definition prec : Z := 53.
Definition emax : Z := 1024.

Definition NaN : number := S754_nan.
Definition Infinity : number := S754_infinity false.

(** An integer literal; exact below 2^53 in magnitude. *)
Definition of_Z (z : Z) : number := binary_normalize prec emax z 0 false.

Definition sub (x y : number) : number := SFsub prec emax x y.
Definition mul (x y : number) : number := SFmul prec emax x y.
Definition div (x y : number) : number := SFdiv prec emax x y.

(** [x < y] and [x > y]; both are false as soon as one side is NaN. *)
Definition lt (x y : number) : bool := SFltb x y.
Definition gt (x y : number) : bool := SFltb y x.
Definition le (x y : number) : bool := SFleb x y.
(** [x === y] on numbers. *)
Definition eqb (x y : number) : bool := SFeqb x y.

Definition is_nan (x : number) : bool :=
  match x with S754_nan => true | _ => false end.

Definition is_finite (x : number) : bool :=
  match x with S754_zero _ | S754_finite _ _ _ => true | _ => false end.

(** ToBoolean on a number: zero of either sign and NaN are falsy. *)
Definition truthy (x : number) : bool :=
  match x with
  | S754_zero _ | S754_nan => false
  | _ => true
  end.

(** [x || y] on numbers. *)
Definition or_else (x y : number) : number := if truthy x then x else y.

(** [Math.round]: the integral number closest to [x], ties towards
    +Infinity; NaN, the infinities and the zeros are returned as they
    are, and a negative argument of magnitude at most one half gives -0. *)
Definition Math_round (x : number) : number :=
  match x with
  | S754_finite s m e =>
      if 0 <=? e then x
      else
        let n := (2 * cond_Zopp s (Zpos m) + 2 ^ (- e)) / 2 ^ (- e + 1) in
        match n with
        | Z0 => S754_zero s
        | _ => of_Z n
        end
  | _ => x
  end.

(** [Math.max] of two numbers: NaN is contagious and +0 is above -0. *)
Definition Math_max (x y : number) : number :=
  match x, y with
  | S754_nan, _ | _, S754_nan => S754_nan
  | _, _ =>
      if lt x y then y
      else if lt y x then x
      else match x with S754_zero true => y | _ => x end
  end.

(** The numeric literals of the source. *)
Definition n0 : number := Eval vm_compute in of_Z 0.
Definition n1 : number := Eval vm_compute in of_Z 1.
Definition n22 : number := Eval vm_compute in of_Z 22.
Definition n100 : number := Eval vm_compute in of_Z 100.
Definition n500 : number := Eval vm_compute in of_Z 500.
Definition n1024 : number := Eval vm_compute in of_Z 1024.
(** [0.75] is 3/4, a binary fraction. *)
Definition n0_75 : number := Eval vm_compute in div (of_Z 3) (of_Z 4).
(** [0.35] denotes the double nearest to 35/100, which is what the
    correctly rounded quotient of 35 by 100 is. *)
Definition n0_35 : number := Eval vm_compute in div (of_Z 35) (of_Z 100).

(** The integer a number denotes, when it is a finite integral value. *)
Definition to_Z (x : number) : option Z :=
  match x with
  | S754_zero _ => Some 0
  | S754_finite s m e =>
      if 0 <=? e then Some (cond_Zopp s (Zpos m) * 2 ^ e)
      else if (Zpos m) mod 2 ^ (- e) =? 0
           then Some (cond_Zopp s (Zpos m / 2 ^ (- e)))
           else None
  | _ => None
  end.

End JS.

(** ** Data model ([src/types.ts]) *)

Record ImageDimensions := {
  dim_width : JS.number;
  dim_height : JS.number
}.

Inductive ResizeMode := mode_pixels | mode_percentage.

Inductive ImageFormat := image_jpeg | image_png | image_webp.

Record ResizeOptions := {
  width : JS.number;
  height : JS.number;
  percentage : JS.number;
  mode : ResizeMode;
  quality : JS.number;
  format : ImageFormat;
  maintainAspectRatio : bool
}.

(** The two keys [updateDimensions] accepts. *)
Inductive DimKey := key_width | key_height.

(** ** Dimension resolver ([src/App.tsx], [updateDimensions] and
       [updatePercentage])

    Both handlers read the rendered [options] and [originalDims] and end
    in one [setOptions (prev => ...)] call.  A handler is modelled by the
    updater it hands to [setOptions], or [None] when it returns before
    calling it. *)

Definition updateDimensions (originalDims : ImageDimensions)
    (options : ResizeOptions) (key : DimKey) (value : JS.number)
    : option (ResizeOptions -> ResizeOptions) :=
  if JS.lt value JS.n0 then None
  else
    let newW := width options in
    let newH := height options in
    let '(newW, newH) :=
      match key with
      | key_width =>
          let newW := value in
          if maintainAspectRatio options && JS.gt (dim_width originalDims) JS.n0
          then
            let ratio := JS.div (dim_height originalDims) (dim_width originalDims) in
            (newW, JS.Math_round (JS.mul value ratio))
          else (newW, newH)
      | key_height =>
          let newH := value in
          if maintainAspectRatio options && JS.gt (dim_height originalDims) JS.n0
          then
            let ratio := JS.div (dim_width originalDims) (dim_height originalDims) in
            (JS.Math_round (JS.mul value ratio), newH)
          else (newW, newH)
      end in
    Some (fun prev =>
      {| width := newW;
         height := newH;
         percentage :=
           JS.or_else
             (JS.Math_round (JS.mul (JS.div newW (dim_width originalDims)) JS.n100))
             JS.n0;
         mode := mode prev;
         quality := quality prev;
         format := format prev;
         maintainAspectRatio := maintainAspectRatio prev |}).

Definition updatePercentage (originalDims : ImageDimensions)
    (val : JS.number) : ResizeOptions -> ResizeOptions :=
  let val := if JS.lt val JS.n1 then JS.n1 else val in
  let val := if JS.gt val JS.n500 then JS.n500 else val in
  let newW := JS.Math_round (JS.mul (dim_width originalDims) (JS.div val JS.n100)) in
  let newH := JS.Math_round (JS.mul (dim_height originalDims) (JS.div val JS.n100)) in
  fun prev =>
    {| width := newW;
       height := newH;
       percentage := val;
       mode := mode prev;
       quality := quality prev;
       format := format prev;
       maintainAspectRatio := maintainAspectRatio prev |}.

(** The options after a handler ran in a render whose state is [options]:
    React calls the updater on the pending state, which is [options] when
    the handler is the only update of its event. *)
Definition apply_update (u : option (ResizeOptions -> ResizeOptions))
    (options : ResizeOptions) : ResizeOptions :=
  match u with
  | None => options
  | Some f => f options
  end.

Definition editDimension (originalDims : ImageDimensions)
    (options : ResizeOptions) (key : DimKey) (value : JS.number) : ResizeOptions :=
  apply_update (updateDimensions originalDims options key value) options.

Definition editPercentage (originalDims : ImageDimensions)
    (options : ResizeOptions) (val : JS.number) : ResizeOptions :=
  updatePercentage originalDims val options.

(** The percentage every width or height edit stores. *)
Definition percentage_of (originalDims : ImageDimensions) (newW : JS.number)
    : JS.number :=
  JS.or_else
    (JS.Math_round (JS.mul (JS.div newW (dim_width originalDims)) JS.n100)) JS.n0.

(** Original dimensions given as integers. *)
Definition dims (w h : Z) : ImageDimensions :=
  {| dim_width := JS.of_Z w; dim_height := JS.of_Z h |}.

(** Two options records that agree on every field but [mode]. *)
Definition same_but_mode (o1 o2 : ResizeOptions) : Prop :=
  width o1 = width o2 /\ height o1 = height o2 /\
  percentage o1 = percentage o2 /\ quality o1 = quality o2 /\
  format o1 = format o2 /\ maintainAspectRatio o1 = maintainAspectRatio o2.

(** How far the resolved ratio [h / w] is from the original [H / W]. *)
Definition ratio_gap (h w H W : Z) : Q :=
  Qabs (inject_Z h / inject_Z w - inject_Z H / inject_Z W).

(** ** Savings estimator ([src/App.tsx], the derived values of a render) *)

(** The one field of a [File] the render reads. *)
Record File := { size : JS.number }.

(** ToBoolean on a string: only the empty string is falsy. *)
Definition string_truthy (s : string) : bool :=
  match s with EmptyString => false | _ => true end.

Definition string_length (s : string) : JS.number :=
  JS.of_Z (Z.of_nat (String.length s)).

(** [file?.size || 0] *)
Definition originalSize (file : option File) : JS.number :=
  match file with
  | Some f => JS.or_else (size f) JS.n0
  | None => JS.n0
  end.

(** [resizedSrc ? Math.round ((resizedSrc.length - 22) * 0.75) : originalSize] *)
Definition newSizeEstimate (resizedSrc : option string) (originalSize : JS.number)
    : JS.number :=
  match resizedSrc with
  | Some src =>
      if string_truthy src
      then JS.Math_round (JS.mul (JS.sub (string_length src) JS.n22) JS.n0_75)
      else originalSize
  | None => originalSize
  end.

Definition savedBytes (originalSize newSizeEstimate : JS.number) : JS.number :=
  JS.Math_max JS.n0 (JS.sub originalSize newSizeEstimate).

Definition savedCO2 (savedBytes : JS.number) : JS.number :=
  JS.mul (JS.div savedBytes (JS.mul JS.n1024 JS.n1024)) JS.n0_35.

Definition sizePercent (newSizeEstimate originalSize : JS.number) : JS.number :=
  JS.Math_round (JS.mul (JS.div newSizeEstimate originalSize) JS.n100).

Record SavingsEstimate := {
  estimatedNewBytes : JS.number;
  est_savedBytes : JS.number;
  savedCO2Grams : JS.number;
  percentOfOriginal : JS.number
}.

(** The four figures as one render derives them from [file] and
    [resizedSrc]. *)
Definition estimate (file : option File) (resizedSrc : option string)
    : SavingsEstimate :=
  let originalSize := originalSize file in
  let newSizeEstimate := newSizeEstimate resizedSrc originalSize in
  let savedBytes := savedBytes originalSize newSizeEstimate in
  {| estimatedNewBytes := newSizeEstimate;
     est_savedBytes := savedBytes;
     savedCO2Grams := savedCO2 savedBytes;
     percentOfOriginal := sizePercent newSizeEstimate originalSize |}.

(** ** Rasterization ([resizeImage] of the image utilities)

    The promise executor creates an image, installs [onload] and
    [onerror] and sets the source; the browser then fires one of the two
    events.  The browser is a parameter: whether the source decodes,
    whether a 2d context can be had, whether drawing and encoding return
    or throw, and what the canvas encodes to. *)

Module Raster.

Inductive Reason :=
  | JsError (message : string)
  | ErrorEvent (event : string).

Inductive Promise :=
  | Pending
  | Fulfilled (value : string)
  | Rejected (reason : Reason).

(** [resolve] and [reject] settle a pending promise and do nothing to a
    settled one. *)
Definition resolve (value : string) (p : Promise) : Promise :=
  match p with Pending => Fulfilled value | _ => p end.

Definition reject (reason : Reason) (p : Promise) : Promise :=
  match p with Pending => Rejected reason | _ => p end.

Inductive DrawOp :=
  | drawImage (img : string) (dx dy dw dh : JS.number).

(** The conversion of a number to [unsigned long], the type of
    [canvas.width] and [canvas.height]: NaN and the infinities give 0,
    any other value is truncated towards zero and taken modulo 2^32. *)
Definition to_unsigned_long (x : JS.number) : Z :=
  match x with
  | S754_finite s m e =>
      let magnitude := if 0 <=? e then Zpos m * 2 ^ e else Zpos m / 2 ^ (- e) in
      (cond_Zopp s magnitude) mod 2 ^ 32
  | _ => 0
  end.

(** Assigning to a reflected [unsigned long] attribute: a value above
    2^31 - 1 stores the default of the attribute. *)
Definition reflect_unsigned_long (default : Z) (x : JS.number) : Z :=
  let n := to_unsigned_long x in
  if n <=? 2147483647 then n else default.

Record Canvas := {
  canvas_width : Z;
  canvas_height : Z;
  imageSmoothingEnabled : bool;
  imageSmoothingQuality : string;
  drawn : list DrawOp
}.

(** [document.createElement ('canvas')] *)
Definition createCanvas : Canvas :=
  {| canvas_width := 300; canvas_height := 150;
     imageSmoothingEnabled := true; imageSmoothingQuality := "low";
     drawn := [] |}.

(** [canvas.width = width] *)
Definition set_width (x : JS.number) (canvas : Canvas) : Canvas :=
  {| canvas_width := reflect_unsigned_long 300 x;
     canvas_height := canvas_height canvas;
     imageSmoothingEnabled := imageSmoothingEnabled canvas;
     imageSmoothingQuality := imageSmoothingQuality canvas;
     drawn := drawn canvas |}.

(** [canvas.height = height] *)
Definition set_height (x : JS.number) (canvas : Canvas) : Canvas :=
  {| canvas_width := canvas_width canvas;
     canvas_height := reflect_unsigned_long 150 x;
     imageSmoothingEnabled := imageSmoothingEnabled canvas;
     imageSmoothingQuality := imageSmoothingQuality canvas;
     drawn := drawn canvas |}.

(** [ctx.imageSmoothingEnabled = true; ctx.imageSmoothingQuality = 'high'] *)
Definition set_smoothing_high (canvas : Canvas) : Canvas :=
  {| canvas_width := canvas_width canvas;
     canvas_height := canvas_height canvas;
     imageSmoothingEnabled := true;
     imageSmoothingQuality := "high";
     drawn := drawn canvas |}.

(** The canvas after a draw call that returned. *)
Definition record_draw (op : DrawOp) (canvas : Canvas) : Canvas :=
  {| canvas_width := canvas_width canvas;
     canvas_height := canvas_height canvas;
     imageSmoothingEnabled := imageSmoothingEnabled canvas;
     imageSmoothingQuality := imageSmoothingQuality canvas;
     drawn := drawn canvas ++ [op] |}.

Inductive ImageEvent :=
  | load
  | error (event : string).

(** A call into the browser returns a value or throws. *)
Inductive Completion (A : Type) :=
  | normal (value : A)
  | throws (exception : string).
Arguments normal {A} value.
Arguments throws {A} exception.

Record Browser := {
  decode : string -> ImageEvent;
  getContext_2d : Canvas -> bool;
  (** [ctx.drawImage (img, 0, 0, width, height)] on the canvas: it
      returns, or throws (an [InvalidStateError] for a broken image) *)
  draw : Canvas -> DrawOp -> Completion unit;
  (** [canvas.toDataURL (format, quality)]: the data URL, or an
      exception (a [SecurityError] for a canvas that is not
      origin-clean) *)
  toDataURL : Canvas -> ImageFormat -> JS.number -> Completion string
}.

Section ResizeImage.

Variable browser : Browser.

(** The canvas as it is when the context is asked for. *)
Definition sized_canvas (options : ResizeOptions) : Canvas :=
  set_height (height options) (set_width (width options) createCanvas).

(** The canvas [drawImage] is called on. *)
Definition ready_canvas (options : ResizeOptions) : Canvas :=
  set_smoothing_high (sized_canvas options).

(** The one draw call of [img.onload]. *)
Definition draw_call (sourceUrl : string) (options : ResizeOptions) : DrawOp :=
  drawImage sourceUrl JS.n0 JS.n0 (width options) (height options).

(** The canvas [img.onload] has drawn by the time it encodes it. *)
Definition drawn_canvas (sourceUrl : string) (options : ResizeOptions) : Canvas :=
  record_draw (draw_call sourceUrl options) (ready_canvas options).

(** [img.onload].  Nothing in it catches: an exception thrown by
    [drawImage] or [toDataURL] leaves the handler, and the promise stays
    as it is. *)
Definition onload (sourceUrl : string) (options : ResizeOptions) (p : Promise)
    : Promise :=
  let canvas := createCanvas in
  let canvas := set_width (width options) canvas in
  let canvas := set_height (height options) canvas in
  if negb (getContext_2d browser canvas)
  then reject (JsError "Could not get canvas context") p
  else
    let canvas := set_smoothing_high canvas in
    let op := drawImage sourceUrl JS.n0 JS.n0 (width options) (height options) in
    match draw browser canvas op with
    | throws _ => p
    | normal _ =>
        let canvas := record_draw op canvas in
        match toDataURL browser canvas (format options) (quality options) with
        | throws _ => p
        | normal dataUrl => resolve dataUrl p
        end
    end.

Definition onerror (event : string) (p : Promise) : Promise :=
  reject (ErrorEvent event) p.

Definition resizeImage (sourceUrl : string) (options : ResizeOptions) : Promise :=
  let p := Pending in
  match decode browser sourceUrl with
  | load => onload sourceUrl options p
  | error event => onerror event p
  end.

End ResizeImage.

End Raster.

(** A browser that decodes every source and has no 2d context. *)
Definition browser_without_context : Raster.Browser :=
  {| Raster.decode := fun _ => Raster.load;
     Raster.getContext_2d := fun _ => false;
     Raster.draw := fun _ _ => Raster.normal tt;
     Raster.toDataURL := fun _ _ _ => Raster.normal "data:,"%string |}.

(** A browser in which every image decodes and taints the canvas it is
    drawn on, as a cross-origin image served without CORS headers does:
    [toDataURL] throws. *)
Definition browser_tainting : Raster.Browser :=
  {| Raster.decode := fun _ => Raster.load;
     Raster.getContext_2d := fun _ => true;
     Raster.draw := fun _ _ => Raster.normal tt;
     Raster.toDataURL := fun _ _ _ => Raster.throws "SecurityError"%string |}.

(** ** Debounced resize scheduler ([src/App.tsx], the live resize effect)

    The component state the effect touches, the browser's timer table and
    the [resizeImage] promises that have not settled yet.  One logical
    thread of control: state changes with their re-render, the passing of
    time, a due timer running its callback and a promise settling are the
    events, taken one at a time. *)

Module Scheduler.

(** What the timeout callback closes over. *)
Record Job := { job_src : string; job_options : ResizeOptions }.

Record Timer := { timer_id : nat; timer_due : Z; timer_job : Job }.

(** A started [resizeImage] call; [run_gen] is its rank among all runs
    started so far. *)
Record Run := { run_gen : nat; run_job : Job }.

Inductive Settlement := Resolved (result : string) | Failed.

Record State := {
  previewSrc : option string;
  options : ResizeOptions;
  resizedSrc : option string;
  isResizing : bool;
  resizeTimeoutRef : option nat;
  (** whether the last run of the effect returned its cleanup function *)
  has_cleanup : bool;
  now : Z;
  next_timer_id : nat;
  timers : list Timer;
  inflight : list Run;
  (** every rasterization run started so far, oldest first *)
  started : list Job;
  (** the rank of the run whose result [resizedSrc] holds *)
  shown_gen : option nat;
  (** the ranks of the runs that have resolved, latest first *)
  resolved_gens : list nat
}.

Definition delay : Z := 400.

Definition with_timers (ts : list Timer) (s : State) : State :=
  {| previewSrc := previewSrc s; options := options s; resizedSrc := resizedSrc s;
     isResizing := isResizing s; resizeTimeoutRef := resizeTimeoutRef s;
     has_cleanup := has_cleanup s; now := now s; next_timer_id := next_timer_id s;
     timers := ts; inflight := inflight s; started := started s;
     shown_gen := shown_gen s; resolved_gens := resolved_gens s |}.

Definition with_cleanup (b : bool) (s : State) : State :=
  {| previewSrc := previewSrc s; options := options s; resizedSrc := resizedSrc s;
     isResizing := isResizing s; resizeTimeoutRef := resizeTimeoutRef s;
     has_cleanup := b; now := now s; next_timer_id := next_timer_id s;
     timers := timers s; inflight := inflight s; started := started s;
     shown_gen := shown_gen s; resolved_gens := resolved_gens s |}.

(** [clearTimeout (id)]: a fired or cleared id is ignored. *)
Definition clearTimeout (id : nat) (ts : list Timer) : list Timer :=
  filter (fun t => negb (Nat.eqb (timer_id t) id)) ts.

(** [if (resizeTimeoutRef.current) clearTimeout (resizeTimeoutRef.current)] *)
Definition clear_current (s : State) : State :=
  match resizeTimeoutRef s with
  | Some id => with_timers (clearTimeout id (timers s)) s
  | None => s
  end.

(** The body of the effect, run after a render whose dependencies
    changed (and after the cleanup of the previous run). *)
Definition effect (s : State) : State :=
  match previewSrc s with
  | Some src =>
      if string_truthy src && JS.truthy (width (options s))
           && JS.truthy (height (options s))
      then
        let s := clear_current s in
        let id := next_timer_id s in
        {| previewSrc := previewSrc s; options := options s;
           resizedSrc := resizedSrc s;
           isResizing := true;
           resizeTimeoutRef := Some id;
           has_cleanup := true;
           now := now s;
           next_timer_id := S id;
           timers := timers s ++
                     [{| timer_id := id; timer_due := now s + delay;
                         timer_job := {| job_src := src; job_options := options s |} |}];
           inflight := inflight s; started := started s;
           shown_gen := shown_gen s; resolved_gens := resolved_gens s |}
      else with_cleanup false s
  | None => with_cleanup false s
  end.

Definition run_cleanup (s : State) : State :=
  if has_cleanup s then clear_current s else s.

(** [Object.is], which React compares dependencies with: NaN is NaN and
    the two zeros differ. *)
Definition number_is (x y : JS.number) : bool :=
  match x, y with
  | S754_zero a, S754_zero b => Bool.eqb a b
  | S754_infinity a, S754_infinity b => Bool.eqb a b
  | S754_nan, S754_nan => true
  | S754_finite a m e, S754_finite b m' e' =>
      Bool.eqb a b && Pos.eqb m m' && Z.eqb e e'
  | _, _ => false
  end.

Definition format_is (f g : ImageFormat) : bool :=
  match f, g with
  | image_jpeg, image_jpeg | image_png, image_png | image_webp, image_webp => true
  | _, _ => false
  end.

Definition src_is (a b : option string) : bool :=
  match a, b with
  | None, None => true
  | Some x, Some y => String.eqb x y
  | _, _ => false
  end.

(** The dependency list
    [previewSrc, options.width, options.height, options.quality, options.format]. *)
Definition same_deps (src : option string) (o : ResizeOptions)
    (src' : option string) (o' : ResizeOptions) : bool :=
  src_is src src' && number_is (width o) (width o')
  && number_is (height o) (height o') && number_is (quality o) (quality o')
  && format_is (format o) (format o').

(** A state change ([setPreviewSrc], [setOptions]) and the render that
    follows it. *)
Definition render (src' : option string) (options' : ResizeOptions) (s : State)
    : State :=
  let s' :=
    {| previewSrc := src'; options := options'; resizedSrc := resizedSrc s;
       isResizing := isResizing s; resizeTimeoutRef := resizeTimeoutRef s;
       has_cleanup := has_cleanup s; now := now s;
       next_timer_id := next_timer_id s; timers := timers s;
       inflight := inflight s; started := started s;
       shown_gen := shown_gen s; resolved_gens := resolved_gens s |} in
  if same_deps (previewSrc s) (options s) src' options' then s'
  else effect (run_cleanup s').

Definition find_timer (id : nat) (ts : list Timer) : option Timer :=
  find (fun t => Nat.eqb (timer_id t) id) ts.

Definition find_run (gen : nat) (rs : list Run) : option Run :=
  find (fun r => Nat.eqb (run_gen r) gen) rs.

(** The timeout callback up to its [await]: [resizeImage] is called with
    the captured source and options. *)
Definition fire (t : Timer) (s : State) : State :=
  {| previewSrc := previewSrc s; options := options s; resizedSrc := resizedSrc s;
     isResizing := isResizing s; resizeTimeoutRef := resizeTimeoutRef s;
     has_cleanup := has_cleanup s; now := now s; next_timer_id := next_timer_id s;
     timers := clearTimeout (timer_id t) (timers s);
     inflight := inflight s ++
                 [{| run_gen := List.length (started s); run_job := timer_job t |}];
     started := started s ++ [timer_job t];
     shown_gen := shown_gen s; resolved_gens := resolved_gens s |}.

(** The rest of the callback, once the promise has settled:
    [setResizedSrc (result)] on success, [console.error] on failure, and
    [setIsResizing (false)] in both cases. *)
Definition settle (r : Run) (out : Settlement) (s : State) : State :=
  {| previewSrc := previewSrc s; options := options s;
     resizedSrc := match out with Resolved result => Some result | Failed => resizedSrc s end;
     isResizing := false;
     resizeTimeoutRef := resizeTimeoutRef s;
     has_cleanup := has_cleanup s; now := now s; next_timer_id := next_timer_id s;
     timers := timers s;
     inflight := filter (fun r' => negb (Nat.eqb (run_gen r') (run_gen r))) (inflight s);
     started := started s;
     shown_gen := match out with Resolved _ => Some (run_gen r) | Failed => shown_gen s end;
     resolved_gens := match out with
                      | Resolved _ => run_gen r :: resolved_gens s
                      | Failed => resolved_gens s
                      end |}.

Inductive Event :=
  | SetState (src : option string) (options : ResizeOptions)
  | Elapse (dt : Z)
  | TimerFires (id : nat)
  | Settles (gen : nat) (out : Settlement).

(** One event; [None] when the event cannot happen in the state: time
    does not run backwards, a timer runs only once it is due and still
    pending, a promise settles only while in flight. *)
Definition step (s : State) (ev : Event) : option State :=
  match ev with
  | SetState src o => Some (render src o s)
  | Elapse dt =>
      if 0 <=? dt
      then Some {| previewSrc := previewSrc s; options := options s;
                   resizedSrc := resizedSrc s; isResizing := isResizing s;
                   resizeTimeoutRef := resizeTimeoutRef s;
                   has_cleanup := has_cleanup s; now := now s + dt;
                   next_timer_id := next_timer_id s; timers := timers s;
                   inflight := inflight s; started := started s;
                   shown_gen := shown_gen s; resolved_gens := resolved_gens s |}
      else None
  | TimerFires id =>
      match find_timer id (timers s) with
      | Some t => if timer_due t <=? now s then Some (fire t s) else None
      | None => None
      end
  | Settles gen out =>
      match find_run gen (inflight s) with
      | Some r => Some (settle r out s)
      | None => None
      end
  end.

Fixpoint run (s : State) (trace : list Event) : option State :=
  match trace with
  | [] => Some s
  | ev :: rest =>
      match step s ev with
      | Some s' => run s' rest
      | None => None
      end
  end.

(** The component as mounted: no image yet, so the first run of the
    effect returns at its guard. *)
Definition mounted (defaults : ResizeOptions) : State :=
  {| previewSrc := None; options := defaults; resizedSrc := None;
     isResizing := false; resizeTimeoutRef := None; has_cleanup := false;
     now := 0; next_timer_id := 1; timers := []; inflight := []; started := [];
     shown_gen := None; resolved_gens := [] |}.

(** Last-writer-wins by generation: what is shown comes from a run that
    is at least as new as every run that has resolved. *)
Definition shows_latest_generation (s : State) : Prop :=
  forall g, shown_gen s = Some g -> forall g', In g' (resolved_gens s) -> (g' <= g)%nat.

(** The guard of the effect: a loaded preview and a non-zero width and
    height. *)
Definition rasterizable (src : option string) (o : ResizeOptions) : bool :=
  match src with
  | Some x => string_truthy x && JS.truthy (width o) && JS.truthy (height o)
  | None => false
  end.

(** Every pending timer is the one the ref holds, and a pending timer
    means the effect left its cleanup behind. *)
Definition wf (s : State) : Prop :=
  (forall t, In t (timers s) -> resizeTimeoutRef s = Some (timer_id t)) /\
  (timers s <> [] -> has_cleanup s = true).

(** A trace without state changes. *)
Definition quiet (trace : list Event) : Prop :=
  forall ev, In ev trace -> match ev with SetState _ _ => False | _ => True end.

End Scheduler.

(** ** Concrete options and sessions *)

Definition example_src : string := "data:image/png;base64,AAAA".

Definition optsA : ResizeOptions :=
  {| width := JS.of_Z 1000; height := JS.of_Z 500; percentage := JS.of_Z 50;
     mode := mode_pixels; quality := JS.n0_75; format := image_jpeg;
     maintainAspectRatio := true |}.

Definition optsB : ResizeOptions :=
  {| width := JS.of_Z 400; height := JS.of_Z 200; percentage := JS.of_Z 20;
     mode := mode_pixels; quality := JS.n0_75; format := image_jpeg;
     maintainAspectRatio := true |}.

(** Clearing the width field: [parseInt ('') || 0] is 0, and with the lock
    on the height follows. *)
Definition opts_zero : ResizeOptions :=
  editDimension (dims 2000 1000) optsA key_width JS.n0.

(** Run A starts, the options change, run B starts, B resolves first and
    A last. *)
Definition stale_session : list Scheduler.Event :=
  [Scheduler.SetState (Some example_src) optsA;
   Scheduler.Elapse 400;
   Scheduler.TimerFires 1;
   Scheduler.SetState (Some example_src) optsB;
   Scheduler.Elapse 400;
   Scheduler.TimerFires 2;
   Scheduler.Settles 1 (Scheduler.Resolved "data:image/jpeg;base64,BBBB");
   Scheduler.Settles 0 (Scheduler.Resolved "data:image/jpeg;base64,AAAA")].

Definition state_with_run_in_flight : Scheduler.State :=
  {| Scheduler.previewSrc := Some example_src; Scheduler.options := optsB;
     Scheduler.resizedSrc := Some "data:image/jpeg;base64,BBBB"%string;
     Scheduler.isResizing := false;
     Scheduler.resizeTimeoutRef := Some 2%nat; Scheduler.has_cleanup := true;
     Scheduler.now := 800; Scheduler.next_timer_id := 3; Scheduler.timers := [];
     Scheduler.inflight :=
       [{| Scheduler.run_gen := 0;
           Scheduler.run_job :=
             {| Scheduler.job_src := example_src; Scheduler.job_options := optsA |} |}];
     Scheduler.started :=
       [{| Scheduler.job_src := example_src; Scheduler.job_options := optsA |};
        {| Scheduler.job_src := example_src; Scheduler.job_options := optsB |}];
     Scheduler.shown_gen := Some 1%nat; Scheduler.resolved_gens := [1%nat] |}.

(** The state 100 ms after the first change of a freshly mounted
    component. *)
Definition after_first_change : Scheduler.State :=
  Eval vm_compute in
    match Scheduler.run (Scheduler.mounted optsA)
            [Scheduler.SetState (Some example_src) optsA; Scheduler.Elapse 100] with
    | Some s => s
    | None => Scheduler.mounted optsA
    end.

(** ** Positive normal numbers and the location of a fraction *)

(** The location of the fraction [r / d], [0 <= r < d], within the unit
    interval. *)
Definition loc_of (r d : Z) : location :=
  if r =? 0 then loc_Exact else loc_Inexact (2 * r ?= d).

(** The record after [j] right shifts of [mx] followed by the fraction
    [r / d]: the mantissa is [mx / 2^j] and the two bits locate what was
    shifted out. *)
Definition shifted (mx r d j : Z) (mrs : shr_record) : Prop :=
  shr_m mrs = mx / 2 ^ j /\
  loc_of_shr_record mrs = loc_of ((mx mod 2 ^ j) * d + r) (d * 2 ^ j).

Definition normal (m : Z) : Prop := 2 ^ 52 <= m < 2 ^ 53.

(** A normal positive number with mantissa [m] and exponent [e]. *)
Definition Fl (m e : Z) : spec_float := S754_finite false (Z.to_pos m) e.

(** ** States the scheduler can reach *)

(** The states a mounted component can be in. *)
Definition reachable (defaults : ResizeOptions) (s : Scheduler.State) : Prop :=
  exists trace, Scheduler.run (Scheduler.mounted defaults) trace = Some s.

(** A job [resizeImage] can draw: a source and a non-zero width and
    height. *)
Definition job_ok (j : Scheduler.Job) : Prop :=
  Scheduler.rasterizable (Some (Scheduler.job_src j)) (Scheduler.job_options j) = true.

(** What every reachable state satisfies. *)
Definition healthy (s : Scheduler.State) : Prop :=
  Scheduler.wf s /\
  (List.length (Scheduler.timers s) <= 1)%nat /\
  Forall (fun t => job_ok (Scheduler.timer_job t)) (Scheduler.timers s) /\
  Forall (fun r => job_ok (Scheduler.run_job r)) (Scheduler.inflight s) /\
  Forall job_ok (Scheduler.started s) /\
  Forall (fun r => (Scheduler.run_gen r < List.length (Scheduler.started s))%nat)
         (Scheduler.inflight s).


(** The state the stale session ends in. *)
Definition after_stale_session : Scheduler.State :=
  Eval vm_compute in
    match Scheduler.run (Scheduler.mounted optsA) stale_session with
    | Some s => s
    | None => Scheduler.mounted optsA
    end.

(** [optsA] in percentage mode with the lock off. *)
Definition optsA_other_mode : ResizeOptions :=
  {| width := width optsA; height := height optsA; percentage := JS.of_Z 50;
     mode := mode_percentage; quality := quality optsA; format := format optsA;
     maintainAspectRatio := false |}.

(** ** Analysis results ([src/types.ts]) *)

Record AIAnalysisResult := {
  description : string;
  keywords : list string;
  ecoTip : string
}.

(** ** Image analysis service ([analyzeImage])

    The remote model and [JSON.parse] are parameters; each either returns
    or throws. *)

Module Gemini.

(** [\w]: an ASCII letter, a digit or the underscore. *)
Definition is_word_char (c : ascii) : bool :=
  let n := nat_of_ascii c in
  ((48 <=? n) && (n <=? 57) || (65 <=? n) && (n <=? 90)
   || (97 <=? n) && (n <=? 122) || (n =? 95))%nat.

(** The rest of [s] after the literal [p], if [s] starts with it. *)
Fixpoint strip_literal (p s : string) : option string :=
  match p with
  | EmptyString => Some s
  | String a p' =>
      match s with
      | String b s' => if Ascii.eqb a b then strip_literal p' s' else None
      | EmptyString => None
      end
  end.

(** The rest of [s] after its longest run of word characters. *)
Fixpoint skip_word (s : string) : string :=
  match s with
  | String c s' => if is_word_char c then skip_word s' else s
  | EmptyString => s
  end.

(** [base64Data.replace (/^data:image\/\w+;base64,/, '')]: the greedy run
    of word characters cannot give back a character to what follows,
    which starts with a semicolon. *)
Definition strip_data_url_prefix (base64Data : string) : string :=
  match strip_literal "data:image/" base64Data with
  | Some (String c rest) =>
      if is_word_char c
      then match strip_literal ";base64," (skip_word rest) with
           | Some content => content
           | None => base64Data
           end
      else base64Data
  | _ => base64Data
  end.

Inductive Outcome (A : Type) :=
  | returned (value : A)
  | thrown (message : string).
Arguments returned {A} value.
Arguments thrown {A} message.

Record Service := {
  (** [ai.models.generateContent] on a model, a MIME type and inline
      data: what [response.text] is, or the error *)
  generateContent : string -> string -> string -> Outcome (option string);
  (** [JSON.parse (text) as AIAnalysisResult]: the parsed value, taken
      for a result as it is, or the syntax error *)
  JSON_parse : string -> Outcome AIAnalysisResult
}.

Definition model : string := "gemini-2.5-flash".

Definition fallback : AIAnalysisResult :=
  {| description := "Image analysis unavailable.";
     keywords := ["error"; "retry"]%string;
     ecoTip := "Nature takes its time, and sometimes so do servers. Please try again." |}.

(** The body of the [try]. *)
Definition request (service : Service) (base64Data mimeType : string)
    : Outcome AIAnalysisResult :=
  let base64Content := strip_data_url_prefix base64Data in
  match generateContent service model mimeType base64Content with
  | thrown message => thrown message
  | returned text =>
      match text with
      | Some t =>
          if string_truthy t then JSON_parse service t
          else thrown "No response received from Gemini."
      | None => thrown "No response received from Gemini."
      end
  end.

Definition analyzeImage (service : Service) (base64Data mimeType : string)
    : Outcome AIAnalysisResult :=
  match request service base64Data mimeType with
  | returned result => returned result
  | thrown _ => returned fallback
  end.

(** Strings made of word characters only. *)
Fixpoint all_word (s : string) : bool :=
  match s with
  | EmptyString => true
  | String c s' => is_word_char c && all_word s'
  end.

End Gemini.

(** A service that is down, and a parser that accepts nothing. *)
Definition service_down : Gemini.Service :=
  {| Gemini.generateContent := fun _ _ _ => Gemini.thrown "503"%string;
     Gemini.JSON_parse := fun _ => Gemini.thrown "SyntaxError"%string |}.

(** ** Loading and scanning a file ([src/App.tsx], [handleFileChange]
       and [handleEcoScan], with [getImageDimensions] and
       [fileToDataString] of the image utilities)

    What the browser does with a file is a parameter: the natural size of
    the image it decodes to, if it decodes, and the data URL the reader
    produces, if it reads. *)

Module App.

Inductive Page := home | editor | mission | results.

Inductive Tab := tab_resize | tab_ai.

(** A settled promise: the value it resolved with or the event it
    rejected with. *)
Inductive Settled (A : Type) :=
  | resolved (value : A)
  | rejected (event : string).
Arguments resolved {A} value.
Arguments rejected {A} event.

Record FileBrowser := {
  (** [img.width] and [img.height] once the object URL has loaded, or the
      error event *)
  image_load : File -> Settled (JS.number * JS.number);
  (** [reader.result] once the file has been read, or the error event *)
  reader_load : File -> Settled string;
  (** [file.type] *)
  file_type : File -> string
}.

Definition getImageDimensions (browser : FileBrowser) (file : File)
    : Settled ImageDimensions :=
  match image_load browser file with
  | resolved (w, h) => resolved {| dim_width := w; dim_height := h |}
  | rejected event => rejected event
  end.

Definition fileToDataString (browser : FileBrowser) (file : File) : Settled string :=
  match reader_load browser file with
  | resolved result => resolved result
  | rejected event => rejected event
  end.

Record State := {
  currentPage : Page;
  file : option File;
  previewSrc : option string;
  resizedSrc : option string;
  originalDims : ImageDimensions;
  options : ResizeOptions;
  isAnalyzing : bool;
  analysis : option AIAnalysisResult;
  activeTab : Tab
}.

(** [handleFileChange] runs in three stretches, separated by its two
    awaits.  The first, up to [await getImageDimensions]:
    [setFile], [setAnalysis (null)], [setResizedSrc (null)],
    [setActiveTab ('resize')]. *)
Definition file_chosen (f : File) (s : State) : State :=
  {| currentPage := currentPage s; file := Some f;
     previewSrc := previewSrc s; resizedSrc := None;
     originalDims := originalDims s; options := options s;
     isAnalyzing := isAnalyzing s;
     analysis := None; activeTab := tab_resize |}.

(** The second, once the dimensions are there and up to
    [await fileToDataString]: [setOriginalDims] and the [setOptions]
    updater, which runs on the options of the moment. *)
Definition dimensions_known (dims : ImageDimensions) (s : State) : State :=
  {| currentPage := currentPage s; file := file s;
     previewSrc := previewSrc s; resizedSrc := resizedSrc s;
     originalDims := dims;
     options :=
       {| width := dim_width dims; height := dim_height dims;
          percentage := JS.n100;
          mode := mode (options s); quality := quality (options s);
          format := format (options s);
          maintainAspectRatio := maintainAspectRatio (options s) |};
     isAnalyzing := isAnalyzing s;
     analysis := analysis s; activeTab := activeTab s |}.

(** The third, once the file is read: [setPreviewSrc] and
    [navigateTo ('editor')]. *)
Definition preview_read (src : string) (s : State) : State :=
  {| currentPage := editor; file := file s;
     previewSrc := Some src; resizedSrc := resizedSrc s;
     originalDims := originalDims s; options := options s;
     isAnalyzing := isAnalyzing s;
     analysis := analysis s; activeTab := activeTab s |}.

(** The state when the handler ends.  While it awaits, other updates
    reach the state: a resize run that settles, a scan that settles, an
    edit.  What they do to the state during the first and during the
    second await is [meanwhile1] and [meanwhile2].  A rejected await
    jumps to the [catch], which only logs. *)
Definition handleFileChange (browser : FileBrowser) (selectedFile : option File)
    (meanwhile1 meanwhile2 : State -> State) (s : State) : State :=
  match selectedFile with
  | None => s
  | Some f =>
      let s := meanwhile1 (file_chosen f s) in
      match getImageDimensions browser f with
      | rejected _ => s
      | resolved dims =>
          let s := meanwhile2 (dimensions_known dims s) in
          match fileToDataString browser f with
          | rejected _ => s
          | resolved src => preview_read src s
          end
      end
  end.

(** [a || b] on strings that may be [null]. *)
Definition src_or_else (a : option string) (b : string) : string :=
  match a with
  | Some x => if string_truthy x then x else b
  | None => b
  end.

(** [setAnalysis (result)], if any, then [setIsAnalyzing (false)]. *)
Definition set_analysis_done (result : option AIAnalysisResult) (s : State) : State :=
  {| currentPage := currentPage s; file := file s;
     previewSrc := previewSrc s; resizedSrc := resizedSrc s;
     originalDims := originalDims s; options := options s;
     isAnalyzing := false;
     analysis := result; activeTab := activeTab s |}.

(** The state once [handleEcoScan] has run to its end: [isAnalyzing] is
    raised before the call and lowered in the [finally]. *)
Definition handleEcoScan (browser : FileBrowser) (service : Gemini.Service)
    (s : State) : State :=
  match previewSrc s with
  | Some preview =>
      if string_truthy preview
      then
        let srcToAnalyze := src_or_else (resizedSrc s) preview in
        let mimeType :=
          src_or_else (option_map (file_type browser) (file s)) "image/jpeg" in
        match Gemini.analyzeImage service srcToAnalyze mimeType with
        | Gemini.returned result => set_analysis_done (Some result) s
        | Gemini.thrown _ => set_analysis_done (analysis s) s
        end
      else s
  | None => s
  end.

(** The savings figures a render of the state shows. *)
Definition savings (s : State) : SavingsEstimate := estimate (file s) (resizedSrc s).

(** An update that leaves the field [field] of the state alone. *)
Definition keeps {A : Type} (field : State -> A) (update : State -> State) : Prop :=
  forall s, field (update s) = field s.

End App.

(** A browser in which every file is an 800 by 600 PNG image. *)
Definition browser_800_600 : App.FileBrowser :=
  {| App.image_load := fun _ => App.resolved (JS.of_Z 800, JS.of_Z 600);
     App.reader_load := fun _ => App.resolved example_src;
     App.file_type := fun _ => "image/png"%string |}.

(** The application before any file was chosen. *)
Definition app_start (defaults : ResizeOptions) : App.State :=
  {| App.currentPage := App.home; App.file := None; App.previewSrc := None;
     App.resizedSrc := None;
     App.originalDims := {| dim_width := JS.n0; dim_height := JS.n0 |};
     App.options := defaults; App.isAnalyzing := false; App.analysis := None;
     App.activeTab := App.tab_resize |}.

(** A file in the editor, not analysed yet. *)
Definition state_with_preview : App.State :=
  {| App.currentPage := App.editor; App.file := Some {| size := JS.of_Z 10000 |};
     App.previewSrc := Some example_src; App.resizedSrc := None;
     App.originalDims := dims 800 600; App.options := optsA;
     App.isAnalyzing := false; App.analysis := None;
     App.activeTab := App.tab_ai |}.

(** The resize scheduler once [example_src] at [optsA] has been resized
    and displayed. *)
Definition scheduler_after_first_image : Scheduler.State :=
  Eval vm_compute in
    match Scheduler.run (Scheduler.mounted optsA)
            [Scheduler.SetState (Some example_src) optsA;
             Scheduler.Elapse 400;
             Scheduler.TimerFires 1;
             Scheduler.Settles 0 (Scheduler.Resolved example_src)] with
    | Some s => s
    | None => Scheduler.mounted optsA
    end.

(** ** The resolver formulas in the words of the specification

    [round (newValue * otherOriginal / thisOriginal)] and
    [round (original * percentage / 100)], read from left to right as
    JavaScript does: the product first, then the quotient.  The handlers
    divide first and multiply by the rounded quotient. *)

Definition spec_locked_axis (newValue otherOriginal thisOriginal : JS.number)
    : JS.number :=
  JS.Math_round (JS.div (JS.mul newValue otherOriginal) thisOriginal).

Definition spec_scaled_axis (original percentage : JS.number) : JS.number :=
  JS.Math_round (JS.div (JS.mul original percentage) JS.n100).

(** * Properties *)

(** ** Comparisons of numbers *)

Lemma compare_cont_flip (p q : positive) :
  PosDef.Pos.compare_cont Eq q p = CompOpp (PosDef.Pos.compare_cont Eq p q).
Proof. symmetry. exact (Pos.compare_cont_antisym p q Eq). Qed.

Lemma SFcompare_antisym (x y : JS.number) (c : comparison) :
  SFcompare x y = Some c -> SFcompare y x = Some (CompOpp c).
Proof.
  destruct x as [sx|sx| |sx mx ex], y as [sy|sy| |sy my ey]; simpl;
    try discriminate;
    try (intros H; injection H as <-;
         repeat match goal with b : bool |- _ => destruct b end; reflexivity).
  intros H; injection H as <-.
  destruct sx, sy; try reflexivity;
    rewrite (Z.compare_antisym ex ey); destruct (ex ?= ey); simpl; try reflexivity;
    rewrite (compare_cont_flip mx my); reflexivity.
Qed.

Lemma SFcompare_defined (x y : JS.number) :
  JS.is_nan x = false -> JS.is_nan y = false -> exists c, SFcompare x y = Some c.
Proof.
  destruct x, y; simpl; try discriminate; intros _ _; eexists; reflexivity.
Qed.

Lemma not_lt_le (x y : JS.number) :
  JS.is_nan x = false -> JS.is_nan y = false ->
  JS.lt x y = false -> JS.le y x = true.
Proof.
  intros Hx Hy. unfold JS.lt, JS.le, SFltb, SFleb.
  destruct (SFcompare_defined x y Hx Hy) as [c Hc].
  rewrite Hc, (SFcompare_antisym _ _ _ Hc).
  destruct c; simpl; congruence.
Qed.

Lemma le_not_lt (x y : JS.number) : JS.le x y = true -> JS.lt y x = false.
Proof.
  unfold JS.lt, JS.le, SFltb, SFleb.
  destruct (SFcompare x y) as [c|] eqn:Hc; [|discriminate].
  rewrite (SFcompare_antisym _ _ _ Hc). destruct c; simpl; congruence.
Qed.

Lemma le_is_nan_r (x y : JS.number) : JS.le x y = true -> JS.is_nan y = false.
Proof. destruct x, y; simpl; try reflexivity; discriminate. Qed.

(** A number that is at least zero and is not zero is above zero. *)
Lemma nonneg_nonzero_gt (x : JS.number) :
  JS.le JS.n0 x = true -> JS.eqb x JS.n0 = false -> JS.gt x JS.n0 = true.
Proof.
  destruct x as [s|s| |s m e]; simpl; try discriminate;
    destruct s; simpl; try discriminate; reflexivity.
Qed.

(** ** The dimension-edit operation *)

Section DimensionEdit.

Variable originalDims : ImageDimensions.
Variable options : ResizeOptions.

Let oW := dim_width originalDims.
Let oH := dim_height originalDims.

Lemma editDimension_negative key value :
  JS.lt value JS.n0 = true ->
  editDimension originalDims options key value = options.
Proof.
  intros H. unfold editDimension, updateDimensions. rewrite H. reflexivity.
Qed.

Lemma editDimension_width_locked value :
  JS.lt value JS.n0 = false ->
  maintainAspectRatio options = true -> JS.gt oW JS.n0 = true ->
  editDimension originalDims options key_width value =
  {| width := value;
     height := JS.Math_round (JS.mul value (JS.div oH oW));
     percentage := percentage_of originalDims value;
     mode := mode options; quality := quality options; format := format options;
     maintainAspectRatio := maintainAspectRatio options |}.
Proof.
  intros Hv Hl Hw. destruct options; cbn [maintainAspectRatio] in Hl; subst.
  unfold editDimension, updateDimensions.
  rewrite Hv. fold oW. rewrite Hw. reflexivity.
Qed.

Lemma editDimension_height_locked value :
  JS.lt value JS.n0 = false ->
  maintainAspectRatio options = true -> JS.gt oH JS.n0 = true ->
  editDimension originalDims options key_height value =
  {| width := JS.Math_round (JS.mul value (JS.div oW oH));
     height := value;
     percentage := percentage_of originalDims (JS.Math_round (JS.mul value (JS.div oW oH)));
     mode := mode options; quality := quality options; format := format options;
     maintainAspectRatio := maintainAspectRatio options |}.
Proof.
  intros Hv Hl Hh. destruct options; cbn [maintainAspectRatio] in Hl; subst.
  unfold editDimension, updateDimensions.
  rewrite Hv. fold oH. rewrite Hh. reflexivity.
Qed.

Lemma editDimension_width_free value :
  JS.lt value JS.n0 = false ->
  maintainAspectRatio options && JS.gt oW JS.n0 = false ->
  editDimension originalDims options key_width value =
  {| width := value;
     height := height options;
     percentage := percentage_of originalDims value;
     mode := mode options; quality := quality options; format := format options;
     maintainAspectRatio := maintainAspectRatio options |}.
Proof.
  intros Hv Hl. unfold editDimension, updateDimensions.
  rewrite Hv. fold oW. rewrite Hl. reflexivity.
Qed.

Lemma editDimension_height_free value :
  JS.lt value JS.n0 = false ->
  maintainAspectRatio options && JS.gt oH JS.n0 = false ->
  editDimension originalDims options key_height value =
  {| width := width options;
     height := value;
     percentage := percentage_of originalDims (width options);
     mode := mode options; quality := quality options; format := format options;
     maintainAspectRatio := maintainAspectRatio options |}.
Proof.
  intros Hv Hl. unfold editDimension, updateDimensions.
  rewrite Hv. fold oH. rewrite Hl. reflexivity.
Qed.

End DimensionEdit.

(** C2, evaluated on the code.  With an original width of zero (the state
    before any image has been decoded) a width edit to 5 divides 5 by 0;
    [Math.round (Infinity * 100)] is [Infinity], which is truthy, so the
    [|| 0] guard lets it through and the stored percentage is [Infinity]. *)
Theorem percentage_infinite_on_zero_width (options : ResizeOptions) :
  percentage (editDimension (dims 0 0) options key_width (JS.of_Z 5)) = JS.Infinity.
Proof.
  rewrite editDimension_width_free; [reflexivity | reflexivity |].
  apply andb_false_r.
Qed.

(** What the guard does catch: a zero width over a zero original width is
    [0 / 0 = NaN], which is falsy, and the percentage is 0. *)
Lemma percentage_zero_on_zero_over_zero (options : ResizeOptions) :
  percentage (editDimension (dims 0 0) options key_width JS.n0) = JS.n0.
Proof.
  rewrite editDimension_width_free; [reflexivity | reflexivity |].
  apply andb_false_r.
Qed.

(** ** The percentage-edit operation *)

Lemma lt_1_not_gt_500 (x : JS.number) :
  JS.lt x JS.n1 = true -> JS.gt x JS.n500 = false.
Proof.
  destruct x as [s|s| |s m e]; try (destruct s; reflexivity || discriminate);
    try reflexivity.
  unfold JS.lt, JS.gt, SFltb, JS.n1, JS.n500, SFcompare.
  destruct s; [reflexivity|].
  destruct (Z.compare_spec e (-52)); destruct (Z.compare_spec (-44) e);
    try reflexivity; try discriminate; lia.
Qed.

(** ** The mode field *)

(** C10. On two options records that differ in [mode] only, a dimension
    edit and a percentage edit resolve the same width, height and
    percentage. *)
Theorem mode_has_no_influence (originalDims : ImageDimensions)
    (o1 o2 : ResizeOptions) (key : DimKey) (value : JS.number) :
  same_but_mode o1 o2 ->
  (width (editDimension originalDims o1 key value) =
     width (editDimension originalDims o2 key value) /\
   height (editDimension originalDims o1 key value) =
     height (editDimension originalDims o2 key value) /\
   percentage (editDimension originalDims o1 key value) =
     percentage (editDimension originalDims o2 key value)) /\
  (width (editPercentage originalDims o1 value) =
     width (editPercentage originalDims o2 value) /\
   height (editPercentage originalDims o1 value) =
     height (editPercentage originalDims o2 value) /\
   percentage (editPercentage originalDims o1 value) =
     percentage (editPercentage originalDims o2 value)).
Proof.
  intros (Hw & Hh & Hp & Hq & Hf & Hl).
  destruct o1, o2; cbn [width height percentage quality format maintainAspectRatio] in *.
  subst. split; [|repeat split].
  unfold editDimension, updateDimensions;
    cbn [width height percentage maintainAspectRatio].
  destruct (JS.lt value JS.n0); [repeat split|].
  destruct key;
    match goal with |- context [if ?b then _ else _] => destruct b end;
    repeat split.
Qed.

Lemma mode_has_no_influence_witness :
  width (editDimension (dims 2000 1000)
     {| width := JS.of_Z 2000; height := JS.of_Z 1000; percentage := JS.n100;
        mode := mode_pixels; quality := JS.n0_75; format := image_jpeg;
        maintainAspectRatio := true |} key_width (JS.of_Z 1000)) =
  width (editDimension (dims 2000 1000)
     {| width := JS.of_Z 2000; height := JS.of_Z 1000; percentage := JS.n100;
        mode := mode_percentage; quality := JS.n0_75; format := image_jpeg;
        maintainAspectRatio := true |} key_width (JS.of_Z 1000)).
Proof.
  apply (mode_has_no_influence (dims 2000 1000)
     {| width := JS.of_Z 2000; height := JS.of_Z 1000; percentage := JS.n100;
        mode := mode_pixels; quality := JS.n0_75; format := image_jpeg;
        maintainAspectRatio := true |}
     {| width := JS.of_Z 2000; height := JS.of_Z 1000; percentage := JS.n100;
        mode := mode_percentage; quality := JS.n0_75; format := image_jpeg;
        maintainAspectRatio := true |} key_width (JS.of_Z 1000)).
  repeat split.
Defined.

(** ** Results of the float operations are numbers

    Rounding a non-negative mantissa never produces NaN; this is what the
    savings figures need from subtraction and multiplication. *)

Lemma iter_pos_invariant {A : Type} (P : A -> Prop) (f : A -> A) :
  (forall x, P x -> P (f x)) -> forall p x, P x -> P (iter_pos f p x).
Proof.
  intros Hf. induction p as [p IH|p IH|]; intros x Hx; simpl; auto.
Qed.

Lemma shr_1_nonneg (mrs : shr_record) : 0 <= shr_m mrs -> 0 <= shr_m (shr_1 mrs).
Proof.
  destruct mrs as [m r s]. simpl.
  destruct m as [|[p|p|]|[p|p|]]; simpl; lia.
Qed.

Lemma shr_nonneg (mrs : shr_record) (e n : Z) :
  0 <= shr_m mrs -> 0 <= shr_m (fst (shr mrs e n)).
Proof.
  intros H. destruct n as [|p|p]; simpl; auto.
  apply (iter_pos_invariant (fun x => 0 <= shr_m x)); auto using shr_1_nonneg.
Qed.

Lemma shr_fexp_nonneg (m e : Z) (l : location) :
  0 <= m -> 0 <= shr_m (fst (shr_fexp JS.prec JS.emax m e l)).
Proof.
  intros H. unfold shr_fexp. apply shr_nonneg.
  destruct l as [|[ | | ]]; exact H.
Qed.

Lemma round_nearest_even_nonneg (m : Z) (l : location) :
  0 <= m -> 0 <= round_nearest_even m l.
Proof.
  intros H. destruct l as [|[ | | ]]; simpl; try lia.
  destruct (Z.even m); lia.
Qed.

Lemma binary_round_aux_is_number (s : bool) (m e : Z) (l : location) :
  0 <= m -> JS.is_nan (binary_round_aux JS.prec JS.emax s m e l) = false.
Proof.
  intros H. unfold binary_round_aux.
  pose proof (shr_fexp_nonneg m e l H) as H1.
  destruct (shr_fexp JS.prec JS.emax m e l) as [mrs' e'].
  cbn [fst] in H1.
  pose proof (shr_fexp_nonneg _ e' loc_Exact
                (round_nearest_even_nonneg _ (loc_of_shr_record mrs') H1)) as H2.
  destruct (shr_fexp JS.prec JS.emax _ e' loc_Exact) as [mrs'' e''].
  cbn [fst] in H2.
  destruct (shr_m mrs'') as [|p|p]; try reflexivity; try lia.
  destruct (e'' <=? JS.emax - JS.prec); reflexivity.
Qed.

Lemma binary_normalize_is_number (m e : Z) (sz : bool) :
  JS.is_nan (binary_normalize JS.prec JS.emax m e sz) = false.
Proof.
  destruct m as [|p|p]; [reflexivity| |]; simpl; unfold binary_round;
    match goal with |- context [shl_align ?a ?b ?c] => destruct (shl_align a b c) end;
    apply binary_round_aux_is_number; lia.
Qed.

Lemma of_Z_is_number (z : Z) : JS.is_nan (JS.of_Z z) = false.
Proof. apply binary_normalize_is_number. Qed.

(** Subtracting a finite number from a number, or a number from a finite
    one, gives a number. *)
Lemma sub_is_number (x y : JS.number) :
  JS.is_nan x = false -> JS.is_nan y = false ->
  JS.is_finite x = true \/ JS.is_finite y = true ->
  JS.is_nan (JS.sub x y) = false.
Proof.
  destruct x as [sx|sx| |sx mx ex], y as [sy|sy| |sy my ey]; simpl;
    try discriminate; intros _ _ H;
    try (destruct H; discriminate);
    try (destruct sx, sy; reflexivity); try reflexivity.
  apply binary_normalize_is_number.
Qed.

(** Multiplying a number by a finite non-zero one gives a number. *)
Lemma mul_finite_is_number (x : JS.number) (s : bool) (m : positive) (e : Z) :
  JS.is_nan x = false -> JS.is_nan (JS.mul x (S754_finite s m e)) = false.
Proof.
  destruct x as [sx|sx| |sx mx ex]; simpl; try discriminate; intros _;
    try reflexivity.
  apply binary_round_aux_is_number. lia.
Qed.

Lemma Math_round_is_number (x : JS.number) :
  JS.is_nan x = false -> JS.is_nan (JS.Math_round x) = false.
Proof.
  destruct x as [s|s| |s m e]; try discriminate; intros _; try reflexivity.
  unfold JS.Math_round.
  destruct (0 <=? e); [reflexivity|].
  set (n := (2 * cond_Zopp s (Z.pos m) + 2 ^ (- e)) / 2 ^ (- e + 1)).
  destruct n; try reflexivity; apply of_Z_is_number.
Qed.

(** [Math.max (0, x)] is at least zero for every number [x]. *)
Lemma Math_max_0_nonneg (x : JS.number) :
  JS.is_nan x = false -> JS.le JS.n0 (JS.Math_max JS.n0 x) = true.
Proof.
  destruct x as [s|s| |s m e]; try discriminate; intros _;
    destruct s; reflexivity.
Qed.

(** ** The savings estimator *)

Lemma newSizeEstimate_is_number (payload : string) (orig : JS.number) :
  JS.is_nan orig = false ->
  JS.is_nan (newSizeEstimate (Some payload) orig) = false.
Proof.
  intros H. unfold newSizeEstimate.
  destruct (string_truthy payload); [|exact H].
  apply Math_round_is_number. unfold JS.n0_75.
  apply mul_finite_is_number.
  apply sub_is_number; [apply of_Z_is_number | reflexivity | right; reflexivity].
Qed.

(** C7. For a finite original size that is at least zero and a non-empty
    payload (an encoded payload is a data URL; the empty string is no
    payload to the render), the estimate is
    [Math.round ((length - 22) * 0.75)], the saved bytes are
    [Math.max (0, original - estimate)], hence at least zero, and the CO2
    figure is [saved / (1024 * 1024) * 0.35]. *)
Theorem savings_estimate_figures (file : option File) (payload : string) :
  JS.le JS.n0 (originalSize file) = true ->
  JS.is_finite (originalSize file) = true ->
  payload <> EmptyString ->
  let e := estimate file (Some payload) in
  estimatedNewBytes e =
    JS.Math_round (JS.mul (JS.sub (string_length payload) JS.n22) JS.n0_75) /\
  est_savedBytes e =
    JS.Math_max JS.n0 (JS.sub (originalSize file) (estimatedNewBytes e)) /\
  JS.le JS.n0 (est_savedBytes e) = true /\
  savedCO2Grams e =
    JS.mul (JS.div (est_savedBytes e) (JS.mul JS.n1024 JS.n1024)) JS.n0_35.
Proof.
  intros Hpos Hfin Hne e. subst e.
  unfold estimate; cbn [estimatedNewBytes est_savedBytes savedCO2Grams].
  assert (Ht : string_truthy payload = true)
    by (destruct payload; [now elim Hne | reflexivity]).
  split; [unfold newSizeEstimate; now rewrite Ht|].
  split; [reflexivity|].
  split; [|reflexivity].
  apply Math_max_0_nonneg, sub_is_number.
  - exact (le_is_nan_r _ _ Hpos).
  - apply newSizeEstimate_is_number. exact (le_is_nan_r _ _ Hpos).
  - left. exact Hfin.
Qed.

(** A payload of 27 characters against a file of 10000 bytes: the
    estimate is [Math.round (5 * 0.75) = 4] and 9996 bytes are saved. *)
Lemma savings_estimate_figures_witness :
  estimatedNewBytes
    (estimate (Some {| size := JS.of_Z 10000 |})
              (Some "data:image/jpeg;base64,AAAA"%string)) = JS.of_Z 4 /\
  est_savedBytes
    (estimate (Some {| size := JS.of_Z 10000 |})
              (Some "data:image/jpeg;base64,AAAA"%string)) = JS.of_Z 9996.
Proof.
  destruct (savings_estimate_figures (Some {| size := JS.of_Z 10000 |})
              "data:image/jpeg;base64,AAAA"%string)
    as (H1 & H2 & _); [reflexivity | reflexivity | discriminate |].
  split; [rewrite H1 | rewrite H2]; reflexivity.
Defined.

(** C8, evaluated on the code.  [sizePercent] has no guard: with no file,
    or a file of zero bytes, and no payload it is
    [Math.round (0 / 0 * 100) = NaN]; with a zero-byte original and a
    payload it is [Infinity]. *)
Theorem sizePercent_not_finite :
  percentOfOriginal (estimate None None) = JS.NaN /\
  percentOfOriginal (estimate (Some {| size := JS.n0 |}) None) = JS.NaN /\
  percentOfOriginal
    (estimate (Some {| size := JS.n0 |})
              (Some "data:image/jpeg;base64,AAAA"%string)) = JS.Infinity.
Proof. repeat split. Qed.

(** With a positive original size the figure is the rounded percentage. *)
Lemma sizePercent_formula (file : option File) (resizedSrc : option string) :
  percentOfOriginal (estimate file resizedSrc) =
  JS.Math_round
    (JS.mul (JS.div (estimatedNewBytes (estimate file resizedSrc)) (originalSize file))
            JS.n100).
Proof. reflexivity. Qed.

(** ** The rasterization promise *)

(** [resizeImage] by cases on what the browser does. *)
Lemma resizeImage_cases (browser : Raster.Browser) (sourceUrl : string)
    (options : ResizeOptions) :
  Raster.resizeImage browser sourceUrl options =
  match Raster.decode browser sourceUrl with
  | Raster.load =>
      if Raster.getContext_2d browser (Raster.sized_canvas options)
      then
        match Raster.draw browser (Raster.ready_canvas options)
                (Raster.draw_call sourceUrl options) with
        | Raster.normal _ =>
            match Raster.toDataURL browser (Raster.drawn_canvas sourceUrl options)
                    (format options) (quality options) with
            | Raster.normal dataUrl => Raster.Fulfilled dataUrl
            | Raster.throws _ => Raster.Pending
            end
        | Raster.throws _ => Raster.Pending
        end
      else Raster.Rejected (Raster.JsError "Could not get canvas context")
  | Raster.error event => Raster.Rejected (Raster.ErrorEvent event)
  end.
Proof.
  unfold Raster.resizeImage, Raster.onload, Raster.onerror.
  destruct (Raster.decode browser sourceUrl); [|reflexivity].
  fold (Raster.sized_canvas options).
  destruct (Raster.getContext_2d browser (Raster.sized_canvas options)); reflexivity.
Qed.

(** C9, evaluated on the code.  When the source decodes and a context is
    there but [drawImage] or [toDataURL] throws inside [img.onload], the
    exception leaves the handler and nothing settles the promise: it is
    neither resolved nor rejected, it stays pending. *)
Theorem resizeImage_pending_when_onload_throws (browser : Raster.Browser)
    (sourceUrl : string) (options : ResizeOptions) (exception : string) :
  Raster.decode browser sourceUrl = Raster.load ->
  Raster.getContext_2d browser (Raster.sized_canvas options) = true ->
  Raster.draw browser (Raster.ready_canvas options)
    (Raster.draw_call sourceUrl options) = Raster.throws exception \/
  (Raster.draw browser (Raster.ready_canvas options)
     (Raster.draw_call sourceUrl options) = Raster.normal tt /\
   Raster.toDataURL browser (Raster.drawn_canvas sourceUrl options)
     (format options) (quality options) = Raster.throws exception) ->
  Raster.resizeImage browser sourceUrl options = Raster.Pending.
Proof.
  intros Hd Hc Ht. rewrite resizeImage_cases, Hd, Hc.
  destruct Ht as [-> | [-> ->]]; reflexivity.
Qed.

Lemma resizeImage_pending_when_onload_throws_witness :
  Raster.resizeImage browser_tainting "https://other.example/photo.png" optsA
    = Raster.Pending.
Proof.
  apply (resizeImage_pending_when_onload_throws browser_tainting
           "https://other.example/photo.png" optsA "SecurityError").
  - reflexivity.
  - reflexivity.
  - right. split; reflexivity.
Defined.

(** X24.  What [resizeImage] does settle.  Without a 2d context it
    rejects with the error "Could not get canvas context"; when the
    source does not decode it rejects with the error event; it is
    fulfilled only with what [toDataURL] returned for the fully drawn
    canvas, after the decode, the context and the draw all succeeded; and
    it stays pending exactly when the load handler threw. *)
Theorem resizeImage_rejects_or_encodes (browser : Raster.Browser)
    (sourceUrl : string) (options : ResizeOptions) :
  (Raster.decode browser sourceUrl = Raster.load ->
   Raster.getContext_2d browser (Raster.sized_canvas options) = false ->
   Raster.resizeImage browser sourceUrl options =
     Raster.Rejected (Raster.JsError "Could not get canvas context")) /\
  (forall event, Raster.decode browser sourceUrl = Raster.error event ->
   Raster.resizeImage browser sourceUrl options =
     Raster.Rejected (Raster.ErrorEvent event)) /\
  (forall value,
     Raster.resizeImage browser sourceUrl options = Raster.Fulfilled value <->
     Raster.decode browser sourceUrl = Raster.load /\
     Raster.getContext_2d browser (Raster.sized_canvas options) = true /\
     Raster.draw browser (Raster.ready_canvas options)
       (Raster.draw_call sourceUrl options) = Raster.normal tt /\
     Raster.toDataURL browser (Raster.drawn_canvas sourceUrl options)
       (format options) (quality options) = Raster.normal value) /\
  (Raster.resizeImage browser sourceUrl options = Raster.Pending <->
     Raster.decode browser sourceUrl = Raster.load /\
     Raster.getContext_2d browser (Raster.sized_canvas options) = true /\
     exists exception,
       Raster.draw browser (Raster.ready_canvas options)
         (Raster.draw_call sourceUrl options) = Raster.throws exception \/
       Raster.toDataURL browser (Raster.drawn_canvas sourceUrl options)
         (format options) (quality options) = Raster.throws exception).
Proof.
  rewrite resizeImage_cases.
  destruct (Raster.decode browser sourceUrl) as [|event];
    [destruct (Raster.getContext_2d browser (Raster.sized_canvas options));
     [destruct (Raster.draw browser (Raster.ready_canvas options)
                  (Raster.draw_call sourceUrl options)) as [[]|exn];
      [destruct (Raster.toDataURL browser (Raster.drawn_canvas sourceUrl options)
                   (format options) (quality options)) as [url|exn]|]|]|].
  all: repeat split; try discriminate; try congruence; intros.
  all: try (match goal with
            | H : _ /\ _ |- _ => decompose [and ex or] H; clear H
            end; try discriminate; try congruence).
  all: try (eexists; first [left; reflexivity | right; reflexivity]).
Qed.

Lemma resizeImage_rejects_or_encodes_witness :
  Raster.resizeImage browser_without_context example_src optsA =
    Raster.Rejected (Raster.JsError "Could not get canvas context").
Proof.
  apply (resizeImage_rejects_or_encodes browser_without_context example_src optsA);
    reflexivity.
Defined.

(** ** Invariants and traces of the scheduler *)

Section SchedulerFacts.

Import Scheduler.

Lemma clearTimeout_all (id : nat) (ts : list Timer) :
  (forall t, In t ts -> Some id = Some (timer_id t)) -> clearTimeout id ts = [].
Proof.
  induction ts as [|t ts IH]; intros H; [reflexivity|].
  simpl. assert (E : Some id = Some (timer_id t)) by (apply H; now left).
  injection E as ->. rewrite Nat.eqb_refl. simpl.
  apply IH. intros t' Ht'. apply H. now right.
Qed.

Lemma clear_current_timers (s : State) :
  (forall t, In t (timers s) -> resizeTimeoutRef s = Some (timer_id t)) ->
  timers (clear_current s) = [].
Proof.
  intros H. unfold clear_current.
  destruct (resizeTimeoutRef s) as [id|] eqn:E.
  - cbn [with_timers timers]. now apply clearTimeout_all.
  - destruct (timers s) as [|t ts]; [reflexivity|].
    specialize (H t (or_introl eq_refl)). discriminate.
Qed.

Lemma run_cleanup_timers (s : State) : wf s -> timers (run_cleanup s) = [].
Proof.
  intros [H1 H2]. unfold run_cleanup.
  destruct (has_cleanup s) eqn:E.
  - now apply clear_current_timers.
  - destruct (timers s) as [|t ts]; [reflexivity|].
    assert (false = true) by (apply H2; discriminate). discriminate.
Qed.

Lemma clear_current_keeps (s : State) :
  previewSrc (clear_current s) = previewSrc s /\
  options (clear_current s) = options s /\
  now (clear_current s) = now s /\
  next_timer_id (clear_current s) = next_timer_id s /\
  started (clear_current s) = started s /\
  inflight (clear_current s) = inflight s /\
  resizedSrc (clear_current s) = resizedSrc s.
Proof.
  unfold clear_current. destruct (resizeTimeoutRef s); repeat split.
Qed.

Lemma run_cleanup_keeps (s : State) :
  previewSrc (run_cleanup s) = previewSrc s /\
  options (run_cleanup s) = options s /\
  now (run_cleanup s) = now s /\
  next_timer_id (run_cleanup s) = next_timer_id s /\
  started (run_cleanup s) = started s /\
  inflight (run_cleanup s) = inflight s /\
  resizedSrc (run_cleanup s) = resizedSrc s.
Proof.
  unfold run_cleanup. destruct (has_cleanup s);
    [apply clear_current_keeps | repeat split].
Qed.

Lemma clearTimeout_incl (id : nat) (ts : list Timer) (t : Timer) :
  In t (clearTimeout id ts) -> In t ts.
Proof. unfold clearTimeout. intros H. apply filter_In in H. tauto. Qed.

(** What a render with changed dependencies leaves in the timer table. *)
Lemma render_changed (s : State) (src : option string) (o : ResizeOptions) :
  wf s -> same_deps (previewSrc s) (options s) src o = false ->
  let s' := render src o s in
  previewSrc s' = src /\ options s' = o /\ now s' = now s /\
  started s' = started s /\ inflight s' = inflight s /\
  resizedSrc s' = resizedSrc s /\
  (rasterizable src o = true ->
     exists x, src = Some x /\
     timers s' = [{| timer_id := next_timer_id s; timer_due := now s + delay;
                     timer_job := {| job_src := x; job_options := o |} |}] /\
     resizeTimeoutRef s' = Some (next_timer_id s) /\ has_cleanup s' = true) /\
  (rasterizable src o = false -> timers s' = []).
Proof.
  intros Hwf Hdeps s'. subst s'. unfold render. rewrite Hdeps.
  set (s1 := {| previewSrc := src; options := o; resizedSrc := resizedSrc s;
                isResizing := isResizing s; resizeTimeoutRef := resizeTimeoutRef s;
                has_cleanup := has_cleanup s; now := now s;
                next_timer_id := next_timer_id s; timers := timers s;
                inflight := inflight s; started := started s;
                shown_gen := shown_gen s; resolved_gens := resolved_gens s |}).
  assert (Hwf1 : wf s1) by exact Hwf.
  pose proof (run_cleanup_timers s1 Hwf1) as Ht.
  destruct (run_cleanup_keeps s1) as (Kp & Ko & Kn & Ki & Ks & Kf & Kr).
  set (s2 := run_cleanup s1) in *.
  change (previewSrc s1) with src in Kp. change (options s1) with o in Ko.
  change (now s1) with (now s) in Kn.
  change (next_timer_id s1) with (next_timer_id s) in Ki.
  change (started s1) with (started s) in Ks.
  change (inflight s1) with (inflight s) in Kf.
  change (resizedSrc s1) with (resizedSrc s) in Kr.
  assert (Hc : timers (clear_current s2) = []).
  { unfold clear_current. destruct (resizeTimeoutRef s2); [|exact Ht].
    cbn [with_timers timers]. rewrite Ht. reflexivity. }
  destruct (clear_current_keeps s2) as (Cp & Co & Cn & Ci & Cs & Cf & Cr).
  unfold effect. rewrite Kp, Ko.
  destruct src as [x|]; cbn [rasterizable].
  - destruct (string_truthy x && JS.truthy (width o) && JS.truthy (height o)).
    + cbn [previewSrc options now started inflight resizedSrc timers
           resizeTimeoutRef has_cleanup].
      rewrite Cp, Co, Cn, Ci, Cs, Cf, Cr, Hc, Kp, Ko, Kn, Ki, Ks, Kf, Kr.
      repeat split; try discriminate.
      intros _. exists x. repeat split.
    + cbn [with_cleanup previewSrc options now started inflight resizedSrc timers].
      repeat split; auto; discriminate.
  - cbn [with_cleanup previewSrc options now started inflight resizedSrc timers].
    repeat split; auto; discriminate.
Qed.

Lemma wf_render (s : State) (src : option string) (o : ResizeOptions) :
  wf s -> wf (render src o s).
Proof.
  intros Hwf.
  destruct (same_deps (previewSrc s) (options s) src o) eqn:Hd.
  - unfold render. rewrite Hd. exact Hwf.
  - destruct (render_changed s src o Hwf Hd) as (_ & _ & _ & _ & _ & _ & Hy & Hn).
    destruct (rasterizable src o).
    + destruct (Hy eq_refl) as (x & _ & Ht & Hr & Hc).
      split; rewrite Ht; [|auto].
      intros t [<-|[]]. exact Hr.
    + split; rewrite (Hn eq_refl); [intros t []|congruence].
Qed.

Lemma wf_step (s s' : State) (ev : Event) :
  wf s -> step s ev = Some s' -> wf s'.
Proof.
  intros Hwf. destruct ev as [src o|dt|id|gen out]; simpl.
  - intros E; injection E as <-. now apply wf_render.
  - destruct (0 <=? dt); [|discriminate]. intros E; injection E as <-. exact Hwf.
  - destruct (find_timer id (timers s)) as [t|]; [|discriminate].
    destruct (timer_due t <=? now s); [|discriminate].
    intros E; injection E as <-. destruct Hwf as [H1 H2].
    split; cbn [fire timers resizeTimeoutRef has_cleanup].
    + intros t' Ht'. apply H1. now apply clearTimeout_incl in Ht'.
    + intros Hne. apply H2. intros Hnil. apply Hne. now rewrite Hnil.
  - destruct (find_run gen (inflight s)) as [r|]; [|discriminate].
    intros E; injection E as <-. exact Hwf.
Qed.

Lemma wf_run (trace : list Event) (s s' : State) :
  wf s -> run s trace = Some s' -> wf s'.
Proof.
  revert s. induction trace as [|ev rest IH]; intros s Hwf; simpl.
  - intros E; injection E as <-. exact Hwf.
  - destruct (step s ev) as [s1|] eqn:E; [|discriminate].
    apply IH. exact (wf_step _ _ _ Hwf E).
Qed.

Lemma wf_mounted (defaults : ResizeOptions) : wf (mounted defaults).
Proof. split; [intros t []|intros H; now elim H]. Qed.

Lemma step_now_mono (s s' : State) (ev : Event) :
  step s ev = Some s' -> now s <= now s'.
Proof.
  destruct ev as [src o|dt|id|gen out]; simpl.
  - intros E; injection E as <-. unfold render.
    destruct (same_deps _ _ _ _); [simpl; lia|].
    unfold effect.
    match goal with |- context [run_cleanup ?x] =>
      destruct (run_cleanup_keeps x) as (Kp & _ & Kn & _);
      destruct (clear_current_keeps (run_cleanup x)) as (_ & _ & Cn & _)
    end.
    cbn [previewSrc now] in Kp, Kn.
    destruct (previewSrc (run_cleanup _)) as [x|];
      [destruct (_ && _)|]; cbn [with_cleanup now]; lia.
  - destruct (0 <=? dt) eqn:Hd; [|discriminate]. intros E; injection E as <-.
    simpl. lia.
  - destruct (find_timer id (timers s)) as [t|]; [|discriminate].
    destruct (timer_due t <=? now s); [|discriminate].
    intros E; injection E as <-. simpl. lia.
  - destruct (find_run gen (inflight s)) as [r|]; [|discriminate].
    intros E; injection E as <-. simpl. lia.
Qed.

Lemma run_now_mono (trace : list Event) (s s' : State) :
  run s trace = Some s' -> now s <= now s'.
Proof.
  revert s. induction trace as [|ev rest IH]; intros s; simpl.
  - intros E; injection E as <-. lia.
  - destruct (step s ev) as [s1|] eqn:E; [|discriminate].
    intros H. apply IH in H. apply step_now_mono in E. lia.
Qed.

Lemma find_timer_single (id : nat) (t t' : Timer) :
  find_timer id [t] = Some t' -> t' = t /\ id = timer_id t.
Proof.
  unfold find_timer. simpl.
  destruct (Nat.eqb (timer_id t) id) eqn:E; [|discriminate].
  intros H; injection H as <-. apply Nat.eqb_eq in E. auto.
Qed.

Lemma clearTimeout_single (t : Timer) : clearTimeout (timer_id t) [t] = [].
Proof. unfold clearTimeout. simpl. now rewrite Nat.eqb_refl. Qed.

(** What a step other than a state change may do to a lone pending
    timer: leave it, or run it and start its job. *)
Lemma quiet_step_single (s s' : State) (ev : Event) (t : Timer) :
  match ev with SetState _ _ => False | _ => True end ->
  timers s = [t] -> step s ev = Some s' ->
  (timers s' = [t] /\ started s' = started s) \/
  (timers s' = [] /\ started s' = started s ++ [timer_job t] /\
   timer_due t <= now s).
Proof.
  intros Hq Ht. destruct ev as [src o|dt|id|gen out]; simpl; [elim Hq| | |].
  - destruct (0 <=? dt); [|discriminate]. intros E; injection E as <-.
    left. auto.
  - rewrite Ht. destruct (find_timer id [t]) as [t'|] eqn:Ef; [|discriminate].
    apply find_timer_single in Ef. destruct Ef as [-> ->].
    destruct (timer_due t <=? now s) eqn:Hd; [|discriminate].
    intros E; injection E as <-. right.
    cbn [fire timers started]. rewrite Ht, clearTimeout_single.
    repeat split. now apply Z.leb_le.
  - destruct (find_run gen (inflight s)) as [r|]; [|discriminate].
    intros E; injection E as <-. left. auto.
Qed.

Lemma quiet_step_none (s s' : State) (ev : Event) :
  match ev with SetState _ _ => False | _ => True end ->
  timers s = [] -> step s ev = Some s' ->
  timers s' = [] /\ started s' = started s.
Proof.
  intros Hq Ht. destruct ev as [src o|dt|id|gen out]; simpl; [elim Hq| | |].
  - destruct (0 <=? dt); [|discriminate]. intros E; injection E as <-. auto.
  - rewrite Ht. discriminate.
  - destruct (find_run gen (inflight s)) as [r|]; [|discriminate].
    intros E; injection E as <-. auto.
Qed.

Lemma quiet_cons (ev : Event) (rest : list Event) :
  quiet (ev :: rest) ->
  match ev with SetState _ _ => False | _ => True end /\ quiet rest.
Proof.
  intros H. split; [apply H; now left|].
  intros ev' Hin. apply H. now right.
Qed.

(** With no timer pending and no state change, no run starts. *)
Lemma quiet_run_none (trace : list Event) (s s' : State) :
  quiet trace -> timers s = [] -> run s trace = Some s' ->
  timers s' = [] /\ started s' = started s.
Proof.
  revert s. induction trace as [|ev rest IH]; intros s Hq Ht; simpl.
  - intros E; injection E as <-. auto.
  - destruct (step s ev) as [s1|] eqn:E; [|discriminate].
    apply quiet_cons in Hq. destruct Hq as [Hev Hq].
    destruct (quiet_step_none _ _ _ Hev Ht E) as [Ht1 Hs1].
    intros H. destruct (IH _ Hq Ht1 H) as [? ?]. split; congruence.
Qed.

(** With one timer pending and no state change, at most one run starts,
    and it is the timer's job. *)
Lemma quiet_run_single (trace : list Event) (s s' : State) (t : Timer) :
  quiet trace -> timers s = [t] -> run s trace = Some s' ->
  (timers s' = [t] /\ started s' = started s) \/
  (timers s' = [] /\ started s' = started s ++ [timer_job t] /\
   timer_due t <= now s').
Proof.
  revert s. induction trace as [|ev rest IH]; intros s Hq Ht; simpl.
  - intros E; injection E as <-. left. auto.
  - destruct (step s ev) as [s1|] eqn:E; [|discriminate].
    apply quiet_cons in Hq. destruct Hq as [Hev Hq]. intros H.
    destruct (quiet_step_single _ _ _ _ Hev Ht E) as [[Ht1 Hs1]|(Ht1 & Hs1 & Hd)].
    + destruct (IH _ Hq Ht1 H) as [[? ?]|(? & ? & ?)].
      * left. split; congruence.
      * right. repeat split; congruence.
    + destruct (quiet_run_none _ _ _ Hq Ht1 H) as [? ?].
      right. repeat split; try congruence.
      pose proof (step_now_mono _ _ _ E). pose proof (run_now_mono _ _ _ H). lia.
Qed.

(** No state change alters the source or the options of the state. *)
Lemma quiet_run_state (trace : list Event) (s s' : State) :
  quiet trace -> run s trace = Some s' ->
  previewSrc s' = previewSrc s /\ options s' = options s.
Proof.
  revert s. induction trace as [|ev rest IH]; intros s Hq; simpl.
  - intros E; injection E as <-. auto.
  - destruct (step s ev) as [s1|] eqn:E; [|discriminate].
    apply quiet_cons in Hq. destruct Hq as [Hev Hq]. intros H.
    destruct (IH _ Hq H) as [Hp Ho].
    assert (previewSrc s1 = previewSrc s /\ options s1 = options s) as [? ?].
    { destruct ev as [src o|dt|id|gen out]; simpl in E; [elim Hev| | |].
      - destruct (0 <=? dt); [|discriminate]. injection E as <-. auto.
      - destruct (find_timer id (timers s)) as [t|]; [|discriminate].
        destruct (timer_due t <=? now s); [|discriminate]. injection E as <-. auto.
      - destruct (find_run gen (inflight s)) as [r|]; [|discriminate].
        injection E as <-. auto. }
    split; congruence.
Qed.

Lemma render_inflight (s : State) (src : option string) (o : ResizeOptions) :
  inflight (render src o s) = inflight s.
Proof.
  unfold render. destruct (same_deps _ _ _ _); [reflexivity|].
  unfold effect.
  match goal with |- context [run_cleanup ?x] =>
    destruct (run_cleanup_keeps x) as (_ & _ & _ & _ & _ & Kf & _);
    destruct (clear_current_keeps (run_cleanup x)) as (_ & _ & _ & _ & _ & Cf & _)
  end.
  cbn [inflight] in Kf.
  destruct (previewSrc (run_cleanup _)) as [x|];
    [destruct (_ && _)|]; cbn [with_cleanup inflight]; congruence.
Qed.

Lemma find_run_in (r : Run) (rs : list Run) :
  In r rs -> exists r', find_run (run_gen r) rs = Some r' /\ run_gen r' = run_gen r.
Proof.
  intros Hin. unfold find_run.
  destruct (find (fun r0 => Nat.eqb (run_gen r0) (run_gen r)) rs) as [r'|] eqn:E.
  - exists r'. split; [reflexivity|]. apply find_some in E.
    now apply Nat.eqb_eq.
  - apply (find_none _ _ E) in Hin. now rewrite Nat.eqb_refl in Hin.
Qed.

End SchedulerFacts.

(** ** The resize scheduler *)

(** C5 as stated fails: in [stale_session] the older run resolves after
    the newer one and its result replaces the newer result, although the
    options are those of the newer run; what is shown is generation 0
    while generation 1 has resolved. *)
Lemma stale_result_overwrites :
  exists s,
    Scheduler.run (Scheduler.mounted optsA) stale_session = Some s /\
    Scheduler.options s = optsB /\
    Scheduler.started s =
      [{| Scheduler.job_src := example_src; Scheduler.job_options := optsA |};
       {| Scheduler.job_src := example_src; Scheduler.job_options := optsB |}] /\
    Scheduler.resizedSrc s = Some "data:image/jpeg;base64,AAAA"%string /\
    ~ Scheduler.shows_latest_generation s.
Proof.
  eexists. split; [vm_compute; reflexivity|].
  repeat split.
  intros H. specialize (H 0%nat eq_refl 1%nat). simpl in H.
  assert (1 <= 0)%nat by (apply H; auto). lia.
Qed.

(** C5 as the code has it.  A state change leaves the runs in flight
    alone, and whenever a run in flight resolves, its result becomes the
    display state: the last run to complete is the one shown. *)
Theorem result_written_on_completion (s : Scheduler.State)
    (src : option string) (o : ResizeOptions) (r : Scheduler.Run)
    (result : string) :
  In r (Scheduler.inflight s) ->
  Scheduler.inflight (Scheduler.render src o s) = Scheduler.inflight s /\
  exists s',
    Scheduler.step s (Scheduler.Settles (Scheduler.run_gen r) (Scheduler.Resolved result))
      = Some s' /\
    Scheduler.resizedSrc s' = Some result /\
    Scheduler.shown_gen s' = Some (Scheduler.run_gen r).
Proof.
  intros Hin. split; [apply render_inflight|].
  destruct (find_run_in r _ Hin) as (r' & Hf & Hg).
  simpl. rewrite Hf. eexists. split; [reflexivity|].
  simpl. rewrite Hg. auto.
Qed.

Lemma result_written_on_completion_witness :
  exists s',
    Scheduler.step state_with_run_in_flight
      (Scheduler.Settles 0 (Scheduler.Resolved "data:image/jpeg;base64,AAAA"))
      = Some s' /\
    Scheduler.resizedSrc s' = Some "data:image/jpeg;base64,AAAA"%string /\
    Scheduler.shown_gen s' = Some 0%nat.
Proof.
  apply (result_written_on_completion state_with_run_in_flight
           (Some example_src) optsB
           {| Scheduler.run_gen := 0;
              Scheduler.run_job :=
                {| Scheduler.job_src := example_src; Scheduler.job_options := optsA |} |}
           "data:image/jpeg;base64,AAAA").
  simpl. left. reflexivity.
Defined.

(** C6 as stated fails: the width field is cleared 100 ms after a change.
    The second change cancels the pending run and, the width being 0,
    schedules none: no timer is left and no run is ever observed. *)
Lemma zero_width_change_schedules_nothing :
  exists s,
    Scheduler.run (Scheduler.mounted optsA)
      [Scheduler.SetState (Some example_src) optsA;
       Scheduler.Elapse 100;
       Scheduler.SetState (Some example_src) opts_zero] = Some s /\
    Scheduler.options s = opts_zero /\
    Scheduler.timers s = [] /\
    forall trace s', Scheduler.quiet trace -> Scheduler.run s trace = Some s' ->
                     Scheduler.started s' = [].
Proof.
  eexists. split; [vm_compute; reflexivity|].
  split; [reflexivity|]. split; [reflexivity|].
  intros trace s' Hq Hr.
  eapply quiet_run_none in Hr; [|exact Hq|reflexivity].
  destruct Hr as [_ ->]. reflexivity.
Qed.

(** C6 as the code has it.  From a well-formed state, a change of one of
    the dependencies (source, width, height, quality, format) with a
    loaded preview and non-zero width and height leaves exactly one
    pending run, due 400 ms later, and a change that fails the guard
    leaves none.  If a second such change comes before the first run is
    due, the first never starts: the only run that can start afterwards
    is the one of the second change, with its options, and it does start
    once 400 ms have passed. *)
Theorem debounce_two_changes (s s2 : Scheduler.State)
    (srcA srcB : option string) (oA oB : ResizeOptions)
    (mid : list Scheduler.Event) :
  Scheduler.wf s ->
  Scheduler.same_deps (Scheduler.previewSrc s) (Scheduler.options s) srcA oA = false ->
  Scheduler.rasterizable srcA oA = true ->
  Scheduler.quiet mid ->
  Scheduler.run (Scheduler.render srcA oA s) mid = Some s2 ->
  Scheduler.now s2 < Scheduler.now s + Scheduler.delay ->
  Scheduler.same_deps srcA oA srcB oB = false ->
  Scheduler.rasterizable srcB oB = true ->
  exists xa xb idB,
    srcA = Some xa /\ srcB = Some xb /\
    Scheduler.timers (Scheduler.render srcA oA s) =
      [{| Scheduler.timer_id := Scheduler.next_timer_id s;
          Scheduler.timer_due := Scheduler.now s + 400;
          Scheduler.timer_job :=
            {| Scheduler.job_src := xa; Scheduler.job_options := oA |} |}] /\
    Scheduler.timers (Scheduler.render srcB oB s2) =
      [{| Scheduler.timer_id := idB;
          Scheduler.timer_due := Scheduler.now s2 + 400;
          Scheduler.timer_job :=
            {| Scheduler.job_src := xb; Scheduler.job_options := oB |} |}] /\
    Scheduler.started (Scheduler.render srcB oB s2) = Scheduler.started s /\
    (forall tail s4, Scheduler.quiet tail ->
       Scheduler.run (Scheduler.render srcB oB s2) tail = Some s4 ->
       Scheduler.started s4 = Scheduler.started s \/
       Scheduler.started s4 =
         Scheduler.started s ++
         [{| Scheduler.job_src := xb; Scheduler.job_options := oB |}]) /\
    (exists s4,
       Scheduler.run (Scheduler.render srcB oB s2)
         [Scheduler.Elapse 400; Scheduler.TimerFires idB] = Some s4 /\
       Scheduler.started s4 =
         Scheduler.started s ++
         [{| Scheduler.job_src := xb; Scheduler.job_options := oB |}]) /\
    (forall src o,
       Scheduler.same_deps (Scheduler.previewSrc s) (Scheduler.options s) src o = false ->
       Scheduler.rasterizable src o = false ->
       Scheduler.timers (Scheduler.render src o s) = []).
Proof.
  intros Hwf HdA HgA Hq Hmid Hnow HdB HgB.
  destruct (render_changed s srcA oA Hwf HdA)
    as (Ap & Ao & An & As & _ & _ & Ay & _).
  destruct (Ay HgA) as (xa & -> & At & _ & _).
  set (s1 := Scheduler.render (Some xa) oA s) in *.
  assert (Hwf1 : Scheduler.wf s1) by now apply wf_render.
  assert (Hwf2 : Scheduler.wf s2) by exact (wf_run _ _ _ Hwf1 Hmid).
  destruct (quiet_run_state _ _ _ Hq Hmid) as [Mp Mo].
  destruct (quiet_run_single _ _ _ _ Hq At Hmid) as [[Mt Ms]|(_ & _ & Hdue)];
    [|cbn [Scheduler.timer_due] in Hdue; lia].
  assert (HdB' : Scheduler.same_deps (Scheduler.previewSrc s2) (Scheduler.options s2)
                   srcB oB = false) by (rewrite Mp, Mo, Ap, Ao; exact HdB).
  destruct (render_changed s2 srcB oB Hwf2 HdB')
    as (Bp & Bo & Bn & Bs & _ & _ & By & _).
  destruct (By HgB) as (xb & -> & Bt & _ & _).
  set (s3 := Scheduler.render (Some xb) oB s2) in *.
  exists xa, xb, (Scheduler.next_timer_id s2).
  split; [reflexivity|]. split; [reflexivity|].
  split; [exact At|]. split; [exact Bt|].
  assert (Hst : Scheduler.started s3 = Scheduler.started s) by congruence.
  split; [exact Hst|].
  split; [|split].
  - intros tail s4 Hqt Hr.
    destruct (quiet_run_single _ _ _ _ Hqt Bt Hr) as [[_ E]|(_ & E & _)];
      rewrite E, Hst; auto.
  - simpl. rewrite Bt. unfold Scheduler.find_timer. simpl.
    rewrite Nat.eqb_refl. simpl.
    replace (Scheduler.now s2 + Scheduler.delay <=? Scheduler.now s3 + 400)
      with true by (symmetry; apply Z.leb_le; unfold Scheduler.delay; lia).
    eexists. split; [reflexivity|]. simpl. now rewrite Hst.
  - intros src o Hd Hg.
    destruct (render_changed s src o Hwf Hd) as (_ & _ & _ & _ & _ & _ & _ & Hn).
    exact (Hn Hg).
Qed.

Lemma debounce_two_changes_witness :
  exists xb idB s4,
    Some example_src = Some xb /\
    Scheduler.run (Scheduler.render (Some example_src) optsB after_first_change)
      [Scheduler.Elapse 400; Scheduler.TimerFires idB] = Some s4 /\
    Scheduler.started s4 =
      Scheduler.started (Scheduler.mounted optsA) ++
      [{| Scheduler.job_src := xb; Scheduler.job_options := optsB |}].
Proof.
  destruct (debounce_two_changes (Scheduler.mounted optsA) after_first_change
              (Some example_src) (Some example_src) optsA optsB
              [Scheduler.Elapse 100])
    as (xa & xb & idB & _ & Hb & _ & _ & _ & _ & (s4 & Hrun & Hst) & _).
  - split; [intros t []|intros H; now elim H].
  - reflexivity.
  - reflexivity.
  - intros ev [<-|[]]. exact I.
  - reflexivity.
  - reflexivity.
  - reflexivity.
  - reflexivity.
  - exists xb, idB, s4. auto.
Defined.

(** ** Rounding in the normal range

    The quotient and the product of the locked edit are correctly rounded:
    each is within 2^-53 of the exact value, relatively. *)

(** *** Rounding of a positive mantissa *)

Lemma digits2_pos_bounds (p : positive) :
  2 ^ (Zpos (digits2_pos p) - 1) <= Zpos p < 2 ^ Zpos (digits2_pos p).
Proof.
  induction p as [p IH|p IH|]; simpl digits2_pos.
  - rewrite Pos2Z.inj_succ.
    replace (Z.succ (Z.pos (digits2_pos p)) - 1) with (Z.succ (Z.pos (digits2_pos p) - 1)) by lia.
    rewrite !Z.pow_succ_r by lia. lia.
  - rewrite Pos2Z.inj_succ.
    replace (Z.succ (Z.pos (digits2_pos p)) - 1) with (Z.succ (Z.pos (digits2_pos p) - 1)) by lia.
    rewrite !Z.pow_succ_r by lia. lia.
  - simpl. lia.
Qed.

Lemma digits2_pos_unique (p : positive) (k : Z) :
  2 ^ (k - 1) <= Zpos p < 2 ^ k -> Zpos (digits2_pos p) = k.
Proof.
  intros [H1 H2]. destruct (digits2_pos_bounds p) as [B1 B2].
  assert (Hk : 0 < k).
  { destruct (Z.ltb_spec 0 k) as [|Hk]; [assumption|].
    assert (2 ^ k <= 1); [|lia].
    destruct (Z.eq_dec k 0) as [->|]; [simpl; lia|].
    rewrite Z.pow_neg_r by lia. lia. }
  set (d := Zpos (digits2_pos p)) in *.
  assert (d - 1 < k).
  { apply (Z.pow_lt_mono_r_iff 2); lia. }
  assert (k - 1 < d).
  { apply (Z.pow_lt_mono_r_iff 2); lia. }
  lia.
Qed.

Lemma loc_of_shr_record_of_loc (m : Z) (l : location) :
  loc_of_shr_record (shr_record_of_loc m l) = l.
Proof. destruct l as [|[ | | ]]; reflexivity. Qed.

Lemma shr_m_of_loc (m : Z) (l : location) : shr_m (shr_record_of_loc m l) = m.
Proof. destruct l as [|[ | | ]]; reflexivity. Qed.

Lemma new_location_loc_of (d r : Z) : 0 < d -> 0 <= r < d -> new_location d r = loc_of r d.
Proof.
  intros Hd Hr. unfold new_location, loc_of, new_location_even, new_location_odd.
  destruct (Z.even d) eqn:E; [reflexivity|].
  destruct (r =? 0); [reflexivity|]. f_equal.
  assert (Ho : Z.odd d = true) by (rewrite <- Z.negb_even, E; reflexivity).
  apply Z.odd_spec in Ho. destruct Ho as [k Hk].
  destruct (Z.compare_spec (2 * r + 1) d); destruct (Z.compare_spec (2 * r) d);
    try reflexivity; lia.
Qed.

Lemma shifted_0 (mx r d : Z) : shifted mx r d 0 (shr_record_of_loc mx (loc_of r d)).
Proof.
  split.
  - rewrite shr_m_of_loc. simpl. now rewrite Z.div_1_r.
  - rewrite loc_of_shr_record_of_loc. simpl. rewrite Z.mod_1_r.
    f_equal; lia.
Qed.

Lemma shifted_step (mx r d j : Z) (mrs : shr_record) :
  0 <= mx -> 0 < d -> 0 <= r < d -> 0 <= j ->
  shifted mx r d j mrs -> shifted mx r d (j + 1) (shr_1 mrs).
Proof.
  intros Hmx Hd Hr Hj [Hm Hl].
  assert (Hp : 0 < 2 ^ j) by (apply Z.pow_pos_nonneg; lia).
  set (q := mx / 2 ^ j) in *.
  set (R := (mx mod 2 ^ j) * d + r) in *.
  set (D := d * 2 ^ j) in *.
  assert (HR : 0 <= R < D).
  { pose proof (Z.mod_pos_bound mx (2 ^ j) Hp) as Hb. unfold R, D.
    assert ((mx mod 2 ^ j) * d <= (2 ^ j - 1) * d)
      by (apply Z.mul_le_mono_nonneg_r; lia).
    assert (0 <= (mx mod 2 ^ j) * d) by (apply Z.mul_nonneg_nonneg; lia).
    lia. }
  assert (Hq : 0 <= q) by (apply Z.div_pos; lia).
  assert (Hq2 : mx / 2 ^ (j + 1) = q / 2).
  { rewrite Z.pow_add_r, Z.pow_1_r by lia. unfold q. now rewrite Z.div_div by lia. }
  assert (HR2 : (mx mod 2 ^ (j + 1)) * d + r = R + (q mod 2) * D).
  { rewrite Z.pow_add_r, Z.pow_1_r by lia.
    rewrite Z.rem_mul_r by lia. fold q. unfold R, D. ring. }
  assert (HD2 : d * 2 ^ (j + 1) = 2 * D).
  { rewrite Z.pow_add_r, Z.pow_1_r by lia. unfold D. ring. }
  unfold shifted. rewrite Hq2, HR2, HD2.
  destruct mrs as [m rb sb]. cbn [shr_m] in Hm. subst m.
  assert (Hs : orb rb sb = negb (R =? 0)).
  { unfold loc_of in Hl. destruct (R =? 0); destruct rb, sb; simpl in Hl;
      try reflexivity; try discriminate. }
  unfold shr_1. rewrite Hs. unfold loc_of.
  assert (Hc0 : (if R + 0 * D =? 0 then loc_Exact
                 else loc_Inexact (2 * (R + 0 * D) ?= 2 * D)) =
                loc_of_shr_record (Build_shr_record 0 false (negb (R =? 0)))).
  { rewrite Z.mul_0_l, Z.add_0_r.
    destruct (Z.eqb_spec R 0) as [E0|E0]; cbn [negb loc_of_shr_record];
      [reflexivity|]. f_equal. apply Z.compare_lt_iff. lia. }
  assert (Hc1 : (if R + 1 * D =? 0 then loc_Exact
                 else loc_Inexact (2 * (R + 1 * D) ?= 2 * D)) =
                loc_of_shr_record (Build_shr_record 0 true (negb (R =? 0)))).
  { rewrite Z.mul_1_l. destruct (Z.eqb_spec (R + D) 0); [lia|].
    destruct (Z.eqb_spec R 0) as [E0|E0]; cbn [negb loc_of_shr_record]; f_equal.
    - apply Z.compare_eq_iff. lia.
    - apply Z.compare_gt_iff. lia. }
  destruct q as [|[p|p|]|p] eqn:Eq; try lia; cbn [shr_m].
  - split; [reflexivity|]. change (0 mod 2) with 0. rewrite Hc0. reflexivity.
  - split; [rewrite Pos2Z.inj_xI; apply Z.div_unique with 1; lia|].
    replace (Z.pos p~1 mod 2) with 1
      by (rewrite Pos2Z.inj_xI; apply Z.mod_unique with (Z.pos p); lia).
    rewrite Hc1. reflexivity.
  - split; [rewrite Pos2Z.inj_xO; apply Z.div_unique with 0; lia|].
    replace (Z.pos p~0 mod 2) with 0
      by (rewrite Pos2Z.inj_xO; apply Z.mod_unique with (Z.pos p); lia).
    rewrite Hc0. reflexivity.
  - split; [reflexivity|]. change (1 mod 2) with 1. rewrite Hc1. reflexivity.
Qed.

Lemma shifted_iter (mx r d : Z) :
  0 <= mx -> 0 < d -> 0 <= r < d ->
  forall (p : positive) (j : Z) (mrs : shr_record), 0 <= j ->
  shifted mx r d j mrs -> shifted mx r d (j + Zpos p) (iter_pos shr_1 p mrs).
Proof.
  intros Hmx Hd Hr. induction p as [p IH|p IH|]; intros j mrs Hj H; simpl iter_pos.
  - replace (j + Z.pos p~1) with (j + 1 + Z.pos p + Z.pos p) by lia.
    apply IH; [lia|]. apply IH; [lia|]. now apply shifted_step.
  - replace (j + Z.pos p~0) with (j + Z.pos p + Z.pos p) by lia.
    apply IH; [lia|]. now apply IH.
  - now apply shifted_step.
Qed.

Lemma shifted_shr (mx r d e n : Z) :
  0 <= mx -> 0 < d -> 0 <= r < d -> 0 <= n ->
  shifted mx r d n (fst (shr (shr_record_of_loc mx (loc_of r d)) e n)) /\
  snd (shr (shr_record_of_loc mx (loc_of r d)) e n) = e + n.
Proof.
  intros Hmx Hd Hr Hn. destruct n as [|p|p]; try lia; simpl.
  - split; [apply shifted_0|lia].
  - split; [|reflexivity].
    apply (shifted_iter mx r d Hmx Hd Hr p 0); [lia|apply shifted_0].
Qed.

(** Rounding to nearest, ties to even, of [q + R / D]: the result is
    within one half. *)
Lemma round_nearest_even_near (q R D : Z) :
  0 <= R < D ->
  let m := round_nearest_even q (loc_of R D) in
  (m = q \/ m = q + 1) /\ 2 * Z.abs (D * m - (D * q + R)) <= D.
Proof.
  intros HR m. subst m. unfold loc_of.
  destruct (Z.eqb_spec R 0).
  - cbn [round_nearest_even]. split; [now left|]. lia.
  - destruct (Z.compare_spec (2 * R) D); cbn [round_nearest_even].
    + destruct (Z.even q); [split; [now left|]|split; [now right|]]; lia.
    + split; [now left|]. lia.
    + split; [now right|]. lia.
Qed.

Lemma fexp_normal (x : Z) : -1021 <= x -> fexp JS.prec JS.emax x = x - 53.
Proof. intros H. unfold fexp, emin, JS.prec, JS.emax. lia. Qed.

Lemma Zdigits2_bounds (m : Z) :
  0 < m -> 2 ^ (Zdigits2 m - 1) <= m < 2 ^ Zdigits2 m.
Proof.
  destruct m as [|p|p]; try lia. intros _. apply digits2_pos_bounds.
Qed.

Lemma Zdigits2_unique (m k : Z) :
  2 ^ (k - 1) <= m < 2 ^ k -> 0 < m -> Zdigits2 m = k.
Proof.
  destruct m as [|p|p]; try lia. intros H _. now apply digits2_pos_unique.
Qed.

(** Rounding a mantissa of at least 53 bits followed by the fraction
    [r / d], in the normal range: the result is a normal number within
    half a unit in the last place. *)
Lemma binary_round_aux_pos (mx ex r d : Z) :
  2 ^ 52 <= mx -> 0 < d -> 0 <= r < d -> -1074 <= ex ->
  ex + Zdigits2 mx - 52 <= 971 ->
  exists m e,
    binary_round_aux JS.prec JS.emax false mx ex (loc_of r d)
      = S754_finite false (Z.to_pos m) e /\
    2 ^ 52 <= m < 2 ^ 53 /\ ex <= e <= ex + Zdigits2 mx - 52 /\
    2 * Z.abs (d * (m * 2 ^ (e - ex)) - (d * mx + r)) <= d * 2 ^ (Zdigits2 mx - 53).
Proof.
  intros Hmx Hd Hr Hex Hmax.
  assert (Hmx0 : 0 < mx) by lia.
  pose proof (Zdigits2_bounds mx Hmx0) as Hdig.
  set (dm := Zdigits2 mx) in *.
  assert (Hdm : 53 <= dm).
  { assert (52 < dm); [|lia].
    apply (Z.pow_lt_mono_r_iff 2);
      first [lia | destruct (Z.ltb_spec dm 0);
                   [rewrite (Z.pow_neg_r 2 dm) in Hdig; lia|lia]]. }
  set (n := dm - 53).
  assert (Hn : 0 <= n) by (unfold n; lia).
  assert (Hpn : 0 < 2 ^ n) by (apply Z.pow_pos_nonneg; lia).
  assert (Hdm1 : 2 ^ (dm - 1) = 2 ^ 52 * 2 ^ n)
    by (rewrite <- Z.pow_add_r by lia; f_equal; unfold n; lia).
  assert (Hdm2 : 2 ^ dm = 2 ^ 53 * 2 ^ n)
    by (rewrite <- Z.pow_add_r by lia; f_equal; unfold n; lia).
  unfold binary_round_aux, shr_fexp. fold dm.
  rewrite fexp_normal by lia.
  replace (dm + ex - 53 - ex) with n by (unfold n; lia).
  destruct (shifted_shr mx r d ex n ltac:(lia) Hd Hr Hn) as [[Hq Hl] He].
  destruct (shr (shr_record_of_loc mx (loc_of r d)) ex n) as [mrs' e'].
  cbn [fst snd] in Hq, Hl, He. subst e'.
  set (q := mx / 2 ^ n) in *.
  assert (Hqb : 2 ^ 52 <= q < 2 ^ 53).
  { unfold q. split.
    - apply Z.div_le_lower_bound; lia.
    - apply Z.div_lt_upper_bound; lia. }
  rewrite Hq, Hl.
  assert (HRD : 0 <= mx mod 2 ^ n * d + r < d * 2 ^ n).
  { pose proof (Z.mod_pos_bound mx (2 ^ n) Hpn) as Hb.
    assert (mx mod 2 ^ n * d <= (2 ^ n - 1) * d)
      by (apply Z.mul_le_mono_nonneg_r; lia).
    assert (0 <= mx mod 2 ^ n * d) by (apply Z.mul_nonneg_nonneg; lia).
    lia. }
  destruct (round_nearest_even_near q _ _ HRD) as [Hm1 Hnear].
  set (m1 := round_nearest_even q (loc_of (mx mod 2 ^ n * d + r) (d * 2 ^ n))) in *.
  assert (Hval : d * 2 ^ n * q + (mx mod 2 ^ n * d + r) = d * mx + r).
  { rewrite (Z.div_mod mx (2 ^ n)) at 2 by lia. fold q. ring. }
  rewrite Hval in Hnear.
  assert (Hm1b : 2 ^ 52 <= m1 <= 2 ^ 53) by lia.
  destruct (Z.eq_dec m1 (2 ^ 53)) as [E|E].
  - (* the rounding carried into a 54th bit *)
    rewrite E. change (Zdigits2 (2 ^ 53)) with 54.
    rewrite fexp_normal by lia.
    replace (54 + (ex + n) - 53 - (ex + n)) with 1 by lia.
    cbn [shr shr_record_of_loc iter_pos]. 
    change (shr_m (shr_1 {| shr_m := 2 ^ 53; shr_r := false; shr_s := false |}))
      with (Z.pos (Z.to_pos (2 ^ 52))).
    cbv iota.
    replace (ex + n + 1 <=? JS.emax - JS.prec) with true
      by (symmetry; apply Z.leb_le; unfold JS.emax, JS.prec, n; lia).
    exists (2 ^ 52), (ex + n + 1). split; [reflexivity|].
    split; [lia|]. split; [unfold n; lia|].
    replace (ex + n + 1 - ex) with (n + 1) by lia.
    rewrite Z.pow_add_r, Z.pow_1_r by lia.
    replace (d * (2 ^ 52 * (2 ^ n * 2))) with (d * 2 ^ n * m1) by (rewrite E; ring).
    fold n. exact Hnear.
  - assert (Hd1 : Zdigits2 m1 = 53) by (apply Zdigits2_unique; lia).
    rewrite Hd1, fexp_normal by lia.
    replace (53 + (ex + n) - 53 - (ex + n)) with 0 by lia.
    cbn [shr]. rewrite shr_m_of_loc.
    destruct m1 as [|p1|p1] eqn:Ep; try lia.
    replace (ex + n <=? JS.emax - JS.prec) with true
      by (symmetry; apply Z.leb_le; unfold JS.emax, JS.prec, n; lia).
    exists (Z.pos p1), (ex + n). split; [reflexivity|].
    split; [lia|]. split; [unfold n; lia|].
    replace (ex + n - ex) with n by lia.
    replace (d * (Z.pos p1 * 2 ^ n)) with (d * 2 ^ n * Z.pos p1) by ring.
    fold n. exact Hnear.
Qed.

(** The same bound relative to the exact value: the error is at most
    2^-53 of it. *)
Lemma binary_round_aux_rel (mx ex r d : Z) :
  2 ^ 52 <= mx -> 0 < d -> 0 <= r < d -> -1074 <= ex ->
  ex + Zdigits2 mx - 52 <= 971 ->
  exists m e,
    binary_round_aux JS.prec JS.emax false mx ex (loc_of r d)
      = S754_finite false (Z.to_pos m) e /\
    2 ^ 52 <= m < 2 ^ 53 /\ ex <= e <= ex + Zdigits2 mx - 52 /\
    2 ^ 53 * Z.abs (d * (m * 2 ^ (e - ex)) - (d * mx + r)) <= d * mx + r.
Proof.
  intros Hmx Hd Hr Hex Hmax.
  destruct (binary_round_aux_pos mx ex r d Hmx Hd Hr Hex Hmax)
    as (m & e & Heq & Hm & He & Hb).
  exists m, e. repeat split; try assumption; try lia.
  pose proof (Zdigits2_bounds mx ltac:(lia)) as Hdig.
  set (dm := Zdigits2 mx) in *.
  assert (Hdm : 53 <= dm).
  { assert (52 < dm); [|lia].
    apply (Z.pow_lt_mono_r_iff 2);
      first [lia | destruct (Z.ltb_spec dm 0);
                   [rewrite (Z.pow_neg_r 2 dm) in Hdig; lia|lia]]. }
  assert (E : 2 ^ (dm - 1) = 2 ^ 52 * 2 ^ (dm - 53))
    by (rewrite <- Z.pow_add_r by lia; f_equal; lia).
  assert (0 < 2 ^ (dm - 53)) by (apply Z.pow_pos_nonneg; lia).
  set (err := Z.abs (d * (m * 2 ^ (e - ex)) - (d * mx + r))) in *.
  assert (d * 2 ^ (dm - 1) <= d * mx) by (apply Z.mul_le_mono_nonneg_l; lia).
  rewrite E in *.
  replace (2 ^ 53) with (2 ^ 52 * 2) by reflexivity.
  assert (2 ^ 52 * (2 * err) <= 2 ^ 52 * (d * 2 ^ (dm - 53)))
    by (apply Z.mul_le_mono_nonneg_l; lia).
  lia.
Qed.

Lemma Pos_iter_xO (p k : positive) :
  Zpos (Pos.iter xO p k) = Zpos p * 2 ^ Zpos k.
Proof.
  induction k as [|k IH] using Pos.peano_ind.
  - simpl. lia.
  - rewrite Pos.iter_succ, Pos2Z.inj_xO, IH, Pos2Z.inj_succ, Z.pow_succ_r by lia.
    ring.
Qed.

Lemma of_Z_pos (n : Z) :
  0 < n < 2 ^ 53 ->
  exists m a,
    binary_normalize JS.prec JS.emax n 0 false = Fl m (- a) /\
    0 <= a <= 52 /\ m = n * 2 ^ a /\ normal m.
Proof.
  intros Hn. destruct n as [|p|p]; try lia.
  pose proof (digits2_pos_bounds p) as Hdig.
  set (dp := Zpos (digits2_pos p)) in *.
  assert (Hdp : 1 <= dp <= 53).
  { split; [unfold dp; lia|].
    assert (dp - 1 < 53); [|lia]. apply (Z.pow_lt_mono_r_iff 2); lia. }
  set (a := 53 - dp).
  assert (Ha : 0 <= a <= 52) by (unfold a; lia).
  assert (Hm : normal (Z.pos p * 2 ^ a)).
  { unfold normal.
    assert (E1 : 2 ^ 52 = 2 ^ (dp - 1) * 2 ^ a)
      by (rewrite <- Z.pow_add_r by lia; f_equal; unfold a; lia).
    assert (E2 : 2 ^ 53 = 2 ^ dp * 2 ^ a)
      by (rewrite <- Z.pow_add_r by lia; f_equal; unfold a; lia).
    assert (0 < 2 ^ a) by (apply Z.pow_pos_nonneg; lia).
    rewrite E1, E2. split.
    - apply Z.mul_le_mono_nonneg_r; lia.
    - apply Z.mul_lt_mono_pos_r; lia. }
  cbn [binary_normalize]. unfold binary_round.
  rewrite Z.add_0_r. fold dp. rewrite fexp_normal by lia.
  assert (Hsh : shl_align p 0 (dp - 53) = (Z.to_pos (Z.pos p * 2 ^ a), - a)).
  { unfold shl_align. rewrite Z.sub_0_r.
    destruct (dp - 53) as [|k|k] eqn:Ek; try lia.
    - replace a with 0 by lia. rewrite Z.pow_0_r, Z.mul_1_r. reflexivity.
    - f_equal; [|unfold a; lia].
      apply Pos2Z.inj. rewrite Pos_iter_xO, Z2Pos.id.
      + f_equal. f_equal. unfold a. lia.
      + unfold normal in Hm. lia. }
  rewrite Hsh.
  set (mz := Z.pos p * 2 ^ a) in *.
  assert (Hmz : Z.pos (Z.to_pos mz) = mz) by (apply Z2Pos.id; unfold normal in Hm; lia).
  rewrite Hmz.
  assert (Hdz : Zdigits2 mz = 53)
    by (apply Zdigits2_unique; unfold normal in Hm; lia).
  destruct (binary_round_aux_pos mz (- a) 0 1) as (m & e & Heq & Hmn & He & Hb);
    try (unfold normal in Hm; lia).
  change (loc_of 0 1) with loc_Exact in Heq.
  rewrite Hdz in He, Hb. change (2 ^ (53 - 53)) with 1 in Hb.
  assert (Hee : e = - a).
  { destruct (Z.eq_dec e (- a)) as [|Hne]; [assumption|].
    assert (e = - a + 1) by lia. subst e.
    replace (- a + 1 - - a) with 1 in Hb by lia.
    unfold normal in Hm. lia. }
  subst e. rewrite Z.sub_diag, Z.pow_0_r in Hb.
  assert (m = mz) by lia. subst m.
  exists mz, a. rewrite Heq. repeat split; try lia; apply Hm.
Qed.

Lemma div_pos (mx ex my ey : Z) :
  normal mx -> normal my -> -1000 <= ex - ey <= 900 ->
  exists m e,
    SFdiv JS.prec JS.emax (Fl mx ex) (Fl my ey) = Fl m e /\ normal m /\
    ex - ey - 53 <= e <= ex - ey - 51 /\
    2 ^ 53 * Z.abs (my * (m * 2 ^ (e - (ex - ey - 53))) - mx * 2 ^ 53) <= mx * 2 ^ 53.
Proof.
  unfold normal. intros Hx Hy He.
  assert (Px : Z.pos (Z.to_pos mx) = mx) by (apply Z2Pos.id; lia).
  assert (Py : Z.pos (Z.to_pos my) = my) by (apply Z2Pos.id; lia).
  assert (Dx : Zdigits2 mx = 53) by (apply Zdigits2_unique; lia).
  assert (Dy : Zdigits2 my = 53) by (apply Zdigits2_unique; lia).
  unfold Fl, SFdiv, SFdiv_core_binary. cbn [xorb]. rewrite Px, Py, Dx, Dy.
  rewrite fexp_normal by lia.
  replace (Z.min (53 + ex - (53 + ey) - 53) (ex - ey)) with (ex - ey - 53) by lia.
  replace (ex - ey - (ex - ey - 53)) with 53 by lia.
  rewrite Z.shiftl_mul_pow2 by lia.
  pose proof (Z_div_mod (mx * 2 ^ 53) my ltac:(lia)) as Hdm.
  destruct (Z.div_eucl (mx * 2 ^ 53) my) as [q r].
  destruct Hdm as [Hqr Hr].
  rewrite new_location_loc_of by lia.
  assert (Hq : 2 ^ 52 <= q < 2 ^ 54) by nia.
  assert (Hdq : Zdigits2 q <= 54).
  { pose proof (Zdigits2_bounds q ltac:(lia)) as Hb.
    assert (Zdigits2 q - 1 < 54); [|lia].
    apply (Z.pow_lt_mono_r_iff 2); lia. }
  destruct (binary_round_aux_rel q (ex - ey - 53) r my) as (m & e & Heq & Hm & Hee & Hb);
    try lia.
  replace (my * q + r) with (mx * 2 ^ 53) in Hb by lia.
  exists m, e. rewrite Heq. repeat split; try lia.
Qed.

Lemma mul_pos (mx ex my ey : Z) :
  normal mx -> normal my -> -1000 <= ex + ey <= 800 ->
  exists m e,
    SFmul JS.prec JS.emax (Fl mx ex) (Fl my ey) = Fl m e /\ normal m /\
    ex + ey <= e /\
    2 ^ 53 * Z.abs (m * 2 ^ (e - (ex + ey)) - mx * my) <= mx * my.
Proof.
  unfold normal. intros Hx Hy He.
  assert (Px : Z.pos (Z.to_pos mx) = mx) by (apply Z2Pos.id; lia).
  assert (Py : Z.pos (Z.to_pos my) = my) by (apply Z2Pos.id; lia).
  unfold Fl, SFmul. cbn [xorb].
  rewrite Pos2Z.inj_mul, Px, Py.
  assert (Hp : 2 ^ 104 <= mx * my < 2 ^ 106) by nia.
  assert (Hdq : Zdigits2 (mx * my) <= 106).
  { pose proof (Zdigits2_bounds (mx * my) ltac:(lia)) as Hb.
    assert (Zdigits2 (mx * my) - 1 < 106); [|lia].
    apply (Z.pow_lt_mono_r_iff 2); lia. }
  destruct (binary_round_aux_rel (mx * my) (ex + ey) 0 1) as (m & e & Heq & Hm & Hee & Hb);
    try lia.
  change (loc_of 0 1) with loc_Exact in Heq.
  replace (1 * (m * 2 ^ (e - (ex + ey))) - (1 * (mx * my) + 0))
    with (m * 2 ^ (e - (ex + ey)) - mx * my) in Hb by ring.
  replace (1 * (mx * my) + 0) with (mx * my) in Hb by ring.
  exists m, e. rewrite Heq. repeat split; try lia.
Qed.

Lemma to_Z_of_Z_pos (n : Z) : 0 < n < 2 ^ 53 -> JS.to_Z (JS.of_Z n) = Some n.
Proof.
  intros Hn. destruct (of_Z_pos n Hn) as (m & a & Heq & Ha & Hm & Hnorm).
  unfold JS.of_Z. rewrite Heq. unfold Fl, JS.to_Z.
  assert (Pm : Z.pos (Z.to_pos m) = m) by (apply Z2Pos.id; unfold normal in Hnorm; lia).
  rewrite Pm. cbn [cond_Zopp].
  assert (0 < 2 ^ a) by (apply Z.pow_pos_nonneg; lia).
  destruct (Z.leb_spec 0 (- a)).
  - replace a with 0 in * by lia. f_equal. simpl in *. lia.
  - rewrite Z.opp_involutive. subst m.
    rewrite Z.mod_mul by lia. rewrite Z.eqb_refl.
    rewrite Z.div_mul by lia. reflexivity.
Qed.

Lemma Math_round_pos (m e : Z) :
  normal m -> e < 0 ->
  exists h, JS.to_Z (JS.Math_round (Fl m e)) = Some h /\ 0 <= h /\
            2 ^ (- e + 1) * h <= 2 * m + 2 ^ (- e) < 2 ^ (- e + 1) * (h + 1).
Proof.
  intros Hm He. unfold normal in Hm.
  assert (Pm : Z.pos (Z.to_pos m) = m) by (apply Z2Pos.id; lia).
  unfold Fl, JS.Math_round.
  destruct (Z.leb_spec 0 e); [lia|].
  rewrite Pm. cbn [cond_Zopp].
  set (B := - e).
  assert (HB : 1 <= B) by (unfold B; lia).
  assert (HpB : 2 <= 2 ^ B).
  { change 2 with (2 ^ 1) at 1. apply Z.pow_le_mono_r; lia. }
  assert (Hp1 : 2 ^ (B + 1) = 2 * 2 ^ B) by (rewrite Z.pow_add_r, Z.pow_1_r by lia; ring).
  set (n := (2 * m + 2 ^ B) / 2 ^ (B + 1)).
  assert (Hdiv : 2 ^ (B + 1) * n <= 2 * m + 2 ^ B < 2 ^ (B + 1) * (n + 1)).
  { unfold n. split.
    - apply Z.mul_div_le. lia.
    - replace (2 ^ (B + 1) * ((2 * m + 2 ^ B) / 2 ^ (B + 1) + 1))
        with (2 ^ (B + 1) * Z.succ ((2 * m + 2 ^ B) / 2 ^ (B + 1))) by (f_equal; lia).
      apply Z.mul_succ_div_gt. lia. }
  assert (Hn0 : 0 <= n) by (unfold n; apply Z.div_pos; lia).
  assert (Hn1 : n < 2 ^ 53).
  { destruct (Z.ltb_spec n (2 ^ 53)); [assumption|].
    assert (2 ^ (B + 1) * 2 ^ 53 <= 2 ^ (B + 1) * n)
      by (apply Z.mul_le_mono_nonneg_l; lia).
    lia. }
  exists n. split; [|split; assumption].
  destruct n as [|p|p] eqn:En; try lia; [reflexivity|].
  apply to_Z_of_Z_pos. lia.
Qed.

(** *** The arithmetic of the locked height *)

(** The error of the rounded product [mr * q2] against the exact one,
    carried through the rounded quotient. *)
Lemma product_error (mW mH mv mrho mr q1 q2 : Z) :
  0 < mW -> 0 < mH -> 0 < mv -> 0 < mrho -> 0 < q1 ->
  2 ^ 53 * Z.abs (mW * (mrho * q1) - mH * 2 ^ 53) <= mH * 2 ^ 53 ->
  2 ^ 53 * Z.abs (mr * q2 - mv * mrho) <= mv * mrho ->
  2 ^ 53 * Z.abs (mr * q2 * q1 * mW - mv * mH * 2 ^ 53) <= mv * mH * (2 ^ 54 + 1).
Proof.
  intros HW HH Hv Hrho Hq1 F1 F2.
  set (Y := mW * (mrho * q1) - mH * 2 ^ 53) in *.
  set (X := mr * q2 - mv * mrho) in *.
  assert (HY : Z.abs Y <= mH) by lia.
  replace (mr * q2 * q1 * mW - mv * mH * 2 ^ 53) with (X * (q1 * mW) + mv * Y)
    by (unfold X, Y; ring).
  assert (Ha : 0 < q1 * mW) by (apply Z.mul_pos_pos; lia).
  set (a := q1 * mW) in *.
  assert (T : Z.abs (X * a + mv * Y) <= Z.abs X * a + mv * Z.abs Y).
  { eapply Z.le_trans; [apply Z.abs_triangle|].
    rewrite !Z.abs_mul, (Z.abs_eq a), (Z.abs_eq mv) by lia. lia. }
  assert (E : mv * mrho * a = mv * (Y + mH * 2 ^ 53)) by (unfold Y, a; ring).
  assert (S1 : 2 ^ 53 * Z.abs X * a <= mv * mrho * a)
    by (apply Z.mul_le_mono_nonneg_r; lia).
  assert (S2 : mv * Z.abs Y <= mv * mH) by (apply Z.mul_le_mono_nonneg_l; lia).
  assert (S3 : mv * Y <= mv * mH) by (apply Z.mul_le_mono_nonneg_l; lia).
  rewrite E in S1.
  lia.
Qed.

Lemma pow2_pos (k : Z) : 0 <= k -> 0 < 2 ^ k.
Proof. intros. apply Z.pow_pos_nonneg; lia. Qed.

(** From the two rounding errors to the rounded height: [h] is the
    integer nearest to [v * H / W]. *)
Lemma nearest_height (W H v aW aH av mrho c1 mr c2 B h : Z) :
  0 < W -> 0 < H -> 0 < v -> v * H <= 2 ^ 50 ->
  0 <= aW -> 0 <= aH -> 0 <= av -> 0 <= c1 -> 0 <= c2 ->
  2 ^ 52 <= mrho -> 2 ^ 52 <= mr ->
  2 ^ 53 * Z.abs (W * 2 ^ aW * (mrho * 2 ^ c1) - H * 2 ^ aH * 2 ^ 53)
    <= H * 2 ^ aH * 2 ^ 53 ->
  2 ^ 53 * Z.abs (mr * 2 ^ c2 - v * 2 ^ av * mrho) <= v * 2 ^ av * mrho ->
  B = av + aH + 53 - c1 - c2 - aW ->
  (0 < B -> 2 ^ (B + 1) * h <= 2 * mr + 2 ^ B < 2 ^ (B + 1) * (h + 1)) ->
  0 < B /\ 2 * Z.abs (h * W - v * H) <= W.
Proof.
  intros HW HH Hv HvH HaW HaH Hav Hc1 Hc2 Hrho Hmr F1 F2 HB Hh.
  pose proof (pow2_pos aW HaW) as PW. pose proof (pow2_pos aH HaH) as PH.
  pose proof (pow2_pos av Hav) as Pv. pose proof (pow2_pos c1 Hc1) as P1.
  pose proof (pow2_pos c2 Hc2) as P2.
  set (pW := 2 ^ aW) in *. set (pH := 2 ^ aH) in *. set (pv := 2 ^ av) in *.
  set (q1 := 2 ^ c1) in *. set (q2 := 2 ^ c2) in *.
  assert (HmW : 0 < W * pW) by (apply Z.mul_pos_pos; lia).
  assert (HmH : 0 < H * pH) by (apply Z.mul_pos_pos; lia).
  assert (Hmv : 0 < v * pv) by (apply Z.mul_pos_pos; lia).
  pose proof (product_error (W * pW) (H * pH) (v * pv) mrho mr q1 q2
                HmW HmH Hmv ltac:(lia) P1 F1 F2) as HD.
  set (Delta := mr * q2 * q1 * (W * pW) - v * pv * (H * pH) * 2 ^ 53) in *.
  set (Kd := q1 * q2 * pW).
  assert (HKd : 0 < Kd) by (unfold Kd; repeat apply Z.mul_pos_pos; lia).
  assert (Hpp : 0 < pv * pH) by (apply Z.mul_pos_pos; lia).
  assert (HvHp : v * pv * (H * pH) = v * H * (pv * pH)) by ring.
  (* the exponent of the product is negative *)
  assert (HBpos : 1 < B).
  { assert (L1 : 2 ^ 53 * (mr * Kd * W) <= v * H * (pv * pH) * (2 ^ 106 + 2 ^ 54 + 1)).
    { replace (mr * Kd * W) with (Delta + v * pv * (H * pH) * 2 ^ 53)
        by (unfold Delta, Kd; ring).
      rewrite HvHp in *. lia. }
    assert (L2 : 2 ^ 52 * Kd <= mr * Kd * W).
    { replace (mr * Kd * W) with (mr * W * Kd) by ring.
      apply Z.mul_le_mono_nonneg_r; [lia|]. nia. }
    assert (L3 : v * H * (pv * pH) <= 2 ^ 50 * (pv * pH))
      by (apply Z.mul_le_mono_nonneg_r; lia).
    assert (L4 : 2 ^ 105 * Kd < 2 ^ 157 * (pv * pH)) by lia.
    assert (E1 : 2 ^ 105 * Kd = 2 ^ (105 + c1 + c2 + aW)).
    { unfold Kd, q1, q2, pW. rewrite !Z.pow_add_r by lia. ring. }
    assert (E2 : 2 ^ 157 * (pv * pH) = 2 ^ (157 + av + aH)).
    { unfold pv, pH. rewrite !Z.pow_add_r by lia. ring. }
    rewrite E1, E2 in L4.
    apply Z.pow_lt_mono_r_iff in L4; lia. }
  split; [lia|].
  specialize (Hh ltac:(lia)).
  pose proof (pow2_pos B ltac:(lia)) as PB0.
  assert (Hp1 : 2 ^ (B + 1) = 2 * 2 ^ B) by (rewrite Z.pow_add_r, Z.pow_1_r by lia; ring).
  rewrite Hp1 in Hh.
  set (PB := 2 ^ B) in *.
  assert (Hid : Kd * PB = pv * pH * 2 ^ 53).
  { unfold Kd, q1, q2, pW, PB, pv, pH. rewrite <- !Z.pow_add_r by lia.
    f_equal. lia. }
  set (delta := mr * W - v * H * PB).
  assert (Hdel : delta * Kd = Delta).
  { unfold delta, Delta. rewrite HvHp.
    replace (v * H * (pv * pH) * 2 ^ 53) with (v * H * (pv * pH * 2 ^ 53)) by ring.
    rewrite <- Hid. unfold Kd. ring. }
  assert (Hsmall : 2 * Z.abs delta < PB).
  { assert (M1 : 2 ^ 53 * (Z.abs delta * Kd) <= v * H * (pv * pH) * (2 ^ 54 + 1)).
    { rewrite <- (Z.abs_eq Kd) at 1 by lia. rewrite <- Z.abs_mul, Hdel.
      rewrite <- HvHp. exact HD. }
    assert (M2 : 2 ^ 53 * (Z.abs delta * Kd) * PB
                 <= v * H * (pv * pH) * (2 ^ 54 + 1) * PB)
      by (apply Z.mul_le_mono_nonneg_r; lia).
    replace (2 ^ 53 * (Z.abs delta * Kd) * PB)
      with (2 ^ 106 * Z.abs delta * (pv * pH)) in M2
      by (replace (2 ^ 53 * (Z.abs delta * Kd) * PB)
            with (2 ^ 53 * Z.abs delta * (Kd * PB)) by ring;
          rewrite Hid; change (2 ^ 106) with (2 ^ 53 * 2 ^ 53); ring).
    replace (v * H * (pv * pH) * (2 ^ 54 + 1) * PB)
      with (v * H * (2 ^ 54 + 1) * PB * (pv * pH)) in M2 by ring.
    apply Z.mul_le_mono_pos_r in M2; [|exact Hpp].
    assert (M3 : v * H * (2 ^ 54 + 1) * PB <= 2 ^ 50 * (2 ^ 54 + 1) * PB).
    { apply Z.mul_le_mono_nonneg_r; [lia|].
      apply Z.mul_le_mono_nonneg_r; lia. }
    lia. }
  assert (Hmr_eq : mr * W = v * H * PB + delta) by (unfold delta; ring).
  destruct Hh as [Hlo Hhi].
  assert (U1 : 2 * PB * h * W <= (2 * mr + PB) * W)
    by (apply Z.mul_le_mono_nonneg_r; lia).
  assert (U2 : (2 * mr + PB) * W < 2 * PB * (h + 1) * W)
    by (apply Z.mul_lt_mono_pos_r; lia).
  replace ((2 * mr + PB) * W) with (2 * (v * H * PB + delta) + PB * W) in U1, U2
    by (rewrite <- Hmr_eq; ring).
  assert (V1 : PB * (2 * (h * W) - 2 * (v * H) - W) < PB * 1) by lia.
  assert (V2 : PB * (2 * (v * H) - 2 * (h * W) - W) < PB * 1) by lia.
  apply Z.mul_lt_mono_pos_l in V1; [|exact PB0].
  apply Z.mul_lt_mono_pos_l in V2; [|exact PB0].
  lia.
Qed.

(** What the locked width edit stores as height: for integer dimensions
    in range, the integer nearest to [v * H / W]. *)
Lemma locked_height_nearest (W H v : Z) :
  0 < W < 2 ^ 53 -> 0 < H -> 0 < v -> v * H <= 2 ^ 50 ->
  exists h,
    JS.to_Z (JS.Math_round (JS.mul (JS.of_Z v) (JS.div (JS.of_Z H) (JS.of_Z W))))
      = Some h /\
    0 <= h /\ 2 * Z.abs (h * W - v * H) <= W.
Proof.
  intros HW HH Hv HvH.
  assert (HH' : H < 2 ^ 53) by nia.
  assert (Hv' : v < 2 ^ 53) by nia.
  destruct (of_Z_pos W HW) as (mW & aW & EW & HaW & HmW & NW).
  destruct (of_Z_pos H (conj HH HH')) as (mH & aH & EH & HaH & HmH & NH).
  destruct (of_Z_pos v (conj Hv Hv')) as (mv & av & Ev & Hav & Hmv & Nv).
  unfold JS.of_Z, JS.mul, JS.div. rewrite EW, EH, Ev.
  destruct (div_pos mH (- aH) mW (- aW) NH NW ltac:(lia))
    as (mrho & erho & Ed & Nrho & Herho & F1).
  rewrite Ed.
  destruct (mul_pos mv (- av) mrho erho Nv Nrho ltac:(lia))
    as (mr & er & Em & Nr & Her & F2).
  rewrite Em.
  set (c1 := erho - (- aH - - aW - 53)) in *.
  set (c2 := er - (- av + erho)) in *.
  assert (Hc1 : 0 <= c1) by (unfold c1; lia).
  assert (Hc2 : 0 <= c2) by (unfold c2; lia).
  assert (HB : - er = av + aH + 53 - c1 - c2 - aW) by (unfold c1, c2; lia).
  subst mW mH mv.
  unfold normal in Nrho, Nr.
  destruct (Z.ltb_spec er 0) as [Hneg|Hpos].
  - destruct (Math_round_pos mr er Nr Hneg) as (h & Hto & Hh0 & Hfl).
    exists h. split; [exact Hto|]. split; [exact Hh0|].
    apply (nearest_height W H v aW aH av mrho c1 mr c2 (- er) h); try lia.
  - exfalso.
    assert (0 < - er); [|lia].
    apply (nearest_height W H v aW aH av mrho c1 mr c2 (- er) 0); try lia.
Qed.

(** ** The aspect ratio of a locked width edit *)

Lemma ratio_gap_bound (h v H W : Z) :
  0 < v -> 0 < W -> 2 * Z.abs (h * W - v * H) <= W ->
  (ratio_gap h v H W <= 1 / inject_Z (2 * v))%Q.
Proof.
  intros Hv HW Hb. unfold ratio_gap.
  destruct v as [|pv|pv]; try lia. destruct W as [|pW|pW]; try lia.
  apply Qabs_Qle_condition.
  unfold Qle, Qdiv, Qminus, Qplus, Qopp, Qmult, Qinv, inject_Z.
  cbn [Qnum Qden Z.mul Pos.mul Z.opp].
  change (Z.neg (pv * pW)) with (- Z.pos (pv * pW)).
  rewrite Pos2Z.inj_mul, (Pos2Z.inj_xO pv).
  set (a := Z.pos pv) in *. set (b := Z.pos pW) in *.
  assert (E : (h * 1 * b + - (H * 1) * a) * (2 * a) = a * (2 * (h * b - a * H)))
    by ring.
  rewrite E.
  assert (- b <= 2 * (h * b - a * H) <= b) by lia.
  split.
  - replace (- (a * b)) with (a * - b) by ring. apply Z.mul_le_mono_nonneg_l; lia.
  - apply Z.mul_le_mono_nonneg_l; lia.
Qed.

(** A positive integer below 2^53 is a number above zero. *)
Lemma of_Z_pos_sign (n : Z) :
  0 < n < 2 ^ 53 ->
  JS.lt (JS.of_Z n) JS.n0 = false /\ JS.gt (JS.of_Z n) JS.n0 = true.
Proof.
  intros Hn. destruct (of_Z_pos n Hn) as (m & a & Heq & _).
  unfold JS.of_Z. rewrite Heq. split; reflexivity.
Qed.

(** C4 as stated fails: for a 1000x600 original with the lock on, width 1
    gives height [Math.round (0.6) = 1]; the ratio 1/1 is 0.4 away from
    600/1000, far more than 1/600. *)
Lemma aspect_tolerance_fails :
  JS.to_Z (width (editDimension (dims 1000 600) optsA key_width (JS.of_Z 1)))
    = Some 1 /\
  JS.to_Z (height (editDimension (dims 1000 600) optsA key_width (JS.of_Z 1)))
    = Some 1 /\
  ~ (ratio_gap 1 1 600 1000 <= 1 / inject_Z (Z.min 1000 600))%Q.
Proof.
  split; [reflexivity|]. split; [reflexivity|].
  intros H. vm_compute in H. apply H. reflexivity.
Qed.

(** C4 as the code has it.  For integer original dimensions [W] x [H] and
    an integer width [v], all positive, with [W] below 2^53 and [v * H] at
    most 2^50, the locked width edit stores width [v] and an integer
    height [h] that is nearest to [v * H / W]: [|h * W - v * H| <= W / 2],
    that is [|h / v - H / W| <= 1 / (2 * v)]. *)
Theorem locked_width_keeps_ratio (options : ResizeOptions) (W H v : Z) :
  0 < W < 2 ^ 53 -> 0 < H -> 0 < v -> v * H <= 2 ^ 50 ->
  maintainAspectRatio options = true ->
  exists h,
    JS.to_Z (width (editDimension (dims W H) options key_width (JS.of_Z v)))
      = Some v /\
    JS.to_Z (height (editDimension (dims W H) options key_width (JS.of_Z v)))
      = Some h /\
    2 * Z.abs (h * W - v * H) <= W /\
    (ratio_gap h v H W <= 1 / inject_Z (2 * v))%Q.
Proof.
  intros HW HH Hv HvH Hlock.
  assert (Hv' : 0 < v < 2 ^ 53) by nia.
  destruct (of_Z_pos_sign v Hv') as [Hlt _].
  destruct (of_Z_pos_sign W HW) as [_ Hgt].
  rewrite (editDimension_width_locked (dims W H) options (JS.of_Z v) Hlt Hlock Hgt).
  cbn [width height dims dim_width dim_height].
  destruct (locked_height_nearest W H v HW HH Hv HvH) as (h & Hh & _ & Hb).
  exists h. split; [now apply to_Z_of_Z_pos|].
  split; [exact Hh|]. split; [exact Hb|].
  apply ratio_gap_bound; lia.
Qed.

Lemma locked_width_keeps_ratio_witness :
  exists h,
    JS.to_Z (width (editDimension (dims 2000 1000) optsA key_width (JS.of_Z 1000)))
      = Some 1000 /\
    JS.to_Z (height (editDimension (dims 2000 1000) optsA key_width (JS.of_Z 1000)))
      = Some h /\
    2 * Z.abs (h * 2000 - 1000 * 1000) <= 2000 /\
    (ratio_gap h 1000 1000 2000 <= 1 / inject_Z (2 * 1000))%Q.
Proof.
  apply (locked_width_keeps_ratio optsA 2000 1000 1000).
  - split; reflexivity.
  - reflexivity.
  - reflexivity.
  - discriminate.
  - reflexivity.
Defined.

(** ** A remark on rounding

    The percentage edit multiplies by the rounded quotient [p / 100].  At
    29 percent of a width of 50 the double product is just below 14.5
    and the stored width is 14. *)
Lemma percentage_29_of_50 :
  width (editPercentage (dims 50 50) optsA (JS.of_Z 29)) = JS.of_Z 14.
Proof. reflexivity. Qed.

(** ** More on the dimension resolver *)

Lemma edit_frame (originalDims : ImageDimensions)
    (options : ResizeOptions) (key : DimKey) (value : JS.number) :
  (mode (editDimension originalDims options key value) = mode options /\
   quality (editDimension originalDims options key value) = quality options /\
   format (editDimension originalDims options key value) = format options /\
   maintainAspectRatio (editDimension originalDims options key value)
     = maintainAspectRatio options) /\
  (mode (editPercentage originalDims options value) = mode options /\
   quality (editPercentage originalDims options value) = quality options /\
   format (editPercentage originalDims options value) = format options /\
   maintainAspectRatio (editPercentage originalDims options value)
     = maintainAspectRatio options).
Proof.
  split; [|repeat split].
  unfold editDimension, updateDimensions.
  destruct (JS.lt value JS.n0); [repeat split|].
  destruct key;
    match goal with |- context [if ?b then _ else _] => destruct b end;
    repeat split.
Qed.

(** X1. Neither a dimension edit nor a percentage edit changes the resize
    mode, the quality, the format or the aspect-ratio lock: the handlers
    write [width], [height] and [percentage] only. *)
Theorem edits_keep_encoding_options (originalDims : ImageDimensions)
    (options : ResizeOptions) (key : DimKey) (value : JS.number) :
  (mode (editDimension originalDims options key value) = mode options /\
   quality (editDimension originalDims options key value) = quality options /\
   format (editDimension originalDims options key value) = format options /\
   maintainAspectRatio (editDimension originalDims options key value)
     = maintainAspectRatio options) /\
  (mode (editPercentage originalDims options value) = mode options /\
   quality (editPercentage originalDims options value) = quality options /\
   format (editPercentage originalDims options value) = format options /\
   maintainAspectRatio (editPercentage originalDims options value)
     = maintainAspectRatio options).
Proof. exact (edit_frame originalDims options key value). Qed.

(** X2. Entering the same value in the same field twice is the same as
    entering it once: what [updateDimensions] stores does not depend on
    the width, height or percentage it replaces. *)
Theorem editDimension_idempotent (originalDims : ImageDimensions)
    (options : ResizeOptions) (key : DimKey) (value : JS.number) :
  editDimension originalDims
    (editDimension originalDims options key value) key value =
  editDimension originalDims options key value.
Proof.
  destruct (JS.lt value JS.n0) eqn:Hv.
  - now rewrite !editDimension_negative.
  - destruct key.
    + destruct (maintainAspectRatio options && JS.gt (dim_width originalDims) JS.n0) eqn:Hc.
      * apply andb_prop in Hc. destruct Hc as [Hl Hw].
        rewrite (editDimension_width_locked originalDims options value Hv Hl Hw).
        now rewrite editDimension_width_locked.
      * rewrite (editDimension_width_free originalDims options value Hv Hc).
        now rewrite editDimension_width_free.
    + destruct (maintainAspectRatio options && JS.gt (dim_height originalDims) JS.n0) eqn:Hc.
      * apply andb_prop in Hc. destruct Hc as [Hl Hw].
        rewrite (editDimension_height_locked originalDims options value Hv Hl Hw).
        now rewrite editDimension_height_locked.
      * rewrite (editDimension_height_free originalDims options value Hv Hc).
        now rewrite editDimension_height_free.
Qed.

(** X3. The last edit wins.  A percentage edit after any dimension or
    percentage edit gives the options the percentage edit alone gives;
    with the lock on and an original width above zero, a width edit (to a
    value that is not negative) after a percentage edit gives what the
    width edit alone gives. *)
Theorem last_edit_wins (originalDims : ImageDimensions)
    (options : ResizeOptions) (key : DimKey) (value p : JS.number) :
  editPercentage originalDims (editDimension originalDims options key value) p
    = editPercentage originalDims options p /\
  editPercentage originalDims (editPercentage originalDims options value) p
    = editPercentage originalDims options p /\
  (JS.lt value JS.n0 = false ->
   maintainAspectRatio options = true ->
   JS.gt (dim_width originalDims) JS.n0 = true ->
   editDimension originalDims (editPercentage originalDims options p) key_width value
     = editDimension originalDims options key_width value).
Proof.
  split; [|split].
  - unfold editPercentage, updatePercentage.
    destruct (edit_frame originalDims options key value)
      as [(-> & -> & -> & ->) _]. reflexivity.
  - reflexivity.
  - intros Hv Hl Hw.
    rewrite (editDimension_width_locked originalDims options value Hv Hl Hw).
    rewrite editDimension_width_locked; auto.
Qed.

Lemma last_edit_wins_witness :
  editDimension (dims 2000 1000) (editPercentage (dims 2000 1000) optsA (JS.of_Z 25))
    key_width (JS.of_Z 1000)
  = editDimension (dims 2000 1000) optsA key_width (JS.of_Z 1000).
Proof.
  apply (last_edit_wins (dims 2000 1000) optsA key_width (JS.of_Z 1000) (JS.of_Z 25));
    reflexivity.
Defined.

(** *** Integers as numbers *)

Lemma mul_comm (x y : JS.number) : JS.mul x y = JS.mul y x.
Proof.
  destruct x as [sx|sx| |sx mx ex], y as [sy|sy| |sy my ey]; cbn [JS.mul SFmul];
    try reflexivity; try (now rewrite xorb_comm).
  now rewrite xorb_comm, Pos.mul_comm, Z.add_comm.
Qed.

Lemma Math_round_pos_eq (m e : Z) :
  normal m -> e < 0 ->
  exists h, JS.Math_round (Fl m e) = JS.of_Z h /\ 0 <= h < 2 ^ 53 /\
            2 ^ (- e + 1) * h <= 2 * m + 2 ^ (- e) < 2 ^ (- e + 1) * (h + 1).
Proof.
  intros Hm He. unfold normal in Hm.
  assert (Pm : Z.pos (Z.to_pos m) = m) by (apply Z2Pos.id; lia).
  unfold Fl, JS.Math_round.
  destruct (Z.leb_spec 0 e); [lia|].
  rewrite Pm. cbn [cond_Zopp].
  set (B := - e).
  assert (HB : 1 <= B) by (unfold B; lia).
  assert (HpB : 2 <= 2 ^ B).
  { change 2 with (2 ^ 1) at 1. apply Z.pow_le_mono_r; lia. }
  assert (Hp1 : 2 ^ (B + 1) = 2 * 2 ^ B) by (rewrite Z.pow_add_r, Z.pow_1_r by lia; ring).
  set (n := (2 * m + 2 ^ B) / 2 ^ (B + 1)).
  assert (Hdiv : 2 ^ (B + 1) * n <= 2 * m + 2 ^ B < 2 ^ (B + 1) * (n + 1)).
  { unfold n. split.
    - apply Z.mul_div_le. lia.
    - replace (2 ^ (B + 1) * ((2 * m + 2 ^ B) / 2 ^ (B + 1) + 1))
        with (2 ^ (B + 1) * Z.succ ((2 * m + 2 ^ B) / 2 ^ (B + 1))) by (f_equal; lia).
      apply Z.mul_succ_div_gt. lia. }
  assert (Hn0 : 0 <= n) by (unfold n; apply Z.div_pos; lia).
  assert (Hn1 : n < 2 ^ 53).
  { destruct (Z.ltb_spec n (2 ^ 53)); [assumption|].
    assert (2 ^ (B + 1) * 2 ^ 53 <= 2 ^ (B + 1) * n)
      by (apply Z.mul_le_mono_nonneg_l; lia).
    lia. }
  exists n. split; [|split; [lia|assumption]].
  destruct n as [|p|p] eqn:En; try lia; reflexivity.
Qed.

(** The rounded product [Math.round (v * (H / W))] of integers in range is
    the integer nearest to [v * H / W], as a number. *)
Lemma rounded_product_nearest (W H v : Z) :
  0 < W < 2 ^ 53 -> 0 < H -> 0 < v -> v * H <= 2 ^ 50 ->
  exists h,
    JS.Math_round (JS.mul (JS.of_Z v) (JS.div (JS.of_Z H) (JS.of_Z W))) = JS.of_Z h /\
    0 <= h < 2 ^ 53 /\ 2 * Z.abs (h * W - v * H) <= W.
Proof.
  intros HW HH Hv HvH.
  assert (HH' : H < 2 ^ 53) by nia.
  assert (Hv' : v < 2 ^ 53) by nia.
  destruct (of_Z_pos W HW) as (mW & aW & EW & HaW & HmW & NW).
  destruct (of_Z_pos H (conj HH HH')) as (mH & aH & EH & HaH & HmH & NH).
  destruct (of_Z_pos v (conj Hv Hv')) as (mv & av & Ev & Hav & Hmv & Nv).
  unfold JS.mul, JS.div. unfold JS.of_Z at 1 2 3. rewrite EW, EH, Ev.
  destruct (div_pos mH (- aH) mW (- aW) NH NW ltac:(lia))
    as (mrho & erho & Ed & Nrho & Herho & F1).
  rewrite Ed.
  destruct (mul_pos mv (- av) mrho erho Nv Nrho ltac:(lia))
    as (mr & er & Em & Nr & Her & F2).
  rewrite Em.
  set (c1 := erho - (- aH - - aW - 53)) in *.
  set (c2 := er - (- av + erho)) in *.
  assert (Hc1 : 0 <= c1) by (unfold c1; lia).
  assert (Hc2 : 0 <= c2) by (unfold c2; lia).
  assert (HB : - er = av + aH + 53 - c1 - c2 - aW) by (unfold c1, c2; lia).
  subst mW mH mv.
  unfold normal in Nrho, Nr.
  destruct (Z.ltb_spec er 0) as [Hneg|Hpos].
  - destruct (Math_round_pos_eq mr er Nr Hneg) as (h & Hto & Hh0 & Hfl).
    exists h. split; [exact Hto|]. split; [exact Hh0|].
    apply (nearest_height W H v aW aH av mrho c1 mr c2 (- er) h); try lia.
  - exfalso.
    assert (0 < - er); [|lia].
    apply (nearest_height W H v aW aH av mrho c1 mr c2 (- er) 0); try lia.
Qed.

(** Numbers made from integers below 2^53 compare like the integers. *)
Lemma of_Z_lt (a b : Z) :
  0 < a < 2 ^ 53 -> 0 < b < 2 ^ 53 ->
  JS.lt (JS.of_Z a) (JS.of_Z b) = (a <? b).
Proof.
  intros Ha Hb.
  destruct (of_Z_pos a Ha) as (ma & ka & Ea & Hka & Hma & Na).
  destruct (of_Z_pos b Hb) as (mb & kb & Eb & Hkb & Hmb & Nb).
  unfold JS.of_Z. rewrite Ea, Eb. unfold normal in Na, Nb.
  unfold JS.lt, SFltb, Fl, SFcompare.
  assert (Pa : 0 < 2 ^ ka) by (apply Z.pow_pos_nonneg; lia).
  assert (Pb : 0 < 2 ^ kb) by (apply Z.pow_pos_nonneg; lia).
  destruct (Z.compare_spec (- ka) (- kb)) as [E|E|E].
  - assert (ka = kb) by lia. subst kb.
    change (PosDef.Pos.compare_cont Eq (Z.to_pos ma) (Z.to_pos mb))
      with (Pos.compare (Z.to_pos ma) (Z.to_pos mb)).
    rewrite <- Z2Pos.inj_compare by lia.
    destruct (Z.compare_spec ma mb) as [C|C|C]; symmetry.
    + apply Z.ltb_ge. nia.
    + apply Z.ltb_lt. nia.
    + apply Z.ltb_ge. nia.
  - symmetry. apply Z.ltb_lt.
    assert (E2 : 2 ^ ka = 2 ^ kb * 2 ^ (ka - kb))
      by (rewrite <- Z.pow_add_r by lia; f_equal; lia).
    assert (2 <= 2 ^ (ka - kb)).
    { change 2 with (2 ^ 1) at 1. apply Z.pow_le_mono_r; lia. }
    nia.
  - symmetry. apply Z.ltb_ge.
    assert (E2 : 2 ^ kb = 2 ^ ka * 2 ^ (kb - ka))
      by (rewrite <- Z.pow_add_r by lia; f_equal; lia).
    assert (2 <= 2 ^ (kb - ka)).
    { change 2 with (2 ^ 1) at 1. apply Z.pow_le_mono_r; lia. }
    nia.
Qed.

Lemma or_else_of_Z (p : Z) : 0 <= p < 2 ^ 53 -> JS.or_else (JS.of_Z p) JS.n0 = JS.of_Z p.
Proof.
  intros Hp. destruct (Z.eq_dec p 0) as [->|Hne]; [reflexivity|].
  destruct (of_Z_pos p ltac:(lia)) as (m & a & E & _).
  unfold JS.of_Z. rewrite E. reflexivity.
Qed.

Lemma percentage_of_nearest (W H v : Z) :
  0 < W < 2 ^ 53 -> 0 < v -> 100 * v <= 2 ^ 50 ->
  exists p, percentage_of (dims W H) (JS.of_Z v) = JS.of_Z p /\
            0 <= p < 2 ^ 53 /\ 2 * Z.abs (p * W - 100 * v) <= W.
Proof.
  intros HW Hv Hb. unfold percentage_of. cbn [dims dim_width].
  rewrite mul_comm. change JS.n100 with (JS.of_Z 100).
  destruct (rounded_product_nearest W v 100 HW Hv ltac:(lia) Hb) as (p & Ep & Hp & Hn).
  exists p. rewrite Ep, or_else_of_Z by assumption. auto.
Qed.

(** X4. After a width edit to [v], lock on or off, the stored percentage is
    an integer within one half of [100 * v / W], both roundings of
    [Math.round ((v / W) * 100)] taken into account; for an original width
    [W] below [2^53] and [100 * v <= 2^50]. *)
Theorem width_edit_percentage_nearest (options : ResizeOptions) (W H v : Z) :
  0 < W < 2 ^ 53 -> 0 < v -> 100 * v <= 2 ^ 50 ->
  exists p,
    percentage (editDimension (dims W H) options key_width (JS.of_Z v)) = JS.of_Z p /\
    0 <= p /\ 2 * Z.abs (p * W - 100 * v) <= W.
Proof.
  intros HW Hv Hb.
  destruct (of_Z_pos_sign v ltac:(lia)) as [Hlt _].
  destruct (percentage_of_nearest W H v HW Hv Hb) as (p & Ep & Hp & Hn).
  exists p. split; [|split; [lia|exact Hn]].
  destruct (maintainAspectRatio options && JS.gt (dim_width (dims W H)) JS.n0) eqn:Hc.
  - apply andb_prop in Hc. destruct Hc as [Hl Hg].
    rewrite (editDimension_width_locked _ _ _ Hlt Hl Hg). exact Ep.
  - rewrite (editDimension_width_free _ _ _ Hlt Hc). exact Ep.
Qed.

Lemma width_edit_percentage_nearest_witness :
  exists p,
    percentage (editDimension (dims 2000 1000) optsA key_width (JS.of_Z 333))
      = JS.of_Z p /\
    0 <= p /\ 2 * Z.abs (p * 2000 - 100 * 333) <= 2000.
Proof.
  apply (width_edit_percentage_nearest optsA 2000 1000 333).
  - split; reflexivity.
  - reflexivity.
  - discriminate.
Defined.

Lemma percentage_edit_rounds (options : ResizeOptions) (W H p : Z) :
  0 < W -> 0 < H -> 1 <= p <= 500 -> W * p <= 2 ^ 50 -> H * p <= 2 ^ 50 ->
  percentage (editPercentage (dims W H) options (JS.of_Z p)) = JS.of_Z p /\
  exists w h,
    width (editPercentage (dims W H) options (JS.of_Z p)) = JS.of_Z w /\
    height (editPercentage (dims W H) options (JS.of_Z p)) = JS.of_Z h /\
    2 * Z.abs (100 * w - W * p) <= 100 /\
    2 * Z.abs (100 * h - H * p) <= 100.
Proof.
  intros HW HH Hp HWp HHp.
  unfold editPercentage, updatePercentage. cbn [width height percentage dims dim_width dim_height].
  change JS.n1 with (JS.of_Z 1). change JS.n500 with (JS.of_Z 500).
  pose proof of_Z_lt as L. unfold JS.lt in L. unfold JS.gt, JS.lt.
  rewrite (L p 1) by lia.
  replace (p <? 1) with false by (symmetry; apply Z.ltb_ge; lia).
  rewrite (L 500 p) by lia.
  replace (500 <? p) with false by (symmetry; apply Z.ltb_ge; lia).
  split; [reflexivity|].
  change JS.n100 with (JS.of_Z 100).
  destruct (rounded_product_nearest 100 p W ltac:(lia) ltac:(lia) HW HWp)
    as (w & Ew & _ & Hw).
  destruct (rounded_product_nearest 100 p H ltac:(lia) ltac:(lia) HH HHp)
    as (h & Eh & _ & Hh).
  exists w, h. rewrite Ew, Eh. repeat split; try reflexivity.
  - replace (100 * w - W * p) with (w * 100 - W * p) by ring. exact Hw.
  - replace (100 * h - H * p) with (h * 100 - H * p) by ring. exact Hh.
Qed.

(** X5. A percentage edit to an integer [p] from 1 to 500 stores [p] as it
    is and sets width and height to integers within one half of
    [W * p / 100] and [H * p / 100]; for [W * p] and [H * p] up to
    [2^50]. *)
Theorem percentage_edit_nearest (options : ResizeOptions) (W H p : Z) :
  0 < W -> 0 < H -> 1 <= p <= 500 -> W * p <= 2 ^ 50 -> H * p <= 2 ^ 50 ->
  percentage (editPercentage (dims W H) options (JS.of_Z p)) = JS.of_Z p /\
  exists w h,
    width (editPercentage (dims W H) options (JS.of_Z p)) = JS.of_Z w /\
    height (editPercentage (dims W H) options (JS.of_Z p)) = JS.of_Z h /\
    2 * Z.abs (100 * w - W * p) <= 100 /\
    2 * Z.abs (100 * h - H * p) <= 100.
Proof. exact (percentage_edit_rounds options W H p). Qed.

Lemma percentage_edit_nearest_witness :
  percentage (editPercentage (dims 50 50) optsA (JS.of_Z 29)) = JS.of_Z 29 /\
  exists w h,
    width (editPercentage (dims 50 50) optsA (JS.of_Z 29)) = JS.of_Z w /\
    height (editPercentage (dims 50 50) optsA (JS.of_Z 29)) = JS.of_Z h /\
    2 * Z.abs (100 * w - 50 * 29) <= 100 /\
    2 * Z.abs (100 * h - 50 * 29) <= 100.
Proof.
  apply (percentage_edit_nearest optsA 50 50 29).
  - reflexivity.
  - reflexivity.
  - split; discriminate.
  - discriminate.
  - discriminate.
Defined.

(** X6. The locked height edit, counterpart of the locked width edit: with
    the lock on, a height edit to [v] stores [v] and sets the width to an
    integer within one half of [v * W / H], so that the new aspect ratio
    differs from the original's by at most [1 / (2 v)]. *)
Theorem locked_height_keeps_ratio (options : ResizeOptions) (W H v : Z) :
  0 < H < 2 ^ 53 -> 0 < W -> 0 < v -> v * W <= 2 ^ 50 ->
  maintainAspectRatio options = true ->
  height (editDimension (dims W H) options key_height (JS.of_Z v)) = JS.of_Z v /\
  exists w,
    width (editDimension (dims W H) options key_height (JS.of_Z v)) = JS.of_Z w /\
    0 <= w /\ 2 * Z.abs (w * H - v * W) <= H /\
    (ratio_gap w v W H <= 1 / inject_Z (2 * v))%Q.
Proof.
  intros HH HW Hv Hb Hlock.
  assert (Hv' : 0 < v < 2 ^ 53) by nia.
  destruct (of_Z_pos_sign v Hv') as [Hlt _].
  destruct (of_Z_pos_sign H HH) as [_ Hgt].
  rewrite (editDimension_height_locked (dims W H) options (JS.of_Z v) Hlt Hlock Hgt).
  cbn [width height dims dim_width dim_height].
  split; [reflexivity|].
  destruct (rounded_product_nearest H W v HH HW Hv Hb) as (w & Ew & Hw & Hn).
  exists w. split; [exact Ew|]. split; [lia|]. split; [exact Hn|].
  apply ratio_gap_bound; lia.
Qed.

Lemma locked_height_keeps_ratio_witness :
  height (editDimension (dims 2000 1000) optsA key_height (JS.of_Z 333)) = JS.of_Z 333 /\
  exists w,
    width (editDimension (dims 2000 1000) optsA key_height (JS.of_Z 333)) = JS.of_Z w /\
    0 <= w /\ 2 * Z.abs (w * 1000 - 333 * 2000) <= 1000 /\
    (ratio_gap w 333 2000 1000 <= 1 / inject_Z (2 * 333))%Q.
Proof.
  apply (locked_height_keeps_ratio optsA 2000 1000 333).
  - split; reflexivity.
  - reflexivity.
  - reflexivity.
  - discriminate.
  - reflexivity.
Defined.

(** A 100 percent edit stores the original dimensions. *)
Lemma percent_100_is_original (options : ResizeOptions) (W H : Z) :
  0 < W -> 0 < H -> 100 * W <= 2 ^ 50 -> 100 * H <= 2 ^ 50 ->
  width (editPercentage (dims W H) options (JS.of_Z 100)) = JS.of_Z W /\
  height (editPercentage (dims W H) options (JS.of_Z 100)) = JS.of_Z H /\
  percentage (editPercentage (dims W H) options (JS.of_Z 100)) = JS.of_Z 100.
Proof.
  intros HW HH HbW HbH.
  destruct (percentage_edit_rounds options W H 100 HW HH ltac:(lia) ltac:(lia) ltac:(lia))
    as (Ep & w & h & Ew & Eh & Hw & Hh).
  rewrite Ew, Eh, Ep.
  assert (w = W) by lia. assert (h = H) by lia. subst. auto.
Qed.

(** X7. Back to the original size.  A 100 percent edit stores exactly the
    original width and height; with the lock on, a width edit to the
    original width stores the original height and 100 percent. *)
Theorem original_size_round_trip (options : ResizeOptions) (W H : Z) :
  0 < W -> 0 < H -> 100 * W <= 2 ^ 50 -> 100 * H <= 2 ^ 50 -> W * H <= 2 ^ 50 ->
  (width (editPercentage (dims W H) options (JS.of_Z 100)) = JS.of_Z W /\
   height (editPercentage (dims W H) options (JS.of_Z 100)) = JS.of_Z H /\
   percentage (editPercentage (dims W H) options (JS.of_Z 100)) = JS.of_Z 100) /\
  (maintainAspectRatio options = true ->
   width (editDimension (dims W H) options key_width (JS.of_Z W)) = JS.of_Z W /\
   height (editDimension (dims W H) options key_width (JS.of_Z W)) = JS.of_Z H /\
   percentage (editDimension (dims W H) options key_width (JS.of_Z W)) = JS.of_Z 100).
Proof.
  intros HW HH HbW HbH HbWH. split.
  - destruct (percentage_edit_rounds options W H 100 HW HH ltac:(lia) ltac:(lia) ltac:(lia))
      as (Ep & w & h & Ew & Eh & Hw & Hh).
    rewrite Ew, Eh, Ep.
    assert (w = W) by lia. assert (h = H) by lia. subst. auto.
  - intros Hlock.
    assert (HW' : 0 < W < 2 ^ 53) by lia.
    destruct (of_Z_pos_sign W HW') as [Hlt Hgt].
    rewrite (editDimension_width_locked (dims W H) options (JS.of_Z W) Hlt Hlock Hgt).
    cbn [width height percentage dims dim_width dim_height].
    split; [reflexivity|].
    destruct (rounded_product_nearest W H W HW' HH HW HbWH) as (h & Eh & _ & Hh).
    destruct (percentage_of_nearest W H W HW' HW HbW) as (p & Ep & _ & Hp).
    change (dim_height (dims W H)) with (JS.of_Z H).
    assert (h = H) by nia. assert (p = 100) by nia. subst.
    split; [exact Eh|exact Ep].
Qed.

Lemma original_size_round_trip_witness :
  width (editDimension (dims 800 600) optsA key_width (JS.of_Z 800)) = JS.of_Z 800 /\
  height (editDimension (dims 800 600) optsA key_width (JS.of_Z 800)) = JS.of_Z 600 /\
  percentage (editDimension (dims 800 600) optsA key_width (JS.of_Z 800)) = JS.of_Z 100.
Proof.
  apply (original_size_round_trip optsA 800 600);
    try reflexivity; discriminate.
Defined.

(** ** More on the resize scheduler *)

Section SchedulerMore.

Import Scheduler.

Lemma clearTimeout_length (id : nat) (ts : list Timer) :
  (List.length (clearTimeout id ts) <= List.length ts)%nat.
Proof. unfold clearTimeout. apply filter_length_le. Qed.

Lemma Forall_clearTimeout (P : Timer -> Prop) (id : nat) (ts : list Timer) :
  Forall P ts -> Forall P (clearTimeout id ts).
Proof.
  intros H. apply Forall_forall. intros t Ht.
  apply clearTimeout_incl in Ht. exact (proj1 (Forall_forall _ _) H t Ht).
Qed.

Lemma healthy_render (s : State) (src : option string) (o : ResizeOptions) :
  healthy s -> healthy (render src o s).
Proof.
  intros (Hwf & Hlen & Ht & Hi & Hs & Hg).
  split; [now apply wf_render|].
  destruct (same_deps (previewSrc s) (options s) src o) eqn:Hd.
  - unfold render. rewrite Hd. cbn [timers inflight started]. auto.
  - destruct (render_changed s src o Hwf Hd)
      as (_ & _ & _ & Es & Ei & _ & Hy & Hn).
    rewrite Es, Ei.
    destruct (rasterizable src o) eqn:Hr.
    + destruct (Hy eq_refl) as (x & -> & Etm & _ & _). rewrite Etm.
      repeat split; auto; try (constructor; [exact Hr|constructor]).
    + rewrite (Hn eq_refl). repeat split; auto.
Qed.

Lemma find_timer_in (id : nat) (ts : list Timer) (t : Timer) :
  find_timer id ts = Some t -> In t ts /\ timer_id t = id.
Proof.
  unfold find_timer. intros H. apply find_some in H.
  destruct H as [H1 H2]. apply Nat.eqb_eq in H2. auto.
Qed.

Lemma healthy_step (s s' : State) (ev : Event) :
  healthy s -> step s ev = Some s' -> healthy s'.
Proof.
  intros Hh Hstep.
  pose proof (wf_step s s' ev (proj1 Hh) Hstep) as Hwf'.
  destruct Hh as (Hwf & Hlen & Ht & Hi & Hs & Hg).
  destruct ev as [src o|dt|id|gen out]; simpl in Hstep.
  - injection Hstep as <-. apply healthy_render. repeat split; auto; apply Hwf.
  - destruct (0 <=? dt); [|discriminate]. injection Hstep as <-.
    repeat split; auto; apply Hwf.
  - destruct (find_timer id (timers s)) as [t|] eqn:Ef; [|discriminate].
    destruct (timer_due t <=? now s); [|discriminate].
    injection Hstep as <-.
    apply find_timer_in in Ef. destruct Ef as [Hin _].
    assert (Hjob : job_ok (timer_job t)).
    { exact (proj1 (Forall_forall _ _) Ht t Hin). }
    split; [exact Hwf'|]. cbn [fire timers inflight started].
    split; [pose proof (clearTimeout_length (timer_id t) (timers s)); lia|].
    split; [now apply Forall_clearTimeout|].
    split; [apply Forall_app; split; [exact Hi|constructor; [exact Hjob|constructor]]|].
    split; [apply Forall_app; split; [exact Hs|constructor; [exact Hjob|constructor]]|].
    rewrite length_app. cbn [List.length].
    apply Forall_app. split.
    + eapply Forall_impl; [|exact Hg]. cbn beta. intros r Hr. lia.
    + constructor; [cbn [run_gen]; lia|constructor].
  - destruct (find_run gen (inflight s)) as [r|]; [|discriminate].
    injection Hstep as <-.
    split; [exact Hwf'|]. cbn [settle timers inflight started].
    assert (Hf : forall P : Run -> Prop, Forall P (inflight s) ->
              Forall P (filter (fun r' => negb (Nat.eqb (run_gen r') (run_gen r)))
                               (inflight s))).
    { intros P HP. apply Forall_forall. intros r' Hr'. apply filter_In in Hr'.
      destruct Hr' as [Hr' _]. exact (proj1 (Forall_forall _ _) HP r' Hr'). }
    repeat split; auto.
Qed.

Lemma healthy_mounted (defaults : ResizeOptions) : healthy (mounted defaults).
Proof.
  split; [apply wf_mounted|]. cbn [mounted timers inflight started List.length].
  repeat split; auto.
Qed.

Lemma healthy_run (trace : list Event) (s s' : State) :
  healthy s -> run s trace = Some s' -> healthy s'.
Proof.
  revert s. induction trace as [|ev rest IH]; intros s Hh; simpl.
  - intros E; injection E as <-. exact Hh.
  - destruct (step s ev) as [s1|] eqn:E; [|discriminate].
    apply IH. exact (healthy_step _ _ _ Hh E).
Qed.

Lemma reachable_healthy (defaults : ResizeOptions) (s : State) :
  reachable defaults s -> healthy s.
Proof.
  intros [trace Hrun]. exact (healthy_run _ _ _ (healthy_mounted defaults) Hrun).
Qed.

Lemma clear_current_busy (s : State) :
  isResizing (clear_current s) = isResizing s /\
  resizeTimeoutRef (clear_current s) = resizeTimeoutRef s.
Proof.
  unfold clear_current. destruct (resizeTimeoutRef s) eqn:E; split;
    try reflexivity; exact E.
Qed.

Lemma run_cleanup_busy (s : State) : isResizing (run_cleanup s) = isResizing s.
Proof.
  unfold run_cleanup. destruct (has_cleanup s); [apply clear_current_busy|reflexivity].
Qed.

(** The busy flag after a render with changed dependencies: raised when a
    run is scheduled, left alone when the guard returns. *)
Lemma render_changed_busy (s : State) (src : option string) (o : ResizeOptions) :
  same_deps (previewSrc s) (options s) src o = false ->
  (rasterizable src o = true -> isResizing (render src o s) = true) /\
  (rasterizable src o = false -> isResizing (render src o s) = isResizing s).
Proof.
  intros Hd. unfold render. rewrite Hd. unfold effect.
  match goal with |- context [run_cleanup ?x] =>
    destruct (run_cleanup_keeps x) as (Kp & Ko & _);
    pose proof (run_cleanup_busy x) as Kb
  end.
  cbn [previewSrc options isResizing] in Kp, Ko, Kb.
  rewrite Kp, Ko.
  destruct src as [x|]; cbn [rasterizable].
  - destruct (string_truthy x && JS.truthy (width o) && JS.truthy (height o)).
    + split; [reflexivity|discriminate].
    + split; [discriminate|]. intros _. cbn [with_cleanup isResizing]. exact Kb.
  - split; [discriminate|]. intros _. cbn [with_cleanup isResizing]. exact Kb.
Qed.

Lemma number_is_refl (x : JS.number) : number_is x x = true.
Proof.
  destruct x as [s|s| |s m e]; cbn [number_is]; try reflexivity;
    rewrite ?Bool.eqb_reflx, ?Pos.eqb_refl, ?Z.eqb_refl; reflexivity.
Qed.

Lemma src_is_refl (a : option string) : src_is a a = true.
Proof. destruct a; [apply String.eqb_refl|reflexivity]. Qed.

Lemma format_is_refl (f : ImageFormat) : format_is f f = true.
Proof. destruct f; reflexivity. Qed.

(** With nothing pending and nothing in flight, only time can pass. *)
Lemma quiet_run_idle (trace : list Event) (s s' : State) :
  quiet trace -> timers s = [] -> inflight s = [] -> run s trace = Some s' ->
  isResizing s' = isResizing s /\ resizedSrc s' = resizedSrc s /\
  started s' = started s /\ timers s' = [] /\ inflight s' = [].
Proof.
  revert s. induction trace as [|ev rest IH]; intros s Hq Ht Hi; simpl.
  - intros E; injection E as <-. auto.
  - apply quiet_cons in Hq. destruct Hq as [Hev Hq].
    destruct ev as [src o|dt|id|gen out]; simpl; [elim Hev| | |].
    + destruct (0 <=? dt); [|discriminate]. intros H.
      apply IH in H; auto.
    + rewrite Ht. discriminate.
    + rewrite Hi. discriminate.
Qed.

Lemma find_run_fresh (gen : nat) (rs : list Run) (r : Run) :
  Forall (fun r' => (run_gen r' < gen)%nat) rs -> run_gen r = gen ->
  find_run gen (rs ++ [r]) = Some r.
Proof.
  intros H Hr. unfold find_run. induction rs as [|r' rs IH]; simpl.
  - now rewrite Hr, Nat.eqb_refl.
  - inversion H as [|? ? H1 H2]; subst.
    destruct (Nat.eqb_spec (run_gen r') (run_gen r)); [lia|].
    now apply IH.
Qed.

End SchedulerMore.

(** X8. In every state the component reaches from mounting, at most one
    timeout is pending, and it is the one [resizeTimeoutRef] holds. *)
Theorem at_most_one_pending_run (defaults : ResizeOptions) (s : Scheduler.State) :
  reachable defaults s ->
  (List.length (Scheduler.timers s) <= 1)%nat /\
  (forall t, In t (Scheduler.timers s) ->
     Scheduler.resizeTimeoutRef s = Some (Scheduler.timer_id t)).
Proof.
  intros Hr. destruct (reachable_healthy _ _ Hr) as ((H1 & _) & H2 & _). auto.
Qed.

(** X9. Every job that was handed to [resizeImage], in any state the
    component reaches from mounting, has a non-empty source and a width
    and a height that are neither zero nor [NaN]: the guard of the effect
    still holds when the timeout callback runs. *)
Theorem only_drawable_jobs_start (defaults : ResizeOptions) (s : Scheduler.State)
    (j : Scheduler.Job) :
  reachable defaults s -> In j (Scheduler.started s) ->
  Scheduler.job_src j <> EmptyString /\
  JS.truthy (width (Scheduler.job_options j)) = true /\
  JS.truthy (height (Scheduler.job_options j)) = true.
Proof.
  intros Hr Hin.
  destruct (reachable_healthy _ _ Hr) as (_ & _ & _ & _ & Hs & _).
  pose proof (proj1 (Forall_forall _ _) Hs j Hin) as Hj.
  unfold job_ok, Scheduler.rasterizable in Hj.
  apply andb_prop in Hj. destruct Hj as [Hj Hh].
  apply andb_prop in Hj. destruct Hj as [Hx Hw].
  repeat split; auto.
  intros E. rewrite E in Hx. discriminate.
Qed.

(** X10. A run that fails (the promise of [resizeImage] rejects) lowers
    [isResizing] and leaves the displayed payload, the options and the
    pending timeouts as they were: the [catch] only logs. *)
Theorem failed_run_keeps_payload (s : Scheduler.State) (r : Scheduler.Run) :
  In r (Scheduler.inflight s) ->
  exists s',
    Scheduler.step s (Scheduler.Settles (Scheduler.run_gen r) Scheduler.Failed)
      = Some s' /\
    Scheduler.resizedSrc s' = Scheduler.resizedSrc s /\
    Scheduler.isResizing s' = false /\
    Scheduler.options s' = Scheduler.options s /\
    Scheduler.timers s' = Scheduler.timers s.
Proof.
  intros Hin. destruct (find_run_in r _ Hin) as (r' & Hf & Hg).
  simpl. rewrite Hf. eexists. split; [reflexivity|]. repeat split.
Qed.

(** X11. A render that changes none of the dependencies of the effect
    (source, width, height, quality, format), whatever it does to the
    mode, the percentage or the lock, stores the new options and leaves
    the pending timeout, the ref, [isResizing] and the runs in flight
    untouched. *)
Theorem other_changes_do_not_reschedule (s : Scheduler.State) (o : ResizeOptions) :
  width o = width (Scheduler.options s) ->
  height o = height (Scheduler.options s) ->
  quality o = quality (Scheduler.options s) ->
  format o = format (Scheduler.options s) ->
  Scheduler.options (Scheduler.render (Scheduler.previewSrc s) o s) = o /\
  Scheduler.timers (Scheduler.render (Scheduler.previewSrc s) o s) = Scheduler.timers s /\
  Scheduler.resizeTimeoutRef (Scheduler.render (Scheduler.previewSrc s) o s)
    = Scheduler.resizeTimeoutRef s /\
  Scheduler.isResizing (Scheduler.render (Scheduler.previewSrc s) o s)
    = Scheduler.isResizing s /\
  Scheduler.inflight (Scheduler.render (Scheduler.previewSrc s) o s)
    = Scheduler.inflight s.
Proof.
  intros Hw Hh Hq Hf. unfold Scheduler.render, Scheduler.same_deps.
  rewrite Hw, Hh, Hq, Hf, src_is_refl, !number_is_refl, format_is_refl.
  repeat split.
Qed.

Lemma at_most_one_pending_run_witness :
  (List.length (Scheduler.timers after_first_change) <= 1)%nat /\
  (forall t, In t (Scheduler.timers after_first_change) ->
     Scheduler.resizeTimeoutRef after_first_change = Some (Scheduler.timer_id t)).
Proof.
  apply (at_most_one_pending_run optsA after_first_change).
  exists [Scheduler.SetState (Some example_src) optsA; Scheduler.Elapse 100].
  reflexivity.
Defined.

Lemma only_drawable_jobs_start_witness :
  Scheduler.job_src
    {| Scheduler.job_src := example_src; Scheduler.job_options := optsB |}
    <> EmptyString /\
  JS.truthy (width optsB) = true /\ JS.truthy (height optsB) = true.
Proof.
  apply (only_drawable_jobs_start optsA after_stale_session
           {| Scheduler.job_src := example_src; Scheduler.job_options := optsB |}).
  - exists stale_session. reflexivity.
  - simpl. right. left. reflexivity.
Defined.

Lemma failed_run_keeps_payload_witness :
  exists s',
    Scheduler.step state_with_run_in_flight (Scheduler.Settles 0 Scheduler.Failed)
      = Some s' /\
    Scheduler.resizedSrc s' = Scheduler.resizedSrc state_with_run_in_flight /\
    Scheduler.isResizing s' = false /\
    Scheduler.options s' = Scheduler.options state_with_run_in_flight /\
    Scheduler.timers s' = Scheduler.timers state_with_run_in_flight.
Proof.
  apply (failed_run_keeps_payload state_with_run_in_flight
           {| Scheduler.run_gen := 0;
              Scheduler.run_job :=
                {| Scheduler.job_src := example_src; Scheduler.job_options := optsA |} |}).
  simpl. left. reflexivity.
Defined.

Lemma other_changes_do_not_reschedule_witness :
  Scheduler.options
    (Scheduler.render (Scheduler.previewSrc after_first_change) optsA_other_mode
       after_first_change) = optsA_other_mode /\
  Scheduler.timers
    (Scheduler.render (Scheduler.previewSrc after_first_change) optsA_other_mode
       after_first_change) = Scheduler.timers after_first_change /\
  Scheduler.resizeTimeoutRef
    (Scheduler.render (Scheduler.previewSrc after_first_change) optsA_other_mode
       after_first_change) = Scheduler.resizeTimeoutRef after_first_change /\
  Scheduler.isResizing
    (Scheduler.render (Scheduler.previewSrc after_first_change) optsA_other_mode
       after_first_change) = Scheduler.isResizing after_first_change /\
  Scheduler.inflight
    (Scheduler.render (Scheduler.previewSrc after_first_change) optsA_other_mode
       after_first_change) = Scheduler.inflight after_first_change.
Proof.
  apply (other_changes_do_not_reschedule after_first_change optsA_other_mode);
    reflexivity.
Defined.

(** X12. The busy signal can stay on.  From a state with no run in flight, a
    change that schedules a run followed, before the timer fires, by a
    change the guard refuses (no source, or a zero width or height)
    cancels the timer with [isResizing] raised; no run starts, and
    [isResizing] stays raised for as long as the state is not changed
    again. *)
Theorem busy_signal_stays_on (s : Scheduler.State)
    (srcA srcZ : option string) (oA oZ : ResizeOptions) :
  Scheduler.wf s -> Scheduler.inflight s = [] ->
  Scheduler.same_deps (Scheduler.previewSrc s) (Scheduler.options s) srcA oA = false ->
  Scheduler.rasterizable srcA oA = true ->
  Scheduler.same_deps srcA oA srcZ oZ = false ->
  Scheduler.rasterizable srcZ oZ = false ->
  Scheduler.isResizing (Scheduler.render srcZ oZ (Scheduler.render srcA oA s)) = true /\
  Scheduler.timers (Scheduler.render srcZ oZ (Scheduler.render srcA oA s)) = [] /\
  forall trace s', Scheduler.quiet trace ->
    Scheduler.run (Scheduler.render srcZ oZ (Scheduler.render srcA oA s)) trace
      = Some s' ->
    Scheduler.isResizing s' = true /\ Scheduler.started s' = Scheduler.started s.
Proof.
  intros Hwf Hinf HdA HgA HdZ HgZ.
  destruct (render_changed s srcA oA Hwf HdA) as (Ap & Ao & _ & As & Ai & _ & _ & _).
  destruct (render_changed_busy s srcA oA HdA) as [Ab _]. specialize (Ab HgA).
  set (s1 := Scheduler.render srcA oA s) in *.
  assert (Hwf1 : Scheduler.wf s1) by now apply wf_render.
  assert (HdZ' : Scheduler.same_deps (Scheduler.previewSrc s1) (Scheduler.options s1)
                   srcZ oZ = false) by (rewrite Ap, Ao; exact HdZ).
  destruct (render_changed s1 srcZ oZ Hwf1 HdZ')
    as (_ & _ & _ & Zs & Zi & _ & _ & Zn).
  destruct (render_changed_busy s1 srcZ oZ HdZ') as [_ Zb].
  specialize (Zb HgZ). specialize (Zn HgZ).
  set (s2 := Scheduler.render srcZ oZ s1) in *.
  split; [congruence|]. split; [exact Zn|].
  intros trace s' Hq Hr.
  destruct (quiet_run_idle trace s2 s' Hq Zn ltac:(congruence) Hr)
    as (Eb & _ & Es & _).
  split; congruence.
Qed.

Lemma busy_signal_stays_on_witness :
  Scheduler.isResizing
    (Scheduler.render (Some example_src) opts_zero
       (Scheduler.render (Some example_src) optsA (Scheduler.mounted optsA))) = true /\
  Scheduler.timers
    (Scheduler.render (Some example_src) opts_zero
       (Scheduler.render (Some example_src) optsA (Scheduler.mounted optsA))) = [].
Proof.
  destruct (busy_signal_stays_on (Scheduler.mounted optsA)
              (Some example_src) (Some example_src) optsA opts_zero)
    as (H1 & H2 & _).
  - split; [intros t []|intros H; now elim H].
  - reflexivity.
  - reflexivity.
  - reflexivity.
  - reflexivity.
  - reflexivity.
  - split; assumption.
Defined.

(** A change that passes the guard, from any reachable state: the run
    starts 400 ms later, and ends when its promise settles. *)
Lemma change_runs (defaults : ResizeOptions) (s : Scheduler.State) (x : string)
    (o : ResizeOptions) :
  reachable defaults s ->
  Scheduler.same_deps (Scheduler.previewSrc s) (Scheduler.options s) (Some x) o = false ->
  Scheduler.rasterizable (Some x) o = true ->
  (exists s1,
     Scheduler.run s
       [Scheduler.SetState (Some x) o;
        Scheduler.Elapse 400;
        Scheduler.TimerFires (Scheduler.next_timer_id s)] = Some s1 /\
     Scheduler.started s1 =
       Scheduler.started s ++ [{| Scheduler.job_src := x; Scheduler.job_options := o |}] /\
     Scheduler.isResizing s1 = true /\
     Scheduler.timers s1 = [] /\
     Scheduler.resizedSrc s1 = Scheduler.resizedSrc s) /\
  (forall st,
     exists s',
       Scheduler.run s
         [Scheduler.SetState (Some x) o;
          Scheduler.Elapse 400;
          Scheduler.TimerFires (Scheduler.next_timer_id s);
          Scheduler.Settles (List.length (Scheduler.started s)) st] = Some s' /\
       Scheduler.started s' =
         Scheduler.started s ++ [{| Scheduler.job_src := x; Scheduler.job_options := o |}] /\
       Scheduler.isResizing s' = false /\
       Scheduler.timers s' = [] /\
       Scheduler.resizedSrc s' =
         match st with
         | Scheduler.Resolved value => Some value
         | Scheduler.Failed => Scheduler.resizedSrc s
         end).
Proof.
  intros Hreach Hd Hg.
  destruct (reachable_healthy _ _ Hreach) as (Hwf & _ & _ & _ & _ & Hgen).
  destruct (render_changed s (Some x) o Hwf Hd)
    as (_ & _ & An & As & Ai & Ar & Ay & _).
  destruct (render_changed_busy s (Some x) o Hd) as [Ab _]. specialize (Ab Hg).
  destruct (Ay Hg) as (x' & Ex & At & _ & _). injection Ex as <-.
  set (s1 := Scheduler.render (Some x) o s) in *.
  set (job := {| Scheduler.job_src := x; Scheduler.job_options := o |}) in *.
  set (t := {| Scheduler.timer_id := Scheduler.next_timer_id s;
               Scheduler.timer_due := Scheduler.now s + Scheduler.delay;
               Scheduler.timer_job := job |}) in *.
  set (r := {| Scheduler.run_gen := List.length (Scheduler.started s);
               Scheduler.run_job := job |}).
  assert (Hfind : Scheduler.find_run (List.length (Scheduler.started s))
                    (Scheduler.inflight s ++ [r]) = Some r)
    by (apply find_run_fresh; [exact Hgen|reflexivity]).
  split.
  - eexists.
    cbn [Scheduler.run Scheduler.step]. fold s1.
    change (0 <=? 400) with true. cbv iota.
    cbn [Scheduler.timers Scheduler.now]. rewrite At.
    unfold Scheduler.find_timer. cbn [find Scheduler.timer_id t].
    rewrite Nat.eqb_refl. cbn [Scheduler.timer_due t].
    replace (Scheduler.now s + Scheduler.delay <=? Scheduler.now s1 + 400)
      with true by (symmetry; apply Z.leb_le; unfold Scheduler.delay; lia).
    split; [reflexivity|].
    cbn [Scheduler.fire Scheduler.started Scheduler.isResizing Scheduler.timers
         Scheduler.resizedSrc Scheduler.timer_job t].
    rewrite (clearTimeout_single t), As, Ab, Ar. repeat split.
  - intros st. eexists.
    cbn [Scheduler.run Scheduler.step]. fold s1.
    change (0 <=? 400) with true. cbv iota.
    cbn [Scheduler.timers Scheduler.now]. rewrite At.
    unfold Scheduler.find_timer. cbn [find Scheduler.timer_id t].
    rewrite Nat.eqb_refl. cbn [Scheduler.timer_due t].
    replace (Scheduler.now s + Scheduler.delay <=? Scheduler.now s1 + 400)
      with true by (symmetry; apply Z.leb_le; unfold Scheduler.delay; lia).
    cbn [Scheduler.fire Scheduler.inflight Scheduler.started Scheduler.timer_job
         Scheduler.timer_id t].
    rewrite Ai, As. fold r. rewrite Hfind.
    split; [reflexivity|].
    cbn [Scheduler.settle Scheduler.started Scheduler.isResizing Scheduler.timers
         Scheduler.resizedSrc].
    cbn [Scheduler.fire Scheduler.started Scheduler.timers Scheduler.resizedSrc
         Scheduler.timer_job t].
    rewrite (clearTimeout_single t), Ar.
    repeat split.
Qed.



(** ** The image analysis service *)

Section GeminiFacts.

Import Gemini.

Lemma string_app_assoc (a b c : string) :
  ((a ++ b) ++ c = a ++ (b ++ c))%string.
Proof.
  induction a as [|x a IH]; [reflexivity|]. simpl. now rewrite IH.
Qed.

Lemma strip_literal_app (p s : string) : strip_literal p (p ++ s) = Some s.
Proof.
  induction p as [|a p IH]; [reflexivity|].
  simpl. now rewrite Ascii.eqb_refl.
Qed.

Lemma skip_word_app (t s : string) (c : ascii) :
  all_word t = true -> is_word_char c = false ->
  skip_word (t ++ String c s) = String c s.
Proof.
  intros Ht Hc. induction t as [|a t IH]; simpl.
  - now rewrite Hc.
  - simpl in Ht. apply andb_prop in Ht. destruct Ht as [Ha Ht].
    rewrite Ha. now apply IH.
Qed.

Lemma strip_literal_suffix (p s rest : string) :
  strip_literal p s = Some rest -> s = (p ++ rest)%string.
Proof.
  revert s. induction p as [|a p IH]; intros s; simpl.
  - intros H; now injection H as <-.
  - destruct s as [|b s]; [discriminate|].
    destruct (Ascii.eqb_spec a b) as [->|]; [|discriminate].
    intros H. now rewrite (IH _ H).
Qed.

Lemma skip_word_suffix (s : string) :
  exists w, s = (w ++ skip_word s)%string.
Proof.
  induction s as [|c s [w IH]]; [now exists EmptyString|].
  simpl. destruct (is_word_char c).
  - exists (String c w). simpl. now rewrite <- IH.
  - now exists EmptyString.
Qed.

End GeminiFacts.

(** X18. The header of a data URL is removed: for a non-empty subtype of
    word characters, [data:image/<subtype>;base64,<content>] is stripped
    to [<content>]. *)
Theorem data_url_prefix_is_stripped (subtype content : string) :
  subtype <> EmptyString -> Gemini.all_word subtype = true ->
  Gemini.strip_data_url_prefix
    ("data:image/" ++ subtype ++ ";base64," ++ content) = content.
Proof.
  intros Hne Hw. unfold Gemini.strip_data_url_prefix.
  rewrite strip_literal_app.
  destruct subtype as [|c t]; [now elim Hne|].
  simpl in Hw. apply andb_prop in Hw. destruct Hw as [Hc Ht].
  cbn [append]. rewrite Hc.
  change (";base64," ++ content)%string with (String ";" ("base64," ++ content)).
  rewrite skip_word_app by (auto; reflexivity).
  pose proof (strip_literal_app ";base64," content) as E.
  cbn [append] in E. now rewrite E.
Qed.

Lemma data_url_prefix_is_stripped_witness :
  Gemini.strip_data_url_prefix
    ("data:image/" ++ "jpeg" ++ ";base64," ++ "AAAA") = "AAAA"%string.
Proof.
  apply (data_url_prefix_is_stripped "jpeg" "AAAA"); [discriminate|reflexivity].
Defined.

(** X19. Other data passes unchanged: a string that does not start with
    [data:image/], or whose subtype is followed by a character that is
    neither a word character nor the semicolon (as in [svg+xml]), is sent
    as it is.  In every case what is sent is a suffix of the input. *)
Theorem other_data_passes_unchanged (s w rest : string) (c : ascii) :
  (Gemini.strip_literal "data:image/" s = None ->
     Gemini.strip_data_url_prefix s = s) /\
  (Gemini.all_word w = true -> Gemini.is_word_char c = false -> c <> ";"%char ->
     Gemini.strip_data_url_prefix ("data:image/" ++ w ++ String c rest)
       = ("data:image/" ++ w ++ String c rest)%string) /\
  (exists removed, s = (removed ++ Gemini.strip_data_url_prefix s)%string).
Proof.
  split; [|split].
  - intros H. unfold Gemini.strip_data_url_prefix. now rewrite H.
  - intros Hw Hc Hsemi. unfold Gemini.strip_data_url_prefix.
    rewrite strip_literal_app.
    destruct w as [|a t]; cbn [append].
    + now rewrite Hc.
    + simpl in Hw. apply andb_prop in Hw. destruct Hw as [Ha Ht].
      rewrite Ha, skip_word_app by assumption.
      cbn [Gemini.strip_literal].
      destruct (Ascii.eqb_spec ";" c) as [E|_]; [now elim Hsemi|reflexivity].
  - unfold Gemini.strip_data_url_prefix.
    destruct (Gemini.strip_literal "data:image/" s) as [[|a rest']|] eqn:E;
      try (now exists EmptyString).
    destruct (Gemini.is_word_char a); [|now exists EmptyString].
    destruct (Gemini.strip_literal ";base64," (Gemini.skip_word rest')) as [content|] eqn:E2;
      [|now exists EmptyString].
    apply strip_literal_suffix in E. apply strip_literal_suffix in E2.
    destruct (skip_word_suffix rest') as [w' Hw'].
    exists ("data:image/" ++ String a w' ++ ";base64,")%string.
    rewrite E. rewrite Hw' at 1. rewrite E2.
    cbn [append]. now rewrite string_app_assoc.
Qed.

Lemma other_data_passes_unchanged_witness :
  Gemini.strip_data_url_prefix ("data:image/" ++ "svg" ++ String "+" "xml;base64,AAAA")
    = ("data:image/" ++ "svg" ++ String "+" "xml;base64,AAAA")%string.
Proof.
  apply (other_data_passes_unchanged "" "svg" "xml;base64,AAAA" "+"%char);
    [reflexivity|reflexivity|discriminate].
Defined.

Lemma analyzeImage_returns (service : Gemini.Service) (base64Data mimeType : string) :
  exists result,
    Gemini.analyzeImage service base64Data mimeType = Gemini.returned result /\
    (result = Gemini.fallback \/
     exists text,
       Gemini.generateContent service Gemini.model mimeType
         (Gemini.strip_data_url_prefix base64Data) = Gemini.returned (Some text) /\
       text <> EmptyString /\
       Gemini.JSON_parse service text = Gemini.returned result).
Proof.
  unfold Gemini.analyzeImage, Gemini.request.
  destruct (Gemini.generateContent service Gemini.model mimeType
              (Gemini.strip_data_url_prefix base64Data)) as [[t|]|m] eqn:E;
    try (eexists; split; [reflexivity|now left]).
  destruct t as [|a t]; cbn [string_truthy];
    [eexists; split; [reflexivity|now left]|].
  destruct (Gemini.JSON_parse service (String a t)) as [r|m] eqn:Ep.
  - exists r. split; [reflexivity|]. right. exists (String a t).
    repeat split; [discriminate|exact Ep].
  - eexists. split; [reflexivity|now left].
Qed.

Lemma analyzeImage_on_error (service : Gemini.Service) (base64Data mimeType : string)
    (message : string) :
  Gemini.generateContent service Gemini.model mimeType
    (Gemini.strip_data_url_prefix base64Data) = Gemini.thrown message ->
  Gemini.analyzeImage service base64Data mimeType = Gemini.returned Gemini.fallback.
Proof.
  intros E. unfold Gemini.analyzeImage, Gemini.request. now rewrite E.
Qed.

(** X20. [analyzeImage] never throws.  It returns what [JSON.parse] made
    of a non-empty response text, or the fallback result; it returns the
    fallback when the call throws, when the text does not parse, and when
    the response has no text or an empty one. *)
Theorem analyzeImage_never_throws (service : Gemini.Service)
    (base64Data mimeType : string) :
  (exists result,
     Gemini.analyzeImage service base64Data mimeType = Gemini.returned result /\
     (result = Gemini.fallback \/
      exists text,
        Gemini.generateContent service Gemini.model mimeType
          (Gemini.strip_data_url_prefix base64Data) = Gemini.returned (Some text) /\
        text <> EmptyString /\
        Gemini.JSON_parse service text = Gemini.returned result)) /\
  (forall message,
     Gemini.generateContent service Gemini.model mimeType
       (Gemini.strip_data_url_prefix base64Data) = Gemini.thrown message ->
     Gemini.analyzeImage service base64Data mimeType = Gemini.returned Gemini.fallback) /\
  (forall text message,
     Gemini.generateContent service Gemini.model mimeType
       (Gemini.strip_data_url_prefix base64Data) = Gemini.returned (Some text) ->
     Gemini.JSON_parse service text = Gemini.thrown message ->
     Gemini.analyzeImage service base64Data mimeType = Gemini.returned Gemini.fallback) /\
  (Gemini.generateContent service Gemini.model mimeType
       (Gemini.strip_data_url_prefix base64Data) = Gemini.returned None \/
   Gemini.generateContent service Gemini.model mimeType
       (Gemini.strip_data_url_prefix base64Data) = Gemini.returned (Some EmptyString) ->
     Gemini.analyzeImage service base64Data mimeType = Gemini.returned Gemini.fallback).
Proof.
  split; [exact (analyzeImage_returns service base64Data mimeType)|].
  split; [exact (analyzeImage_on_error service base64Data mimeType)|].
  unfold Gemini.analyzeImage, Gemini.request. split.
  - intros text message E Ep. rewrite E.
    destruct (string_truthy text); [now rewrite Ep|reflexivity].
  - intros [E | E]; now rewrite E.
Qed.

Lemma analyzeImage_never_throws_witness :
  Gemini.analyzeImage service_down example_src "image/png"
    = Gemini.returned Gemini.fallback.
Proof.
  destruct (analyzeImage_never_throws service_down example_src "image/png")
    as (_ & H & _).
  exact (H "503"%string eq_refl).
Defined.

(** ** Loading a file, savings on display and the eco scan *)

(** A finite number minus itself is +0. *)
Lemma sub_self (x : JS.number) : JS.is_finite x = true -> JS.sub x x = JS.n0.
Proof.
  destruct x as [s|s| |s m e]; try discriminate; intros _.
  - destruct s; reflexivity.
  - unfold JS.sub, SFsub. rewrite Z.sub_diag. reflexivity.
Qed.

(** Without a payload, or with the empty string for one, the estimate is
    the original size and nothing is saved. *)
Lemma no_payload_no_savings (file : option File) (resizedSrc : option string) :
  JS.is_finite (originalSize file) = true ->
  resizedSrc = None \/ resizedSrc = Some EmptyString ->
  estimatedNewBytes (estimate file resizedSrc) = originalSize file /\
  est_savedBytes (estimate file resizedSrc) = JS.n0 /\
  savedCO2Grams (estimate file resizedSrc) = JS.n0.
Proof.
  intros Hfin Hsrc.
  assert (E : newSizeEstimate resizedSrc (originalSize file) = originalSize file)
    by (destruct Hsrc as [-> | ->]; reflexivity).
  unfold estimate. cbn [estimatedNewBytes est_savedBytes savedCO2Grams].
  rewrite E. unfold savedBytes. rewrite (sub_self _ Hfin). repeat split.
Qed.

(** X14. With no resized image (or the empty string for one) and a finite
    original size, the estimate is the original size and the bytes and
    the CO2 saved are zero. *)
Theorem no_resized_image_no_savings (file : option File) (resizedSrc : option string) :
  JS.is_finite (originalSize file) = true ->
  resizedSrc = None \/ resizedSrc = Some EmptyString ->
  estimatedNewBytes (estimate file resizedSrc) = originalSize file /\
  est_savedBytes (estimate file resizedSrc) = JS.n0 /\
  savedCO2Grams (estimate file resizedSrc) = JS.n0.
Proof. exact (no_payload_no_savings file resizedSrc). Qed.

Lemma no_resized_image_no_savings_witness :
  estimatedNewBytes (estimate (Some {| size := JS.of_Z 10000 |}) None)
    = originalSize (Some {| size := JS.of_Z 10000 |}) /\
  est_savedBytes (estimate (Some {| size := JS.of_Z 10000 |}) None) = JS.n0 /\
  savedCO2Grams (estimate (Some {| size := JS.of_Z 10000 |}) None) = JS.n0.
Proof.
  apply (no_resized_image_no_savings (Some {| size := JS.of_Z 10000 |}) None).
  - reflexivity.
  - left. reflexivity.
Defined.

Lemma originalSize_finite (f : File) :
  JS.is_finite (size f) = true -> JS.is_finite (originalSize (Some f)) = true.
Proof.
  unfold originalSize, JS.or_else. destruct (size f) as [s|s| |s m e]; simpl; auto.
Qed.

(** X15.  Loading a file that decodes to [W] by [H] and is read as
    [src], whatever other updates land while the handler awaits: the
    handler ends on the editor page with [src] for preview.  If the
    updates that land during the read leave the options and the original
    dimensions alone, these are the new image's: width [W], height [H],
    100 percent, which is what a 100 percent edit gives back.  The file,
    the cleared resized image and the cleared analysis are still there at
    the end if no update in between wrote them. *)
Theorem file_load_starts_at_original (browser : App.FileBrowser) (f : File)
    (s : App.State) (W H : Z) (src : string)
    (meanwhile1 meanwhile2 : App.State -> App.State) :
  App.image_load browser f = App.resolved (JS.of_Z W, JS.of_Z H) ->
  App.reader_load browser f = App.resolved src ->
  0 < W -> 0 < H -> 100 * W <= 2 ^ 50 -> 100 * H <= 2 ^ 50 ->
  let s' := App.handleFileChange browser (Some f) meanwhile1 meanwhile2 s in
  (App.currentPage s' = App.editor /\ App.previewSrc s' = Some src) /\
  (App.keeps App.options meanwhile2 -> App.keeps App.originalDims meanwhile2 ->
     App.originalDims s' = dims W H /\
     width (App.options s') = JS.of_Z W /\
     height (App.options s') = JS.of_Z H /\
     percentage (App.options s') = JS.of_Z 100 /\
     editPercentage (App.originalDims s') (App.options s') (JS.of_Z 100)
       = App.options s') /\
  (App.keeps App.file meanwhile1 -> App.keeps App.file meanwhile2 ->
     App.file s' = Some f) /\
  (App.keeps App.resizedSrc meanwhile1 -> App.keeps App.resizedSrc meanwhile2 ->
     App.resizedSrc s' = None) /\
  (App.keeps App.analysis meanwhile1 -> App.keeps App.analysis meanwhile2 ->
     App.analysis s' = None).
Proof.
  intros Hi Hr HW HH HbW HbH s'. subst s'.
  unfold App.handleFileChange, App.getImageDimensions, App.fileToDataString.
  rewrite Hi, Hr.
  cbn [App.preview_read App.currentPage App.file App.previewSrc App.resizedSrc
       App.analysis App.originalDims App.options].
  split; [split; reflexivity|].
  split; [|split; [|split]].
  - intros Ko Kd. rewrite Ko, Kd.
    cbn [App.dimensions_known App.originalDims App.options width height percentage].
    fold (dims W H). repeat split.
    match goal with |- editPercentage _ ?o _ = _ =>
      destruct (percent_100_is_original o W H HW HH HbW HbH) as (Ew & Eh & Ep);
      destruct (edit_frame (dims W H) o key_width (JS.of_Z 100)) as [_ (Em & Eq & Ef & El)]
    end.
    set (r := editPercentage _ _ _) in *.
    destruct r as [rw rh rp rm rq rf rl].
    cbn [width height percentage mode quality format maintainAspectRatio] in *.
    subst. reflexivity.
  - intros K1 K2. rewrite K2. cbn [App.dimensions_known App.file].
    rewrite K1. reflexivity.
  - intros K1 K2. rewrite K2. cbn [App.dimensions_known App.resizedSrc].
    rewrite K1. reflexivity.
  - intros K1 K2. rewrite K2. cbn [App.dimensions_known App.analysis].
    rewrite K1. reflexivity.
Qed.

Lemma file_load_starts_at_original_witness :
  App.currentPage
    (App.handleFileChange browser_800_600 (Some {| size := JS.of_Z 10000 |})
       (fun s => s) (fun s => s) (app_start optsA)) = App.editor /\
  App.previewSrc
    (App.handleFileChange browser_800_600 (Some {| size := JS.of_Z 10000 |})
       (fun s => s) (fun s => s) (app_start optsA)) = Some example_src.
Proof.
  destruct (file_load_starts_at_original browser_800_600 {| size := JS.of_Z 10000 |}
              (app_start optsA) 800 600 example_src (fun s => s) (fun s => s))
    as (H1 & _).
  - reflexivity.
  - reflexivity.
  - reflexivity.
  - reflexivity.
  - discriminate.
  - discriminate.
  - exact H1.
Defined.

Lemma of_Z_truthy (n : Z) : 0 < n < 2 ^ 53 -> JS.truthy (JS.of_Z n) = true.
Proof.
  intros Hn. destruct (of_Z_pos n Hn) as (m & a & E & _).
  unfold JS.of_Z. rewrite E. reflexivity.
Qed.

(** X16.  Loading a second file resizes the previous image.  When the
    dimensions of the new file arrive, the handler stores them in the
    options while the preview is still the previous image; the new width
    or height is a changed dependency of the live resize effect, so a
    resize of the previous image at the new dimensions is scheduled.  If
    the file is not read within 400 ms (or the read fails), that run
    starts, and its result is displayed when it resolves. *)
Theorem second_load_resizes_previous_preview (defaults : ResizeOptions)
    (s : Scheduler.State) (a : App.State) (old : string) (W H : Z) :
  reachable defaults s ->
  Scheduler.previewSrc s = Some old -> old <> EmptyString ->
  App.previewSrc a = Some old -> App.options a = Scheduler.options s ->
  0 < W < 2 ^ 53 -> 0 < H < 2 ^ 53 ->
  Scheduler.number_is (width (Scheduler.options s)) (JS.of_Z W) = false \/
  Scheduler.number_is (height (Scheduler.options s)) (JS.of_Z H) = false ->
  let a' := App.dimensions_known (dims W H) a in
  let job := {| Scheduler.job_src := old; Scheduler.job_options := App.options a' |} in
  App.previewSrc a' = Some old /\
  width (App.options a') = JS.of_Z W /\ height (App.options a') = JS.of_Z H /\
  (exists s1,
     Scheduler.run s
       [Scheduler.SetState (App.previewSrc a') (App.options a');
        Scheduler.Elapse 400;
        Scheduler.TimerFires (Scheduler.next_timer_id s)] = Some s1 /\
     Scheduler.started s1 = Scheduler.started s ++ [job] /\
     Scheduler.isResizing s1 = true) /\
  (forall value,
     exists s',
       Scheduler.run s
         [Scheduler.SetState (App.previewSrc a') (App.options a');
          Scheduler.Elapse 400;
          Scheduler.TimerFires (Scheduler.next_timer_id s);
          Scheduler.Settles (List.length (Scheduler.started s))
            (Scheduler.Resolved value)] = Some s' /\
       Scheduler.resizedSrc s' = Some value).
Proof.
  intros Hreach Hp Hne Ha Ho HW HH Hdiff a' job. subst a' job.
  cbn [App.dimensions_known App.previewSrc App.options width height dims
       dim_width dim_height].
  rewrite Ha.
  split; [reflexivity|]. split; [reflexivity|]. split; [reflexivity|].
  set (o' := {| width := JS.of_Z W; height := JS.of_Z H; percentage := JS.n100;
                mode := mode (App.options a); quality := quality (App.options a);
                format := format (App.options a);
                maintainAspectRatio := maintainAspectRatio (App.options a) |}).
  assert (Hd : Scheduler.same_deps (Scheduler.previewSrc s) (Scheduler.options s)
                 (Some old) o' = false).
  { unfold Scheduler.same_deps. cbn [width height o'].
    destruct Hdiff as [-> | ->];
      rewrite ?Bool.andb_false_r, ?Bool.andb_false_l; reflexivity. }
  assert (Hg : Scheduler.rasterizable (Some old) o' = true).
  { cbn [Scheduler.rasterizable width height o'].
    rewrite !of_Z_truthy by assumption.
    destruct old; [now elim Hne|reflexivity]. }
  destruct (change_runs defaults s old o' Hreach Hd Hg) as [(s1 & R1 & S1 & B1 & _) H2].
  split.
  - exists s1. repeat split; assumption.
  - intros value. destruct (H2 (Scheduler.Resolved value)) as (s' & R & _ & _ & _ & D).
    exists s'. split; assumption.
Qed.

Lemma second_load_resizes_previous_preview_witness :
  exists s1,
    Scheduler.run scheduler_after_first_image
      [Scheduler.SetState (Some example_src)
         (App.options (App.dimensions_known (dims 800 600) state_with_preview));
       Scheduler.Elapse 400;
       Scheduler.TimerFires (Scheduler.next_timer_id scheduler_after_first_image)]
      = Some s1 /\
    Scheduler.started s1 =
      Scheduler.started scheduler_after_first_image ++
      [{| Scheduler.job_src := example_src;
          Scheduler.job_options :=
            App.options (App.dimensions_known (dims 800 600) state_with_preview) |}] /\
    Scheduler.isResizing s1 = true.
Proof.
  destruct (second_load_resizes_previous_preview optsA scheduler_after_first_image
              state_with_preview example_src 800 600) as (_ & _ & _ & H & _).
  - exists [Scheduler.SetState (Some example_src) optsA;
            Scheduler.Elapse 400;
            Scheduler.TimerFires 1;
            Scheduler.Settles 0 (Scheduler.Resolved example_src)].
    reflexivity.
  - reflexivity.
  - discriminate.
  - reflexivity.
  - reflexivity.
  - split; reflexivity.
  - split; reflexivity.
  - left. reflexivity.
  - exact H.
Defined.

(** X17.  Once a file is chosen (its size finite), at the render that
    follows the first stretch of the handler, no resized image is stored
    and the savings on display are none: the estimate is the size of the
    file, zero bytes and zero CO2 saved.  The same holds when the handler
    ends, provided no update in between wrote the file or the resized
    image. *)
Theorem new_file_shows_no_savings (browser : App.FileBrowser) (f : File)
    (s : App.State) (meanwhile1 meanwhile2 : App.State -> App.State) :
  JS.is_finite (size f) = true ->
  (App.resizedSrc (App.file_chosen f s) = None /\
   estimatedNewBytes (App.savings (App.file_chosen f s)) = originalSize (Some f) /\
   est_savedBytes (App.savings (App.file_chosen f s)) = JS.n0 /\
   savedCO2Grams (App.savings (App.file_chosen f s)) = JS.n0) /\
  (App.keeps App.file meanwhile1 -> App.keeps App.file meanwhile2 ->
   App.keeps App.resizedSrc meanwhile1 -> App.keeps App.resizedSrc meanwhile2 ->
   let s' := App.handleFileChange browser (Some f) meanwhile1 meanwhile2 s in
   estimatedNewBytes (App.savings s') = originalSize (Some f) /\
   est_savedBytes (App.savings s') = JS.n0 /\
   savedCO2Grams (App.savings s') = JS.n0).
Proof.
  intros Hfin. split.
  - split; [reflexivity|]. unfold App.savings.
    cbn [App.file_chosen App.file App.resizedSrc].
    apply no_payload_no_savings; [now apply originalSize_finite|now left].
  - intros F1 F2 R1 R2 s'.
    assert (E : App.file s' = Some f /\ App.resizedSrc s' = None).
    { subst s'. unfold App.handleFileChange.
      destruct (App.getImageDimensions browser f) as [d|ev].
      - destruct (App.fileToDataString browser f) as [src|ev];
          cbn [App.preview_read App.file App.resizedSrc];
          rewrite F2, R2; cbn [App.dimensions_known App.file App.resizedSrc];
          rewrite F1, R1; split; reflexivity.
      - rewrite F1, R1. split; reflexivity. }
    destruct E as [Ef Er]. unfold App.savings. rewrite Ef, Er.
    apply no_payload_no_savings; [now apply originalSize_finite|now left].
Qed.

Lemma new_file_shows_no_savings_witness :
  App.resizedSrc (App.file_chosen {| size := JS.of_Z 10000 |} state_with_preview)
    = None /\
  est_savedBytes
    (App.savings (App.file_chosen {| size := JS.of_Z 10000 |} state_with_preview))
    = JS.n0.
Proof.
  destruct (new_file_shows_no_savings browser_800_600 {| size := JS.of_Z 10000 |}
              state_with_preview (fun s => s) (fun s => s)) as ((H1 & _ & H3 & _) & _).
  - reflexivity.
  - split; assumption.
Defined.

(** X21. An eco scan with a preview present always ends with
    [isAnalyzing] lowered and an analysis on display, the fallback one
    when the service fails; file, preview, resized image, options and
    page are untouched.  Without a preview the scan does nothing. *)
Theorem eco_scan_always_shows_an_analysis (browser : App.FileBrowser)
    (service : Gemini.Service) (s : App.State) :
  (forall preview,
     App.previewSrc s = Some preview -> preview <> EmptyString ->
     let s' := App.handleEcoScan browser service s in
     App.isAnalyzing s' = false /\
     (exists result, App.analysis s' = Some result) /\
     (forall message,
        Gemini.generateContent service Gemini.model
          (App.src_or_else (option_map (App.file_type browser) (App.file s)) "image/jpeg")
          (Gemini.strip_data_url_prefix
             (App.src_or_else (App.resizedSrc s) preview)) = Gemini.thrown message ->
        App.analysis s' = Some Gemini.fallback) /\
     App.file s' = App.file s /\ App.previewSrc s' = App.previewSrc s /\
     App.resizedSrc s' = App.resizedSrc s /\ App.options s' = App.options s /\
     App.currentPage s' = App.currentPage s) /\
  (App.previewSrc s = None \/ App.previewSrc s = Some EmptyString ->
     App.handleEcoScan browser service s = s).
Proof.
  split.
  - intros preview Hp Hne s'. subst s'. unfold App.handleEcoScan. rewrite Hp.
    destruct preview as [|a p]; [now elim Hne|]. cbn [string_truthy].
    set (src := App.src_or_else (App.resizedSrc s) (String a p)).
    set (mime := App.src_or_else _ _).
    destruct (analyzeImage_returns service src mime) as (r & Hr & _).
    rewrite Hr. cbn. repeat split; try reflexivity; try exact Hp.
    + now exists r.
    + intros message Hm. f_equal.
      pose proof (analyzeImage_on_error service src mime message Hm) as Hf.
      rewrite Hr in Hf. now injection Hf.
  - intros [H | H]; unfold App.handleEcoScan; now rewrite H.
Qed.

Lemma eco_scan_always_shows_an_analysis_witness :
  App.isAnalyzing (App.handleEcoScan browser_800_600 service_down state_with_preview)
    = false /\
  App.analysis (App.handleEcoScan browser_800_600 service_down state_with_preview)
    = Some Gemini.fallback.
Proof.
  destruct (eco_scan_always_shows_an_analysis browser_800_600 service_down
              state_with_preview) as (H & _).
  destruct (H example_src eq_refl) as (H1 & _ & H3 & _).
  - discriminate.
  - split; [exact H1|]. exact (H3 "503"%string eq_refl).
Defined.

(** ** The savings figures on integers *)

(** A mantissa that is a normal one shifted left rounds to that normal
    mantissa: nothing is lost. *)
Lemma binary_round_aux_exact (s : bool) (q n ex : Z) :
  normal q -> 0 <= n -> -1074 <= ex -> ex + n <= 971 ->
  binary_round_aux JS.prec JS.emax s (q * 2 ^ n) ex loc_Exact
    = S754_finite s (Z.to_pos q) (ex + n).
Proof.
  unfold normal. intros Hq Hn Hex Hmax.
  assert (Hpn : 0 < 2 ^ n) by (apply Z.pow_pos_nonneg; lia).
  set (mx := q * 2 ^ n).
  assert (Hmx : 0 < mx) by (unfold mx; nia).
  assert (Hdig : Zdigits2 mx = 53 + n).
  { apply Zdigits2_unique; [|exact Hmx].
    replace (53 + n - 1) with (52 + n) by lia.
    rewrite !Z.pow_add_r by lia. unfold mx. nia. }
  unfold binary_round_aux, shr_fexp. rewrite Hdig.
  rewrite fexp_normal by lia.
  replace (53 + n + ex - 53 - ex) with n by lia.
  destruct (shifted_shr mx 0 1 ex n ltac:(lia) ltac:(lia) ltac:(lia) Hn) as [[Hm Hl] He].
  change (loc_of 0 1) with loc_Exact in Hm, Hl, He.
  destruct (shr (shr_record_of_loc mx loc_Exact) ex n) as [mrs' e'].
  cbn [fst snd] in Hm, Hl, He. subst e'.
  assert (Hdiv : mx / 2 ^ n = q) by (unfold mx; apply Z.div_mul; lia).
  assert (Hmod : mx mod 2 ^ n = 0) by (unfold mx; apply Z.mod_mul; lia).
  rewrite Hm, Hl, Hdiv, Hmod.
  change (loc_of (0 * 1 + 0) (1 * 2 ^ n)) with loc_Exact.
  cbn [round_nearest_even].
  assert (Hdq : Zdigits2 q = 53) by (apply Zdigits2_unique; lia).
  rewrite Hdq, fexp_normal by lia.
  replace (53 + (ex + n) - 53 - (ex + n)) with 0 by lia.
  cbn [shr]. rewrite shr_m_of_loc.
  destruct q as [|pq|pq]; try lia.
  replace (ex + n <=? JS.emax - JS.prec) with true
    by (symmetry; apply Z.leb_le; unfold JS.emax, JS.prec; lia).
  reflexivity.
Qed.

(** Normalising an integer [K] given as [K * 2^(-E) * 2^E] yields the
    number of [K], with the sign asked for. *)
Lemma binary_round_exact (s : bool) (p : positive) (E K : Z) :
  0 < K < 2 ^ 53 -> -1000 <= E <= 0 -> Zpos p = K * 2 ^ (- E) ->
  exists m a,
    JS.of_Z K = Fl m (- a) /\ normal m /\
    binary_round JS.prec JS.emax s p E = S754_finite s (Z.to_pos m) (- a).
Proof.
  intros HK HE Hp.
  destruct (of_Z_pos K HK) as (m & a & Eq & Ha & Hm & Nm).
  exists m, a. split; [exact Eq|]. split; [exact Nm|].
  unfold normal in Nm.
  assert (Pa : 0 < 2 ^ a) by (apply Z.pow_pos_nonneg; lia).
  assert (PE : 0 < 2 ^ (- E)) by (apply Z.pow_pos_nonneg; lia).
  assert (Hdig : Zpos (digits2_pos p) = 53 - a - E).
  { apply digits2_pos_unique. rewrite Hp.
    assert (E1 : 2 ^ (53 - a - E - 1) * 2 ^ a = 2 ^ 52 * 2 ^ (- E))
      by (rewrite <- !Z.pow_add_r by lia; f_equal; lia).
    assert (E2 : 2 ^ (53 - a - E) * 2 ^ a = 2 ^ 53 * 2 ^ (- E))
      by (rewrite <- !Z.pow_add_r by lia; f_equal; lia).
    split.
    - apply (Z.mul_le_mono_pos_r _ _ (2 ^ a)); [lia|]. rewrite E1. nia.
    - apply (Z.mul_lt_mono_pos_r (2 ^ a)); [lia|]. rewrite E2. nia. }
  unfold binary_round. rewrite Hdig.
  replace (53 - a - E + E) with (53 - a) by lia.
  rewrite fexp_normal by lia.
  replace (53 - a - 53) with (- a) by lia.
  unfold shl_align.
  destruct (- a - E) as [|d|d] eqn:Hd.
  - rewrite Hp. replace (K * 2 ^ (- E)) with (m * 2 ^ 0)
      by (rewrite Z.pow_0_r, Z.mul_1_r, Hm; f_equal; f_equal; lia).
    rewrite binary_round_aux_exact by (unfold normal; lia).
    f_equal. lia.
  - rewrite Hp.
    replace (K * 2 ^ (- E)) with (m * 2 ^ Zpos d).
    + rewrite binary_round_aux_exact by (unfold normal; lia).
      f_equal. lia.
    + rewrite Hm, <- Z.mul_assoc, <- Z.pow_add_r by lia. f_equal. f_equal. lia.
  - rewrite Pos_iter_xO, Hp.
    replace (K * 2 ^ (- E) * 2 ^ Zpos d) with (m * 2 ^ 0).
    + rewrite binary_round_aux_exact by (unfold normal; lia).
      f_equal. lia.
    + rewrite Z.pow_0_r, Z.mul_1_r, Hm, <- Z.mul_assoc, <- Z.pow_add_r by lia.
      f_equal. f_equal. lia.
Qed.

Lemma shl_align_fst (p : positive) (ex ez : Z) :
  ez <= ex -> Zpos (fst (shl_align p ex ez)) = Zpos p * 2 ^ (ex - ez).
Proof.
  intros H. unfold shl_align.
  destruct (ez - ex) as [|d|d] eqn:Hd; cbn [fst]; try lia.
  - replace (ex - ez) with 0 by lia. simpl. lia.
  - rewrite Pos_iter_xO. f_equal. f_equal. lia.
Qed.

(** The difference of two positive integers below 2^53, as numbers. *)
Lemma sub_of_Z (a b : Z) :
  0 < a < 2 ^ 53 -> 0 < b < 2 ^ 53 ->
  match a ?= b with
  | Eq => JS.sub (JS.of_Z a) (JS.of_Z b) = JS.n0
  | Gt => JS.sub (JS.of_Z a) (JS.of_Z b) = JS.of_Z (a - b)
  | Lt => exists m e, JS.sub (JS.of_Z a) (JS.of_Z b) = S754_finite true m e
  end.
Proof.
  intros Ha Hb.
  destruct (of_Z_pos a Ha) as (ma & ka & Ea & Hka & Hma & Na).
  destruct (of_Z_pos b Hb) as (mb & kb & Eb & Hkb & Hmb & Nb).
  unfold normal in Na, Nb.
  assert (Pa : Zpos (Z.to_pos ma) = ma) by (apply Z2Pos.id; lia).
  assert (Pb : Zpos (Z.to_pos mb) = mb) by (apply Z2Pos.id; lia).
  set (ez := Z.min (- ka) (- kb)).
  assert (Hez : -52 <= ez <= 0) by (unfold ez; lia).
  assert (Pz : 0 < 2 ^ (- ez)) by (apply Z.pow_pos_nonneg; lia).
  assert (Hsub : JS.sub (JS.of_Z a) (JS.of_Z b)
                 = binary_normalize JS.prec JS.emax ((a - b) * 2 ^ (- ez)) ez false).
  { unfold JS.sub, JS.of_Z. rewrite Ea, Eb. unfold Fl. cbn [SFsub cond_Zopp].
    fold ez. rewrite !shl_align_fst by (unfold ez; lia).
    rewrite Pa, Pb, Hma, Hmb. f_equal.
    rewrite <- !Z.mul_assoc, <- !Z.pow_add_r by (unfold ez; lia).
    replace (ka + (- ka - ez)) with (- ez) by lia.
    replace (kb + (- kb - ez)) with (- ez) by lia. ring. }
  destruct (Z.compare_spec a b) as [C|C|C].
  - rewrite Hsub. replace (a - b) with 0 by lia. reflexivity.
  - rewrite Hsub.
    destruct ((a - b) * 2 ^ (- ez)) as [|p|p] eqn:Ep; try nia.
    cbn [binary_normalize].
    assert (Hp : Zpos p = (b - a) * 2 ^ (- ez)) by lia.
    destruct (binary_round_exact true p ez (b - a) ltac:(lia) ltac:(lia) Hp)
      as (m & k & _ & _ & Er).
    rewrite Er. eauto.
  - rewrite Hsub.
    destruct ((a - b) * 2 ^ (- ez)) as [|p|p] eqn:Ep; try nia.
    cbn [binary_normalize].
    destruct (binary_round_exact false p ez (a - b) ltac:(lia) ltac:(lia) ltac:(lia))
      as (m & k & Eo & _ & Er).
    rewrite Er, Eo. reflexivity.
Qed.

(** Three quarters of a positive integer is a double: the product is
    exact. *)
Lemma mul_three_quarters (k : Z) :
  0 < k -> 3 * k < 2 ^ 53 ->
  exists b, 0 <= b <= 52 /\ normal (3 * k * 2 ^ b) /\
    JS.mul (JS.of_Z k) JS.n0_75 = Fl (3 * k * 2 ^ b) (- b - 2).
Proof.
  intros Hk H3.
  destruct (of_Z_pos k ltac:(lia)) as (mk & ak & Ek & Hak & Hmk & Nk).
  destruct (of_Z_pos (3 * k) ltac:(lia)) as (m3 & b & _ & Hb & Hm3 & N3).
  exists b. split; [exact Hb|]. rewrite <- Hm3. split; [exact N3|].
  unfold normal in Nk, N3.
  assert (Pk : Zpos (Z.to_pos mk) = mk) by (apply Z2Pos.id; lia).
  assert (Pak : 0 < 2 ^ ak) by (apply Z.pow_pos_nonneg; lia).
  assert (Pb : 0 < 2 ^ b) by (apply Z.pow_pos_nonneg; lia).
  assert (Hle : b <= ak).
  { destruct (Z.leb_spec b ak) as [|Hgt]; [assumption|exfalso].
    assert (E : 2 ^ b = 2 ^ ak * 2 ^ (b - ak))
      by (rewrite <- Z.pow_add_r by lia; f_equal; lia).
    assert (2 <= 2 ^ (b - ak)).
    { change 2 with (2 ^ 1) at 1. apply Z.pow_le_mono_r; lia. }
    nia. }
  unfold JS.mul, JS.of_Z, JS.n0_75. rewrite Ek. unfold Fl. cbn [SFmul xorb].
  rewrite Pos2Z.inj_mul, Pk.
  set (n := ak + 51 - b).
  replace (mk * 6755399441055744) with (m3 * 2 ^ n).
  - rewrite binary_round_aux_exact by (unfold normal, n; lia).
    f_equal. unfold n. lia.
  - rewrite Hm3, Hmk. unfold n.
    replace (ak + 51 - b) with ((ak - b) + 51) by lia.
    rewrite Z.pow_add_r by lia.
    assert (E : 2 ^ ak = 2 ^ b * 2 ^ (ak - b))
      by (rewrite <- Z.pow_add_r by lia; f_equal; lia).
    rewrite E. change (2 ^ 51) with 2251799813685248. ring.
Qed.

(** [Math.round (k * 0.75)] for a positive integer [k]. *)
Lemma round_three_quarters (k : Z) :
  0 < k -> 3 * k < 2 ^ 53 ->
  JS.Math_round (JS.mul (JS.of_Z k) JS.n0_75) = JS.of_Z ((3 * k + 2) / 4).
Proof.
  intros Hk H3.
  destruct (mul_three_quarters k Hk H3) as (b & Hb & Nb & Em).
  rewrite Em.
  destruct (Math_round_pos_eq (3 * k * 2 ^ b) (- b - 2) Nb ltac:(lia))
    as (h & Eh & Hh & Hfl).
  rewrite Eh. f_equal.
  assert (Pb : 0 < 2 ^ b) by (apply Z.pow_pos_nonneg; lia).
  replace (- (- b - 2) + 1) with (b + 3) in Hfl by lia.
  replace (- (- b - 2)) with (b + 2) in Hfl by lia.
  rewrite !Z.pow_add_r in Hfl by lia.
  change (2 ^ 3) with 8 in Hfl. change (2 ^ 2) with 4 in Hfl.
  apply Z.div_unique with (r := 3 * k + 2 - 4 * h); nia.
Qed.

(** The estimate of a payload up to the 22 characters of a header. *)
Lemma short_payload_estimate (n : nat) :
  (n <= 22)%nat ->
  JS.Math_round (JS.mul (JS.sub (JS.of_Z (Z.of_nat n)) JS.n22) JS.n0_75)
    = JS.of_Z ((3 * (Z.of_nat n - 22) + 2) / 4).
Proof.
  intros H.
  do 23 (destruct n as [|n]; [vm_compute; reflexivity|]).
  lia.
Qed.

(** The estimate of a payload by its length. *)
Lemma estimate_by_length (n : Z) :
  0 <= n <= 2 ^ 50 ->
  JS.Math_round (JS.mul (JS.sub (JS.of_Z n) JS.n22) JS.n0_75)
    = JS.of_Z ((3 * (n - 22) + 2) / 4).
Proof.
  intros Hn. destruct (Z.leb_spec n 22) as [Hs|Hl].
  - rewrite <- (Z2Nat.id n) by lia. apply short_payload_estimate. lia.
  - change JS.n22 with (JS.of_Z 22).
    pose proof (sub_of_Z n 22 ltac:(lia) ltac:(lia)) as Hsub.
    replace (n ?= 22) with Gt in Hsub by (symmetry; apply Z.compare_gt_iff; lia).
    rewrite Hsub. apply round_three_quarters; lia.
Qed.

Lemma Math_max_0_of_Z (x : Z) : 0 <= x < 2 ^ 53 -> JS.Math_max JS.n0 (JS.of_Z x) = JS.of_Z x.
Proof.
  intros Hx. destruct (Z.eq_dec x 0) as [->|Hne]; [reflexivity|].
  destruct (of_Z_pos x ltac:(lia)) as (m & a & E & _).
  unfold JS.of_Z. rewrite E. reflexivity.
Qed.

Lemma short_payload_negative (n : nat) :
  (n < 22)%nat ->
  JS.lt (JS.of_Z ((3 * (Z.of_nat n - 22) + 2) / 4)) JS.n0 = true.
Proof.
  intros H.
  do 22 (destruct n as [|n]; [vm_compute; reflexivity|]).
  lia.
Qed.

Lemma estimate_of_payload (file : option File) (payload : string) :
  payload <> EmptyString ->
  Z.of_nat (String.length payload) <= 2 ^ 50 ->
  estimatedNewBytes (estimate file (Some payload))
    = JS.of_Z ((3 * (Z.of_nat (String.length payload) - 22) + 2) / 4).
Proof.
  intros Hne Hlen. unfold estimate. cbn [estimatedNewBytes]. unfold newSizeEstimate.
  destruct payload as [|c rest]; [now elim Hne|]. cbn [string_truthy].
  unfold string_length. apply estimate_by_length. lia.
Qed.

(** X22. The estimate by the length of the payload.  For a non-empty
    payload of [n] characters, [n] up to [2^50], the estimated size is
    the integer [floor ((3 * (n - 22) + 2) / 4)]: three quarters of what
    follows the 22 characters the formula takes off, rounded half up,
    with no error from the double arithmetic.  It is negative for a
    payload of fewer than 22 characters. *)
Theorem estimate_from_length (file : option File) (payload : string) :
  payload <> EmptyString ->
  Z.of_nat (String.length payload) <= 2 ^ 50 ->
  estimatedNewBytes (estimate file (Some payload))
    = JS.of_Z ((3 * (Z.of_nat (String.length payload) - 22) + 2) / 4) /\
  ((String.length payload < 22)%nat ->
   JS.lt (estimatedNewBytes (estimate file (Some payload))) JS.n0 = true).
Proof.
  intros Hne Hlen.
  pose proof (estimate_of_payload file payload Hne Hlen) as E.
  split; [exact E|].
  intros Hshort. rewrite E. now apply short_payload_negative.
Qed.

Lemma estimate_from_length_witness :
  estimatedNewBytes (estimate None (Some example_src))
    = JS.of_Z ((3 * (Z.of_nat (String.length example_src) - 22) + 2) / 4).
Proof.
  apply (estimate_from_length None example_src); [discriminate|].
  vm_compute. discriminate.
Defined.

(** X23. On integers the figures are exact.  For a file of [S] bytes,
    [0 < S < 2^53], and a payload of at least 22 and at most [2^43]
    characters with estimate [E], the saved bytes are [max (0, S - E)]
    and the percentage of the original is an integer within one half of
    [100 * E / S]. *)
Theorem savings_on_integers (S : Z) (payload : string) :
  0 < S < 2 ^ 53 ->
  (22 <= String.length payload)%nat ->
  Z.of_nat (String.length payload) <= 2 ^ 43 ->
  let E := (3 * (Z.of_nat (String.length payload) - 22) + 2) / 4 in
  let e := estimate (Some {| size := JS.of_Z S |}) (Some payload) in
  estimatedNewBytes e = JS.of_Z E /\
  est_savedBytes e = JS.of_Z (Z.max 0 (S - E)) /\
  exists p, percentOfOriginal e = JS.of_Z p /\ 0 <= p /\
            2 * Z.abs (p * S - 100 * E) <= S.
Proof.
  intros HS Hmin Hlen E e.
  assert (Hne : payload <> EmptyString) by (destruct payload; [simpl in Hmin; lia|discriminate]).
  pose proof (estimate_of_payload (Some {| size := JS.of_Z S |}) payload Hne
                ltac:(lia)) as He.
  fold E in He. fold e in He.
  assert (HE : 0 <= E < 2 ^ 43).
  { unfold E. split.
    - apply Z.div_pos; lia.
    - apply Z.div_lt_upper_bound; lia. }
  split; [exact He|].
  assert (Ho : originalSize (Some {| size := JS.of_Z S |}) = JS.of_Z S)
    by (unfold originalSize; cbn [size]; apply or_else_of_Z; lia).
  assert (Hs : est_savedBytes e
               = JS.Math_max JS.n0 (JS.sub (JS.of_Z S) (JS.of_Z E))).
  { unfold e, estimate in *. cbn [est_savedBytes estimatedNewBytes] in *.
    unfold savedBytes. now rewrite He, Ho. }
  assert (Hp : percentOfOriginal e
               = JS.Math_round (JS.mul (JS.of_Z 100) (JS.div (JS.of_Z E) (JS.of_Z S)))).
  { unfold e, estimate in *. cbn [percentOfOriginal estimatedNewBytes] in *.
    unfold sizePercent. rewrite He, Ho, mul_comm. reflexivity. }
  destruct (of_Z_pos S HS) as (mS & aS & ES & _).
  split.
  - rewrite Hs. destruct (Z.eq_dec E 0) as [E0|E0].
    + rewrite E0. replace (Z.max 0 (S - 0)) with S by lia.
      unfold JS.of_Z at 1 2 3. rewrite ES. reflexivity.
    + pose proof (sub_of_Z S E HS ltac:(lia)) as Hsub.
      destruct (Z.compare_spec S E) as [C|C|C].
      * rewrite Hsub. replace (Z.max 0 (S - E)) with 0 by lia. reflexivity.
      * destruct Hsub as (m & x & ->).
        replace (Z.max 0 (S - E)) with 0 by lia. reflexivity.
      * rewrite Hsub. replace (Z.max 0 (S - E)) with (S - E) by lia.
        apply Math_max_0_of_Z. lia.
  - rewrite Hp. destruct (Z.eq_dec E 0) as [E0|E0].
    + exists 0. rewrite E0. split; [|lia].
      change (JS.of_Z S) with (binary_normalize JS.prec JS.emax S 0 false).
      rewrite ES. reflexivity.
    + destruct (rounded_product_nearest S E 100 HS ltac:(lia) ltac:(lia) ltac:(lia))
        as (p & Ep & Hp0 & Hn).
      exists p. split; [exact Ep|]. split; [lia|exact Hn].
Qed.

Lemma savings_on_integers_witness :
  estimatedNewBytes
    (estimate (Some {| size := JS.of_Z 10000 |})
              (Some "data:image/jpeg;base64,AAAA"%string))
    = JS.of_Z ((3 * (Z.of_nat (String.length "data:image/jpeg;base64,AAAA") - 22) + 2) / 4).
Proof.
  destruct (savings_on_integers 10000 "data:image/jpeg;base64,AAAA"%string)
    as (H & _).
  - split; reflexivity.
  - simpl. lia.
  - vm_compute. discriminate.
  - exact H.
Defined.

(** ** The dimension resolver against its specification *)

(** [rounded_product_nearest] with zero let in for the new value. *)
Lemma rounded_product_nearest_nonneg (W H v : Z) :
  0 < W < 2 ^ 53 -> 0 < H < 2 ^ 53 -> 0 <= v -> v * H <= 2 ^ 50 ->
  exists h,
    JS.Math_round (JS.mul (JS.of_Z v) (JS.div (JS.of_Z H) (JS.of_Z W))) = JS.of_Z h /\
    0 <= h < 2 ^ 53 /\ 2 * Z.abs (h * W - v * H) <= W.
Proof.
  intros HW HH Hv Hb.
  destruct (Z.eq_dec v 0) as [->|Hne].
  - exists 0. split; [|lia].
    destruct (of_Z_pos W HW) as (mW & aW & EW & HaW & _ & NW).
    destruct (of_Z_pos H HH) as (mH & aH & EH & HaH & _ & NH).
    destruct (div_pos mH (- aH) mW (- aW) NH NW ltac:(lia)) as (m & e & Ed & _).
    unfold JS.div, JS.mul. unfold JS.of_Z at 2 3. rewrite EH, EW, Ed. reflexivity.
  - exact (rounded_product_nearest W H v HW ltac:(lia) ltac:(lia) Hb).
Qed.

Lemma of_Z_nonneg_sign (v : Z) : 0 <= v < 2 ^ 53 -> JS.lt (JS.of_Z v) JS.n0 = false.
Proof.
  intros Hv. destruct (Z.eq_dec v 0) as [->|Hne]; [reflexivity|].
  now destruct (of_Z_pos_sign v ltac:(lia)).
Qed.

(** C1 as the code has it.  A negative value leaves the options as they are.
    With the lock on, for an original of [W] by [H] pixels (integers
    above zero and below [2^53]) and an integer value [v] that is at
    least zero with [v * H <= 2^50], a width edit stores [v] and a height
    that is an integer within one half of [v * H / W]; a height edit
    likewise, the axes exchanged.  With the lock off the other axis keeps
    its value.  For a 2000x1000 original with the lock on, width 1000
    gives height 500 and percentage 50. *)
Theorem updateDimensions_resolves (options : ResizeOptions) :
  (forall originalDims key value, JS.lt value JS.n0 = true ->
     editDimension originalDims options key value = options) /\
  (forall W H v,
     0 < W < 2 ^ 53 -> 0 < H < 2 ^ 53 -> 0 <= v -> v * H <= 2 ^ 50 ->
     maintainAspectRatio options = true ->
     width (editDimension (dims W H) options key_width (JS.of_Z v)) = JS.of_Z v /\
     exists h,
       height (editDimension (dims W H) options key_width (JS.of_Z v)) = JS.of_Z h /\
       0 <= h /\ 2 * Z.abs (h * W - v * H) <= W) /\
  (forall W H v,
     0 < W < 2 ^ 53 -> 0 < H < 2 ^ 53 -> 0 <= v -> v * W <= 2 ^ 50 ->
     maintainAspectRatio options = true ->
     height (editDimension (dims W H) options key_height (JS.of_Z v)) = JS.of_Z v /\
     exists w,
       width (editDimension (dims W H) options key_height (JS.of_Z v)) = JS.of_Z w /\
       0 <= w /\ 2 * Z.abs (w * H - v * W) <= H) /\
  (forall originalDims value,
     JS.le JS.n0 value = true -> maintainAspectRatio options = false ->
     width (editDimension originalDims options key_width value) = value /\
     height (editDimension originalDims options key_width value) = height options /\
     height (editDimension originalDims options key_height value) = value /\
     width (editDimension originalDims options key_height value) = width options) /\
  (maintainAspectRatio options = true ->
     height (editDimension (dims 2000 1000) options key_width (JS.of_Z 1000))
       = JS.of_Z 500 /\
     percentage (editDimension (dims 2000 1000) options key_width (JS.of_Z 1000))
       = JS.of_Z 50).
Proof.
  split; [|split; [|split; [|split]]].
  - intros originalDims key value H. now apply editDimension_negative.
  - intros W H v HW HH Hv Hb Hlock.
    assert (Hv' : 0 <= v < 2 ^ 53) by nia.
    destruct (of_Z_pos_sign W HW) as [_ Hgt].
    rewrite (editDimension_width_locked (dims W H) options (JS.of_Z v)
               (of_Z_nonneg_sign v Hv') Hlock Hgt).
    cbn [width height dims dim_width dim_height].
    split; [reflexivity|].
    destruct (rounded_product_nearest_nonneg W H v HW HH Hv Hb) as (h & Eh & Hh & Hn).
    exists h. split; [exact Eh|]. split; [lia|exact Hn].
  - intros W H v HW HH Hv Hb Hlock.
    assert (Hv' : 0 <= v < 2 ^ 53) by nia.
    destruct (of_Z_pos_sign H HH) as [_ Hgt].
    rewrite (editDimension_height_locked (dims W H) options (JS.of_Z v)
               (of_Z_nonneg_sign v Hv') Hlock Hgt).
    cbn [width height dims dim_width dim_height].
    split; [reflexivity|].
    destruct (rounded_product_nearest_nonneg H W v HH HW Hv Hb) as (w & Ew & Hw & Hn).
    exists w. split; [exact Ew|]. split; [lia|exact Hn].
  - intros originalDims value Hv Hlock. repeat split.
    + rewrite editDimension_width_free; auto using le_not_lt. now rewrite Hlock.
    + rewrite editDimension_width_free; auto using le_not_lt. now rewrite Hlock.
    + rewrite editDimension_height_free; auto using le_not_lt. now rewrite Hlock.
    + rewrite editDimension_height_free; auto using le_not_lt. now rewrite Hlock.
  - intros Hlock. split; rewrite editDimension_width_locked; auto.
Qed.

Lemma updateDimensions_resolves_witness :
  width (editDimension (dims 1000 563) optsA key_width (JS.of_Z 1500)) = JS.of_Z 1500 /\
  exists h,
    height (editDimension (dims 1000 563) optsA key_width (JS.of_Z 1500)) = JS.of_Z h /\
    0 <= h /\ 2 * Z.abs (h * 1000 - 1500 * 563) <= 1000.
Proof.
  destruct (updateDimensions_resolves optsA) as (_ & H & _).
  apply (H 1000 563 1500).
  - split; reflexivity.
  - split; reflexivity.
  - discriminate.
  - discriminate.
  - reflexivity.
Defined.

(** C1 as stated fails: for a 1000x563 original with the lock on, width
    1500 gives height 844, where [round (1500 * 563 / 1000)], the round
    of 844.5, is 845.  The handler multiplies the value by the rounded
    quotient [563 / 1000], and that double product is just below 844.5. *)
Lemma locked_axis_formula_fails :
  maintainAspectRatio optsA = true /\
  height (editDimension (dims 1000 563) optsA key_width (JS.of_Z 1500)) = JS.of_Z 844 /\
  spec_locked_axis (JS.of_Z 1500) (JS.of_Z 563) (JS.of_Z 1000) = JS.of_Z 845 /\
  height (editDimension (dims 1000 563) optsA key_width (JS.of_Z 1500))
    <> spec_locked_axis (JS.of_Z 1500) (dim_height (dims 1000 563))
         (dim_width (dims 1000 563)).
Proof.
  repeat split; try reflexivity. vm_compute. discriminate.
Qed.

(** A negative integer above [-2^53] is a negative number. *)
Lemma of_Z_neg (q : Z) :
  - 2 ^ 53 < q < 0 -> exists m e, JS.of_Z q = S754_finite true m e.
Proof.
  intros Hq. destruct q as [|p|p]; try lia.
  destruct (binary_round_exact true p 0 (Zpos p) ltac:(lia) ltac:(lia) ltac:(simpl; lia))
    as (m & a & _ & _ & E).
  unfold JS.of_Z. cbn [binary_normalize]. rewrite E. eauto.
Qed.

(** An integer value below 1 is edited as 1. *)
Lemma of_Z_below_1 (q : Z) : - 2 ^ 53 < q < 1 -> JS.lt (JS.of_Z q) JS.n1 = true.
Proof.
  intros Hq. destruct (Z.eq_dec q 0) as [->|Hne]; [reflexivity|].
  destruct (of_Z_neg q ltac:(lia)) as (m & e & ->). reflexivity.
Qed.

Lemma editPercentage_clamped (originalDims : ImageDimensions) (options : ResizeOptions)
    (q : Z) :
  - 2 ^ 53 < q < 2 ^ 53 ->
  editPercentage originalDims options (JS.of_Z q)
    = editPercentage originalDims options (JS.of_Z (Z.max 1 (Z.min 500 q))).
Proof.
  intros Hq. destruct (Z.ltb_spec q 1) as [Hlow|Hlow].
  - replace (Z.max 1 (Z.min 500 q)) with 1 by lia.
    unfold editPercentage, updatePercentage.
    rewrite (of_Z_below_1 q) by lia. reflexivity.
  - destruct (Z.ltb_spec 500 q) as [Hhigh|Hhigh].
    + replace (Z.max 1 (Z.min 500 q)) with 500 by lia.
      unfold editPercentage, updatePercentage.
      pose proof (of_Z_lt q 1 ltac:(lia) ltac:(lia)) as L1.
      pose proof (of_Z_lt 500 q ltac:(lia) ltac:(lia)) as L5.
      change (JS.of_Z 1) with JS.n1 in L1. change (JS.of_Z 500) with JS.n500 in L5.
      replace (q <? 1) with false in L1 by (symmetry; apply Z.ltb_ge; lia).
      replace (500 <? q) with true in L5 by (symmetry; apply Z.ltb_lt; lia).
      unfold JS.lt in L1, L5. unfold JS.gt, JS.lt. cbv zeta.
      rewrite L1. cbv iota. rewrite L5. reflexivity.
    + now replace (Z.max 1 (Z.min 500 q)) with q by lia.
Qed.

(** C3 as the code has it.  For a value that is a number (not NaN) the stored
    percentage [p] lies in [1, 500]: it is 1 below 1, 500 above 500 and
    the value itself in between.  For an original of [W] by [H] pixels
    ([500 * W] and [500 * H] up to [2^50]) and an integer value, width
    and height are integers within one half of [W * p / 100] and
    [H * p / 100], [p] being the value clamped into [1, 500].  The
    outcome is the same whatever the options, the lock flag included.
    An 800x600 original at 25 gives 200x150. *)
Theorem updatePercentage_resolves (options : ResizeOptions) :
  (forall originalDims val, JS.is_nan val = false ->
     let p := percentage (editPercentage originalDims options val) in
     (JS.le JS.n1 p = true /\ JS.le p JS.n500 = true) /\
     (JS.lt val JS.n1 = true -> p = JS.n1) /\
     (JS.gt val JS.n500 = true -> p = JS.n500) /\
     (JS.le JS.n1 val = true -> JS.le val JS.n500 = true -> p = val)) /\
  (forall W H q,
     0 < W -> 0 < H -> 500 * W <= 2 ^ 50 -> 500 * H <= 2 ^ 50 ->
     - 2 ^ 53 < q < 2 ^ 53 ->
     let p := Z.max 1 (Z.min 500 q) in
     let r := editPercentage (dims W H) options (JS.of_Z q) in
     percentage r = JS.of_Z p /\
     exists w h,
       width r = JS.of_Z w /\ height r = JS.of_Z h /\
       2 * Z.abs (100 * w - W * p) <= 100 /\
       2 * Z.abs (100 * h - H * p) <= 100) /\
  (forall originalDims val (options' : ResizeOptions),
     width (editPercentage originalDims options' val)
       = width (editPercentage originalDims options val) /\
     height (editPercentage originalDims options' val)
       = height (editPercentage originalDims options val) /\
     percentage (editPercentage originalDims options' val)
       = percentage (editPercentage originalDims options val)) /\
  (width (editPercentage (dims 800 600) options (JS.of_Z 25)) = JS.of_Z 200 /\
   height (editPercentage (dims 800 600) options (JS.of_Z 25)) = JS.of_Z 150).
Proof.
  split; [|split; [|split]].
  - intros originalDims val Hnan p. subst p.
    unfold editPercentage, updatePercentage; cbn [percentage].
    destruct (JS.lt val JS.n1) eqn:H1.
    + change (JS.gt JS.n1 JS.n500) with false. cbv iota.
      split; [split; reflexivity|].
      split; [reflexivity|].
      split; [intros H5; now rewrite (lt_1_not_gt_500 _ H1) in H5|].
      intros Hle; apply le_not_lt in Hle; congruence.
    + destruct (JS.gt val JS.n500) eqn:H5.
      * split; [split; reflexivity|].
        split; [discriminate|].
        split; [reflexivity|].
        intros _ Hle; apply le_not_lt in Hle; unfold JS.gt, JS.lt in *; congruence.
      * split; [split; apply not_lt_le; auto|].
        split; [discriminate|].
        split; [discriminate|reflexivity].
  - intros W H q HW HH HbW HbH Hq p r. subst r.
    rewrite (editPercentage_clamped (dims W H) options q Hq). fold p.
    assert (Hp : 1 <= p <= 500) by (unfold p; lia).
    apply percentage_edit_rounds; try assumption; nia.
  - intros originalDims val options'. repeat split.
  - split; reflexivity.
Qed.

Lemma updatePercentage_resolves_witness :
  percentage (editPercentage (dims 50 50) optsA (JS.of_Z 29)) = JS.of_Z 29 /\
  exists w h,
    width (editPercentage (dims 50 50) optsA (JS.of_Z 29)) = JS.of_Z w /\
    height (editPercentage (dims 50 50) optsA (JS.of_Z 29)) = JS.of_Z h /\
    2 * Z.abs (100 * w - 50 * 29) <= 100 /\
    2 * Z.abs (100 * h - 50 * 29) <= 100.
Proof.
  destruct (updatePercentage_resolves optsA) as (_ & H & _).
  apply (H 50 50 29).
  - reflexivity.
  - reflexivity.
  - discriminate.
  - discriminate.
  - split; reflexivity.
Defined.

(** C3 as stated fails: a 50x50 original at 29 percent gets width 14,
    where [round (50 * 29 / 100)], the round of 14.5, is 15.  The handler
    multiplies by the rounded quotient [29 / 100], and that double
    product is just below 14.5. *)
Lemma scaled_axis_formula_fails :
  width (editPercentage (dims 50 50) optsA (JS.of_Z 29)) = JS.of_Z 14 /\
  spec_scaled_axis (JS.of_Z 50) (JS.of_Z 29) = JS.of_Z 15 /\
  width (editPercentage (dims 50 50) optsA (JS.of_Z 29))
    <> spec_scaled_axis (dim_width (dims 50 50)) (JS.of_Z 29).
Proof.
  repeat split; try reflexivity. vm_compute. discriminate.
Qed.
